(** * Minesweeper knowledge engine: a shallow embedding of
    [project/knowledge/minesweeper/minesweeper.py] and the properties of its
    derivation loop.

    Python integers are unbounded, so counts and coordinates are [Z].  A
    Python [set] of cells is a [gset (Z * Z)]; the list [self.knowledge] is a
    [list] of sentence values.  The Python sentences are shared mutable
    objects: [MinesweeperAI.mark_mine] and [mark_safe] update every object of
    [self.knowledge] in place, which the embedding renders by mapping the
    update over the whole list, and a loop that walks a snapshot of the list
    while those updates happen reads the current value at each position.

    The only loop of the engine that is not bounded by its input is the
    subset-elimination pass, which appends to the list it is enumerating.  It
    takes a [fuel] argument counting the iterations of its outer loop, and
    answers [None] when that many iterations did not exhaust the list. *)

From Stdlib Require Import Ascii.
From stdpp Require Import gmap sets list.

Set Warnings "-clear-no-such-hyp".

Local Open Scope Z_scope.

Abbreviation Cell := (Z * Z)%type.

(** ** class Sentence *)

Module Sentence.

Record t := mk { cells : gset Cell; count : Z }.

(** [__eq__]: equal cell sets and equal counts. *)
#[global] Instance eq_dec : EqDecision t.
Proof. solve_decision. Defined.

Definition known_mines (s : t) : gset Cell :=
  if decide (Z.of_nat (size (cells s)) = count s ∧ 0 < count s)
  then cells s else ∅.

Definition known_safes (s : t) : gset Cell :=
  if decide (count s = 0) then cells s else ∅.

Definition mark_mine (cell : Cell) (s : t) : t :=
  if decide (cell ∈ cells s)
  then mk (cells s ∖ {[cell]}) (count s - 1)
  else s.

Definition mark_safe (cell : Cell) (s : t) : t :=
  if decide (cell ∈ cells s)
  then mk (cells s ∖ {[cell]}) (count s)
  else s.

End Sentence.

(** ** class Minesweeper (the board)

    [board[i][j]] is [True] exactly for the cells of [mines]; only the
    neighbour count, which produces the observations, is needed here. *)

Module Minesweeper.

Record t := mk { height : Z; width : Z; mines : gset Cell }.

Definition is_mine (g : t) (cell : Cell) : bool := bool_decide (cell ∈ mines g).

(** The 3 x 3 window [range(cell[0] - 1, cell[0] + 2)] x
    [range(cell[1] - 1, cell[1] + 2)], row by row. *)
Definition window (cell : Cell) : list Cell :=
  i ← [cell.1 - 1; cell.1; cell.1 + 1];
  j ← [cell.2 - 1; cell.2; cell.2 + 1];
  [(i, j)].

Definition nearby_mines (g : t) (cell : Cell) : Z :=
  foldl (fun count c =>
           if decide (c = cell) then count
           else if decide ((0 ≤ c.1 ∧ c.1 < height g) ∧ (0 ≤ c.2 ∧ c.2 < width g))
                then (if is_mine g c then count + 1 else count)
                else count)
        0 (window cell).

End Minesweeper.

(** ** class MinesweeperAI *)

Module MinesweeperAI.

Record t := mk {
  height : Z;
  width : Z;
  moves_made : gset Cell;
  mines : gset Cell;
  safes : gset Cell;
  knowledge : list Sentence.t
}.

(** [__init__] *)
Definition init (h w : Z) : t := mk h w ∅ ∅ ∅ [].

Definition set_knowledge (K : list Sentence.t) (st : t) : t :=
  mk (height st) (width st) (moves_made st) (mines st) (safes st) K.

Definition mark_mine (cell : Cell) (st : t) : t :=
  mk (height st) (width st) (moves_made st) ({[cell]} ∪ mines st) (safes st)
     (map (Sentence.mark_mine cell) (knowledge st)).

Definition mark_safe (cell : Cell) (st : t) : t :=
  mk (height st) (width st) (moves_made st) (mines st) ({[cell]} ∪ safes st)
     (map (Sentence.mark_safe cell) (knowledge st)).

Definition get_neighbors (st : t) (cell : Cell) : gset Cell :=
  let '(i, j) := cell in
  foldl (fun neighbors di =>
    foldl (fun neighbors dj =>
      if decide (di = 0 ∧ dj = 0) then neighbors
      else
        let ni := i + di in
        let nj := j + dj in
        if decide ((0 ≤ ni ∧ ni < height st) ∧ (0 ≤ nj ∧ nj < width st))
        then {[(ni, nj)]} ∪ neighbors
        else neighbors)
      neighbors [-1; 0; 1])
    ∅ [-1; 0; 1].

Definition infer_from_sentences (s1 s2 : Sentence.t) : option Sentence.t :=
  if decide (Sentence.cells s1 ⊆ Sentence.cells s2) then
    Some (Sentence.mk (Sentence.cells s2 ∖ Sentence.cells s1)
                      (Sentence.count s2 - Sentence.count s1))
  else if decide (Sentence.cells s2 ⊆ Sentence.cells s1) then
    Some (Sentence.mk (Sentence.cells s1 ∖ Sentence.cells s2)
                      (Sentence.count s1 - Sentence.count s2))
  else None.

(** *** update_knowledge

    The accumulator of every loop is the engine paired with the local
    variable [changes_made]. *)

(** [if mine not in self.mines: self.mark_mine(mine); changes_made = True] *)
Definition note_mine (acc : t * bool) (c : Cell) : t * bool :=
  if decide (c ∈ mines acc.1) then acc else (mark_mine c acc.1, true).

(** [if safe not in self.safes: self.mark_safe(safe); changes_made = True] *)
Definition note_safe (acc : t * bool) (c : Cell) : t * bool :=
  if decide (c ∈ safes acc.1) then acc else (mark_safe c acc.1, true).

(** One iteration of [for sentence in self.knowledge.copy()].  The copy is
    shallow: its [k]-th entry is the object at position [k] of
    [self.knowledge], whose cells and count at this point are the ones
    left by the marks of the earlier iterations.  [known_mines] and
    [known_safes] return copies, taken before either inner loop runs. *)
Definition extract_at (acc : t * bool) (k : nat) : t * bool :=
  match knowledge acc.1 !! k with
  | None => acc
  | Some sentence =>
      let new_mines := Sentence.known_mines sentence in
      let new_safes := Sentence.known_safes sentence in
      foldl note_safe (foldl note_mine acc (elements new_mines)) (elements new_safes)
  end.

Definition extract_step (st : t) : t * bool :=
  foldl extract_at (st, false) (seq 0 (length (knowledge st))).

(** [[s for s in self.knowledge if len(s.cells) > 0]] *)
Definition drop_empty (K : list Sentence.t) : list Sentence.t :=
  filter (fun s => (0 < size (Sentence.cells s))%nat) K.

(** Body of [for s2 in self.knowledge[i + 1:]]; the membership test reads
    the list as it is now, the appended sentences included. *)
Definition infer_pair (s1 : Sentence.t) (acc : list Sentence.t * bool)
    (s2 : Sentence.t) : list Sentence.t * bool :=
  match infer_from_sentences s1 s2 with
  | Some inferred =>
      if decide (inferred ∈ acc.1) then acc else (acc.1 ++ [inferred], true)
  | None => acc
  end.

(** [for i, s1 in enumerate(self.knowledge)]: the list iterator looks the
    index up in the list as it is now, so sentences appended by earlier
    iterations are enumerated too; the slice [self.knowledge[i + 1:]] is
    copied when the inner loop starts. *)
Fixpoint infer_outer (fuel : nat) (i : nat) (acc : list Sentence.t * bool)
    : option (list Sentence.t * bool) :=
  match acc.1 !! i with
  | None => Some acc
  | Some s1 =>
      match fuel with
      | O => None
      | S fuel' =>
          infer_outer fuel' (S i) (foldl (infer_pair s1) acc (drop (S i) acc.1))
      end
  end.

(** The intersection of the cell sets of all sentences of
    [self.knowledge], and the empty set when there is no sentence. *)
Definition common_cells (K : list Sentence.t) : gset Cell :=
  match K with
  | [] => ∅
  | s :: rest => foldl (fun acc s' => acc ∩ Sentence.cells s') (Sentence.cells s) rest
  end.

(** [(... for s in self.knowledge if cell in s.cells)] *)
Definition holding (c : Cell) (K : list Sentence.t) : list Sentence.t :=
  filter (fun s => c ∈ Sentence.cells s) K.

Definition all_full (c : Cell) (K : list Sentence.t) : bool :=
  forallb (fun s => bool_decide (Sentence.count s = Z.of_nat (size (Sentence.cells s))))
          (holding c K).

Definition all_zero (c : Cell) (K : list Sentence.t) : bool :=
  forallb (fun s => bool_decide (Sentence.count s = 0)) (holding c K).

Definition cross_check (acc : t * bool) (c : Cell) : t * bool :=
  if all_full c (knowledge acc.1) then note_mine acc c
  else if all_zero c (knowledge acc.1) then note_safe acc c
  else acc.

(** One round of the [for _ in range(max_iterations)] loop; the result
    carries [changes_made]. *)
Definition update_round (fuel : nat) (st : t) : option (t * bool) :=
  let '(st1, changes1) := extract_step st in
  let st2 := set_knowledge (drop_empty (knowledge st1)) st1 in
  match infer_outer fuel 0 (knowledge st2, changes1) with
  | None => None
  | Some (K3, changes3) =>
      let st3 := set_knowledge K3 st2 in
      Some (foldl cross_check (st3, changes3) (elements (common_cells K3)))
  end.

(** [n] rounds at most, leaving at the first round without a change.  The
    boolean is the value of [changes_made] when the loop is left. *)
Fixpoint iterate (fuel : nat) (n : nat) (st : t) : option (t * bool) :=
  match n with
  | O => Some (st, true)
  | S n' =>
      match update_round fuel st with
      | None => None
      | Some (st', changes_made) =>
          if changes_made then iterate fuel n' st' else Some (st', false)
      end
  end.

Definition max_iterations : nat := 100.

Definition update_knowledge (fuel : nat) (st : t) : option t :=
  fst <$> iterate fuel max_iterations st.

(** The part of [add_knowledge] before the call of [update_knowledge]. *)
Definition record_observation (cell : Cell) (count : Z) (st : t) : t :=
  let st1 := mk (height st) (width st) ({[cell]} ∪ moves_made st)
                (mines st) (safes st) (knowledge st) in
  let st2 := mark_safe cell st1 in
  let neighbors := get_neighbors st2 cell in
  let unknown_neighbors := neighbors ∖ safes st2 ∖ mines st2 in
  let new_sentence :=
    Sentence.mk unknown_neighbors
                (count - Z.of_nat (size (neighbors ∩ mines st2))) in
  if decide (0 < size (Sentence.cells new_sentence))%nat
  then set_knowledge (knowledge st2 ++ [new_sentence]) st2
  else st2.

Definition add_knowledge (fuel : nat) (cell : Cell) (count : Z) (st : t) : option t :=
  update_knowledge fuel (record_observation cell count st).

(** *** Move selection

    [random.choice(seq)] returns [seq[k]] for an index [k] below
    [len(seq)] drawn from the generator; [r] is that draw.  Neither method
    assigns to a field, so the engine comes back as it went in. *)
Definition choice (r : nat) (l : list Cell) : option Cell :=
  l !! (r `mod` length l)%nat.

Definition make_safe_move (r : nat) (st : t) : option Cell * t :=
  let safe_moves := safes st ∖ moves_made st in
  (if decide (safe_moves = ∅) then None else choice r (elements safe_moves), st).

Definition all_moves (st : t) : gset Cell :=
  list_to_set (i ← seqZ 0 (height st); j ← seqZ 0 (width st); [(i, j)]).

Definition make_random_move (r : nat) (st : t) : option Cell * t :=
  let possible_moves := elements (all_moves st ∖ moves_made st ∖ mines st) in
  (match possible_moves with [] => None | _ => choice r possible_moves end, st).

End MinesweeperAI.

(** ** class Minesweeper, with its matrix

    The object as the constructor builds it: besides the set [mines] it
    holds the matrix [board] of booleans, which is what [is_mine] and
    [nearby_mines] read, and the set [mines_found].  A Python list index may
    be negative, counting from the end, and raises [IndexError] out of
    range; [None] stands for the exception. *)

Module Game.

Record t := mk {
  height : Z;
  width : Z;
  mines : gset Cell;
  board : list (list bool);
  mines_found : gset Cell
}.

(** How a call ends: it returns, it raises, or it is still running when the
    random draws supplied are used up. *)
Inductive outcome (A : Type) : Type :=
| Returned (a : A)
| Raised
| Running.
Arguments Returned {A} a.
Arguments Raised {A}.
Arguments Running {A}.

(** [l[i]] *)
Definition py_get {A : Type} (l : list A) (i : Z) : option A :=
  if decide (0 ≤ i) then l !! Z.to_nat i
  else if decide (- Z.of_nat (length l) ≤ i) then l !! Z.to_nat (Z.of_nat (length l) + i)
  else None.

(** [l[i] = v] *)
Definition py_set {A : Type} (l : list A) (i : Z) (v : A) : option (list A) :=
  if decide (0 ≤ i) then
    if decide (i < Z.of_nat (length l)) then Some (<[Z.to_nat i := v]> l) else None
  else if decide (- Z.of_nat (length l) ≤ i)
       then Some (<[Z.to_nat (Z.of_nat (length l) + i) := v]> l)
  else None.

(** [self.board[i][j]] *)
Definition board_get (g : t) (i j : Z) : option bool :=
  row ← py_get (board g) i; py_get row j.

(** [self.board[i][j] = True] *)
Definition board_mark (g : t) (i j : Z) : option (list (list bool)) :=
  row ← py_get (board g) i;
  row' ← py_set row j true;
  py_set (board g) i row'.

(** [random.randrange(n)]: [ValueError] for an empty range, and otherwise a
    number below [n], which the draw [r] decides. *)
Definition randrange (n : Z) (r : nat) : option Z :=
  if decide (0 < n) then Some (Z.of_nat r `mod` n) else None.

(** The loop [while len(self.mines) != mines] of the constructor; each
    iteration takes two draws. *)
Fixpoint place_mines (h w target : Z) (draws : list (nat * nat)) (g : t) : outcome t :=
  if decide (Z.of_nat (size (mines g)) = target) then Returned g
  else
    match draws with
    | [] => Running
    | (ri, rj) :: draws' =>
        match randrange h ri with
        | None => Raised
        | Some i =>
            match randrange w rj with
            | None => Raised
            | Some j =>
                match board_get g i j with
                | None => Raised
                | Some true => place_mines h w target draws' g
                | Some false =>
                    match board_mark g i j with
                    | None => Raised
                    | Some board' =>
                        place_mines h w target draws'
                          (mk (height g) (width g) ({[(i, j)]} ∪ mines g) board'
                              (mines_found g))
                    end
                end
            end
        end
    end.

(** An empty field: [range(n)] is empty for [n <= 0]. *)
Definition empty_field (h w : Z) : t :=
  mk h w ∅ (replicate (Z.to_nat h) (replicate (Z.to_nat w) false)) ∅.

(** [__init__]; [mines_found] is assigned after the loop. *)
Definition init (h w target : Z) (draws : list (nat * nat)) : outcome t :=
  match place_mines h w target draws (empty_field h w) with
  | Returned g => Returned (mk (height g) (width g) (mines g) (board g) ∅)
  | Raised => Raised
  | Running => Running
  end.

(** [is_mine] *)
Definition is_mine (g : t) (cell : Cell) : option bool :=
  board_get g cell.1 cell.2.

(** [nearby_mines]: the matrix is read for the cells of the window that pass
    the test of the bounds. *)
Definition nearby_mines (g : t) (cell : Cell) : option Z :=
  foldl (fun acc c =>
           count ← acc;
           if decide (c = cell) then Some count
           else if decide ((0 ≤ c.1 ∧ c.1 < height g) ∧ (0 ≤ c.2 ∧ c.2 < width g))
                then b ← board_get g c.1 c.2;
                     Some (if b : bool then count + 1 else count)
                else Some count)
        (Some 0) (Minesweeper.window cell).

(** [won] *)
Definition won (g : t) : bool := bool_decide (mines_found g = mines g).

(** The part of the object that the observations depend on. *)
Definition plan (g : t) : Minesweeper.t :=
  Minesweeper.mk (height g) (width g) (mines g).

(** [print]: the lines written to the standard output, each a list of
    characters, or [None] when reading the matrix raises.  A string times a
    number that is not positive is the empty string. *)
Definition sep_line (w : Z) : list ascii :=
  concat (replicate (Z.to_nat w) ["-"; "-"]%char) ++ ["-"%char].

Definition row_line (g : t) (i : Z) : option (list ascii) :=
  line ← foldl (fun acc j =>
                  line ← acc;
                  b ← board_get g i j;
                  Some (line ++ (if b : bool then ["|"; "X"] else ["|"; " "])%char))
               (Some []) (seqZ 0 (width g));
  Some (line ++ ["|"%char]).

Definition print (g : t) : option (list (list ascii)) :=
  lines ← foldl (fun acc i =>
                   lines ← acc;
                   row ← row_line g i;
                   Some (lines ++ [sep_line (width g); row]))
                (Some []) (seqZ 0 (height g));
  Some (lines ++ [sep_line (width g)]).

End Game.

Import MinesweeperAI.

(** * Specification-level vocabulary *)

(** What a call of [add_knowledge] that returns has computed: some number of
    iterations is enough for every subset-elimination pass of the call. *)
Definition observe (st : t) (cell : Cell) (count : Z) (st' : t) : Prop :=
  ∃ fuel, add_knowledge fuel cell count st = Some st'.

(** A session: the engine starts from [st0] and receives the observations of
    the list, oldest first; [pre] is what each call is assumed to meet, as a
    relation between the engine at the time of the call and its arguments. *)
Inductive session (pre : t → Cell → Z → Prop) (st0 : t)
    : list (Cell * Z) → t → Prop :=
| session_start : session pre st0 [] st0
| session_call obs st cell count st' :
    session pre st0 obs st →
    pre st cell count →
    observe st cell count st' →
    session pre st0 (obs ++ [(cell, count)]) st'.

(** The calls of a session replayed on the embedding, each one checked
    against [chk] before it is made. *)
Fixpoint replay (fuel : nat) (chk : t → Cell → Z → bool)
    (obs : list (Cell * Z)) (st : t) : option t :=
  match obs with
  | [] => Some st
  | (cell, count) :: obs' =>
      if chk st cell count then
        match add_knowledge fuel cell count st with
        | Some st' => replay fuel chk obs' st'
        | None => None
        end
      else None
  end.

Definition any_call : t → Cell → Z → Prop := fun _ _ _ => True.

(** The observed cell is not already classified as a mine. *)
Definition not_known_mine (st : t) (cell : Cell) (count : Z) : Prop :=
  cell ∉ mines st.

Definition in_bounds (st : t) (cell : Cell) : Prop :=
  (0 ≤ fst cell ∧ fst cell < height st) ∧ (0 ≤ snd cell ∧ snd cell < width st).

(** Modelled from the spec: the preconditions of [observe(cell, count)] are
    not checked anywhere in the code; this is their list in section 4.2 of
    the specification.  The cell is in bounds and was not observed before,
    the count lies in [0, 8], and the count is consistent with the mines
    already known among the neighbours of the cell: it is at least their
    number, and exceeds it by at most the number of unresolved neighbours. *)
Definition precondition (st : t) (cell : Cell) (count : Z) : Prop :=
  let neighbors := get_neighbors st cell in
  in_bounds st cell ∧
  (cell ∉ moves_made st) ∧
  (0 ≤ count ∧ count ≤ 8) ∧
  (Z.of_nat (size (neighbors ∩ mines st)) ≤ count) ∧
  (count ≤ Z.of_nat (size (neighbors ∩ mines st))
           + Z.of_nat (size (neighbors ∖ safes st ∖ mines st))).

#[global] Instance precondition_dec st cell count : Decision (precondition st cell count).
Proof. unfold precondition, in_bounds. apply _. Defined.

#[global] Instance not_known_mine_dec st cell count : Decision (not_known_mine st cell count).
Proof. unfold not_known_mine. apply _. Defined.

#[global] Instance any_call_dec st cell count : Decision (any_call st cell count).
Proof. unfold any_call. apply _. Defined.

(** An observation produced by a board: the cell carries no mine and the
    count is the board's neighbour count. *)
Definition truthful (g : Minesweeper.t) (st : t) (cell : Cell) (count : Z) : Prop :=
  Minesweeper.height g = height st ∧ Minesweeper.width g = width st ∧
  in_bounds st cell ∧
  (cell ∉ moves_made st) ∧
  (cell ∉ Minesweeper.mines g) ∧
  count = Minesweeper.nearby_mines g cell.

#[global] Instance truthful_dec g st cell count : Decision (truthful g st cell count).
Proof. unfold truthful, in_bounds. apply _. Defined.

(** Nothing is left to extract: what each sentence yields is classified. *)
Definition quiescent (st : t) : Prop :=
  Forall (fun s => Sentence.known_mines s ⊆ mines st ∧
                   Sentence.known_safes s ⊆ safes st)
         (knowledge st).

(** ** Two small games

    A 1 x 2 grid on which the second call observes the cell that the first
    call has classified as a mine, and a 2 x 2 board with its single mine at
    [(0, 1)], observed at [(0, 0)] and then at [(1, 0)]. *)

Definition overlap_calls : list (Cell * Z) := [((0, 0), 1); ((0, 1), 0)].

Definition overlap_end : t :=
  mk 1 2 {[(0, 0); (0, 1)]} {[(0, 1)]} {[(0, 0); (0, 1)]} [].

Definition corner_board : Minesweeper.t := Minesweeper.mk 2 2 {[(0, 1)]}.

Definition corner_calls : list (Cell * Z) := [((0, 0), 1); ((1, 0), 1)].

Definition twin : Sentence.t := Sentence.mk {[(0, 1); (1, 1)]} 1.

Definition hollow : Sentence.t := Sentence.mk ∅ 0.

(** The engine when the second call of [corner_calls] enters
    [update_knowledge], and when it returns. *)
Definition corner_entry : t :=
  mk 2 2 {[(0, 0); (1, 0)]} ∅ {[(0, 0); (1, 0)]} [twin; twin].

Definition corner_end : t :=
  mk 2 2 {[(0, 0); (1, 0)]} ∅ {[(0, 0); (1, 0)]} [twin; twin; hollow].

(** ** A long corridor

    A board of one row and [2 * M + 1] columns with a mine on every column
    [4 * i + 2].  The cells of the odd columns are observed from the right
    end to the left, each with count 1, which leaves one sentence per
    observation; the cell [(0, 0)] is observed last, with count 0. *)

Definition even_cell (m : nat) : Cell := (0, 2 * Z.of_nat m).

Definition odd_cell (m : nat) : Cell := (0, 2 * Z.of_nat m + 1).

(** The sentence left by the observation of [odd_cell m]. *)
Definition link (m : nat) : Sentence.t :=
  Sentence.mk {[even_cell m; even_cell (S m)]} 1.

(** [link (hi - 1)], ..., [link lo], in the order of their observations. *)
Definition links (lo hi : nat) : list Sentence.t :=
  link <$> reverse (seq lo (hi - lo)).

Definition odds (lo hi : nat) : gset Cell :=
  list_to_set (odd_cell <$> reverse (seq lo (hi - lo))).

Definition corridor_board (M : nat) : Minesweeper.t :=
  Minesweeper.mk 1 (2 * Z.of_nat M + 1)
    (list_to_set (even_cell <$> filter (fun m => Nat.odd m) (seq 0 (S M)))).

Definition corridor_calls (lo hi : nat) : list (Cell * Z) :=
  (fun m => (odd_cell m, 1)) <$> reverse (seq lo (hi - lo)).

(** The engine after the observations of the odd columns down to [lo]. *)
Definition building (M lo : nat) : t :=
  mk 1 (2 * Z.of_nat M + 1) (odds lo M) ∅ (odds lo M) (links lo M).

(** The classification sets [r] rounds after the observation of [(0, 0)]. *)
Fixpoint cascade_safes (M r : nat) : gset Cell :=
  match r with
  | O => odds 0 M
  | S r' => {[even_cell (2 * r')]} ∪ cascade_safes M r'
  end.

Fixpoint cascade_mines (r : nat) : gset Cell :=
  match r with
  | O => ∅
  | S r' => {[even_cell (S (2 * r'))]} ∪ cascade_mines r'
  end.

(** The engine when the observation of [(0, 0)] enters [update_knowledge],
    and [r] rounds later. *)
Definition triggered (M : nat) : t :=
  mk 1 (2 * Z.of_nat M + 1) ({[even_cell 0]} ∪ odds 0 M) ∅ ({[even_cell 0]} ∪ odds 0 M)
     (links 1 M ++ [Sentence.mk {[even_cell 1]} 1]).

Definition cascade (M r : nat) : t :=
  mk 1 (2 * Z.of_nat M + 1) ({[even_cell 0]} ∪ odds 0 M)
     (cascade_mines r) (cascade_safes M r)
     (links (2 * r) M
      ++ [Sentence.mk {[even_cell (2 * r)]} 0; Sentence.mk {[even_cell (S (2 * r))]} 1]).

(** The classification sets of [st'] extend those of [st]. *)
Definition grows (st st' : t) : Prop :=
  moves_made st ⊆ moves_made st' ∧ safes st ⊆ safes st' ∧ mines st ⊆ mines st'.

(** No classified cell occurs in a sentence. *)
Definition projected (st : t) : Prop :=
  Forall (fun s => Sentence.cells s ## safes st ∧ Sentence.cells s ## mines st)
         (knowledge st).

(** [clear_of X Y s]: the sentence mentions no cell of [X] or [Y]. *)
Definition clear_of (X Y : gset Cell) (s : Sentence.t) : Prop :=
  Sentence.cells s ## X ∧ Sentence.cells s ## Y.

(** The invariant carried through the loops: sentences mention unclassified
    cells only, and the two classification sets do not meet. *)
Definition consistent (st : t) : Prop := projected st ∧ safes st ## mines st.

(** A loop body is quiet when leaving [changes_made] false means having
    done nothing. *)
Definition quiet {S C : Type} (f : S * bool → C → S * bool) : Prop :=
  ∀ a c, (f a c).2 = false → f a c = a.

(** A well-formed observation in the strongest sense: it meets the
    preconditions of the specification and it is what the board [g] answers. *)
Definition played_on (g : Minesweeper.t) (st : t) (cell : Cell) (count : Z) : Prop :=
  precondition st cell count ∧ truthful g st cell count.

#[global] Instance played_on_dec g st cell count : Decision (played_on g st cell count).
Proof. unfold played_on. apply _. Defined.

(** The corridor of the counterexamples, and its calls. *)
Definition long : nat := 401.

Definition long_board : Minesweeper.t := corridor_board long.

Definition long_calls : list (Cell * Z) := corridor_calls 0 long ++ [(even_cell 0, 0)].

(** The engine after the first call of [corner_calls]. *)
Definition corner_first : t :=
  mk 2 2 {[(0, 0)]} ∅ {[(0, 0)]} [Sentence.mk {[(0, 1); (1, 0); (1, 1)]} 1].

(** [changing fuel n st st']: [n] rounds in a row, each of which reports a
    change, lead from [st] to [st']. *)
Inductive changing (fuel : nat) : nat → t → t → Prop :=
| changing_none st : changing fuel 0 st st
| changing_round n st st1 st' :
    update_round fuel st = Some (st1, true) →
    changing fuel n st1 st' →
    changing fuel (S n) st st'.

(** The sentence says the truth about the mines [M]. *)
Definition true_on (M : gset Cell) (s : Sentence.t) : Prop :=
  Sentence.count s = Z.of_nat (size (Sentence.cells s ∩ M)).

(** The engine is right about the mines [M]: its sentences are true, its
    known mines are mines and its safe cells are not. *)
Definition sound (M : gset Cell) (st : t) : Prop :=
  Forall (true_on M) (knowledge st) ∧ mines st ⊆ M ∧ safes st ## M.

(** ** A call that never returns

    After the two observations of the corner game the engine holds [twin]
    twice.  Observing [(0, 0)] once more, with the count 3, adds a third
    sentence on the same two cells.  The vocabulary below describes the list
    of the subset-elimination pass from then on. *)

(** The engine when the third call enters [update_knowledge]. *)
Definition conflict_entry : t :=
  mk 2 2 {[(0, 0); (1, 0)]} ∅ {[(0, 0); (1, 0)]}
     [twin; twin; hollow; Sentence.mk {[(0, 1); (1, 1)]} 3].

(** [k] iterations of the outer loop of the subset-elimination pass from
    index [i] on. *)
Fixpoint infer_steps (k : nat) (i : nat) (acc : list Sentence.t * bool)
    : list Sentence.t * bool :=
  match k with
  | O => acc
  | S k' =>
      match acc.1 !! i with
      | None => acc
      | Some s1 => infer_steps k' (S i) (foldl (infer_pair s1) acc (drop (S i) acc.1))
      end
  end.

(** The sentence at position [j] has no cell, and count [v]. *)
Definition hollow_at (K : list Sentence.t) (j : nat) (v : Z) : Prop :=
  K !! j = Some (Sentence.mk ∅ v).

(** With [σ = 1], [v] is below the count of every sentence without cells;
    with [σ = -1], above. *)
Definition extreme (σ : Z) (K : list Sentence.t) (v : Z) : Prop :=
  Forall (fun s => Sentence.cells s = ∅ → σ * v ≤ σ * Sentence.count s) K.

(** Ahead of position [i] there is a sentence without cells whose count has
    the sign of [σ], and further on one whose count is extreme. *)
Definition pending (σ : Z) (i : nat) (K : list Sentence.t) : Prop :=
  ∃ p a j v, (i ≤ p < j)%nat ∧ hollow_at K p a ∧ 0 < σ * a ∧
             hollow_at K j v ∧ extreme σ K v.

(** Both halves at once: from such a list on, every iteration of the outer
    loop appends a sentence without cells whose count is a new extreme. *)
Definition restless (i : nat) (K : list Sentence.t) : Prop :=
  pending 1 i K ∧ pending (-1) i K.

(** The list on which the pass of that call starts. *)
Definition conflict_seed : list Sentence.t :=
  [twin; twin; Sentence.mk {[(0, 1); (1, 1)]} 3].

(** ** Vocabulary of the further properties *)

(** The matrix has the announced size and is [True] exactly on the cells of
    [mines], which are cells of the grid. *)
Definition matrix_ok (g : Game.t) : Prop :=
  length (Game.board g) = Z.to_nat (Game.height g) ∧
  Forall (fun row => length row = Z.to_nat (Game.width g)) (Game.board g) ∧
  (∀ c, c ∈ Game.mines g →
        (0 ≤ c.1 ∧ c.1 < Game.height g) ∧ (0 ≤ c.2 ∧ c.2 < Game.width g)) ∧
  (∀ (i j : nat) row, Game.board g !! i = Some row →
        row !! j = Some true ↔ (Z.of_nat i, Z.of_nat j) ∈ Game.mines g).

(** An observation as a driver obtains it from the object: the cell is a
    new cell of the grid, [is_mine] answers [False] for it and the count
    is the answer of [nearby_mines]. *)
Definition asked (g : Game.t) (st : t) (cell : Cell) (count : Z) : Prop :=
  Game.height g = height st ∧ Game.width g = width st ∧
  in_bounds st cell ∧ (cell ∉ moves_made st) ∧
  Game.is_mine g cell = Some false ∧ Game.nearby_mines g cell = Some count.

#[global] Instance asked_dec g st cell count : Decision (asked g st cell count).
Proof. unfold asked, in_bounds. apply _. Defined.

(** [st'] has the grid and the moves of [st]. *)
Definition same_frame (st st' : t) : Prop :=
  height st' = height st ∧ width st' = width st ∧ moves_made st' = moves_made st.

(** [extends acc acc']: the list of [acc'] is the list of [acc] followed by
    sentences that are new to it and pairwise different, and the flag of
    [acc'] is raised when there is such a sentence. *)
Definition extends (acc acc' : list Sentence.t * bool) : Prop :=
  ∃ N, acc'.1 = acc.1 ++ N ∧ NoDup N ∧ (∀ s, s ∈ N → s ∉ acc.1) ∧
       acc'.2 = acc.2 || bool_decide (N ≠ []).

(** Everything the engine talks about lies in [U]. *)
Definition inside (U : gset Cell) (st : t) : Prop :=
  safes st ⊆ U ∧ mines st ⊆ U ∧
  Forall (fun s => Sentence.cells s ⊆ U) (knowledge st).

(** The observed cell is a cell of the grid. *)
Definition on_grid (st : t) (cell : Cell) (count : Z) : Prop := in_bounds st cell.

#[global] Instance on_grid_dec st cell count : Decision (on_grid st cell count).
Proof. unfold on_grid, in_bounds. apply _. Defined.

(** The cell sets of the sentences of a list. *)
Definition cell_sets (K : list Sentence.t) : gset (gset Cell) :=
  list_to_set (Sentence.cells <$> K).

(** The cells that the sentences of a list mention. *)
Definition mentioned (K : list Sentence.t) : gset Cell :=
  ⋃ (Sentence.cells <$> K).

(** The list after some steps of the pass: still true of [M], still within
    [U], and every sentence added has brought a cell set that was not there. *)
Definition advance (M U : gset Cell) (K K' : list Sentence.t) : Prop :=
  Forall (true_on M) K' ∧ Forall (fun s => Sentence.cells s ⊆ U) K' ∧
  (length K' + size (cell_sets K) ≤ length K + size (cell_sets K'))%nat.

(** The engine is right about [M], and the sentence at position [j] is what
    is left of a sentence on the cells [X]: the cells it has lost are
    classified. *)
Definition tracks (M X : gset Cell) (j : nat) (st : t) : Prop :=
  sound M st ∧
  ∃ s, knowledge st !! j = Some s ∧ Sentence.cells s ⊆ X ∧
       X ⊆ Sentence.cells s ∪ safes st ∪ mines st.

(** A board of one row and three columns with its mine at the right end,
    and the engine after the observation of the left end. *)
Definition strip_board : Minesweeper.t := Minesweeper.mk 1 3 {[(0, 2)]}.

Definition strip_end : t := mk 1 3 {[(0, 0)]} ∅ {[(0, 0); (0, 1)]} [].

(** The object that the constructor builds for the corner game when its
    draws fall on [(0, 1)]. *)
Definition corner_game : Game.t :=
  Game.mk 2 2 {[(0, 1)]} [[false; true]; [false; false]] ∅.

(** The text of row [i]: two characters for each cell, and a closing bar. *)
Definition row_text (g : Game.t) (i : Z) : list ascii :=
  concat ((fun j => if bool_decide ((i, j) ∈ Game.mines g)
                    then ["|"; "X"]%char else ["|"; " "]%char)
          <$> seqZ 0 (Game.width g))
  ++ ["|"%char].

(** * Generic facts about the loops *)

Section Folds.
Context {A B : Type}.

Lemma foldl_invariant (P : A → Prop) (f : A → B → A) (l : list B) (a : A) :
  P a → (∀ a b, b ∈ l → P a → P (f a b)) → P (foldl f a l).
Proof.
  revert a. induction l as [|b l IH]; intros a Ha Hstep; simpl; [done|].
  apply IH.
  - apply Hstep; [left | done].
  - intros a' b' Hb'. apply Hstep. by right.
Qed.

Lemma foldl_id (f : A → B → A) (l : list B) (a : A) :
  (∀ b, b ∈ l → f a b = a) → foldl f a l = a.
Proof.
  induction l as [|b l IH]; intros Hstep; simpl; [done|].
  rewrite Hstep; [|left]. apply IH. intros b' Hb'. apply Hstep. by right.
Qed.
End Folds.

(** * Monotonicity of the classification sets *)

Section Monotone.

#[local] Instance grows_refl : Reflexive grows.
Proof. by intros st. Qed.

#[local] Instance grows_trans : Transitive grows.
Proof. intros a b c (?&?&?) (?&?&?). repeat split; set_solver. Qed.

Lemma mark_mine_grows c st : grows st (mark_mine c st).
Proof. repeat split; simpl; set_solver. Qed.

Lemma mark_safe_grows c st : grows st (mark_safe c st).
Proof. repeat split; simpl; set_solver. Qed.

Lemma set_knowledge_grows K st : grows st (set_knowledge K st).
Proof. by repeat split. Qed.

Lemma note_mine_grows acc c : grows acc.1 (note_mine acc c).1.
Proof. unfold note_mine. case_decide; [done|apply mark_mine_grows]. Qed.

Lemma note_safe_grows acc c : grows acc.1 (note_safe acc c).1.
Proof. unfold note_safe. case_decide; [done|apply mark_safe_grows]. Qed.

Lemma foldl_grows (f : t * bool → Cell → t * bool) l acc :
  (∀ a c, grows a.1 (f a c).1) → grows acc.1 (foldl f acc l).1.
Proof.
  intros Hf. apply (foldl_invariant (fun a => grows acc.1 a.1)); [done|].
  intros a c _ Ha. etrans; [exact Ha|apply Hf].
Qed.

Lemma extract_at_grows acc k : grows acc.1 (extract_at acc k).1.
Proof.
  unfold extract_at. destruct (knowledge acc.1 !! k); [|done].
  etrans; apply foldl_grows; auto using note_mine_grows, note_safe_grows.
Qed.

Lemma extract_step_grows st : grows st (extract_step st).1.
Proof.
  unfold extract_step.
  apply (foldl_invariant (fun a => grows st a.1)); [done|].
  intros a k _ Ha. etrans; [exact Ha|apply extract_at_grows].
Qed.

Lemma cross_check_grows acc c : grows acc.1 (cross_check acc c).1.
Proof.
  unfold cross_check.
  destruct (all_full _ _); [apply note_mine_grows|].
  destruct (all_zero _ _); [apply note_safe_grows|done].
Qed.

Lemma update_round_grows fuel st st' ch :
  update_round fuel st = Some (st', ch) → grows st st'.
Proof.
  unfold update_round. intros Hr.
  pose proof (extract_step_grows st) as H1.
  destruct (extract_step st) as [st1 ch1]; simpl in *.
  destruct (infer_outer _ _ _) as [[K3 ch3]|]; [|done].
  etrans; [exact H1|].
  pose proof (foldl_grows cross_check (elements (common_cells K3))
    (set_knowledge K3 (set_knowledge (drop_empty (knowledge st1)) st1), ch3)
    cross_check_grows) as H4.
  simplify_eq. rewrite Hr in H4. exact H4.
Qed.

Lemma iterate_grows fuel n st st' ch :
  iterate fuel n st = Some (st', ch) → grows st st'.
Proof.
  revert st. induction n as [|n IH]; intros st; simpl.
  - by intros [= -> _].
  - destruct (update_round fuel st) as [[st1 ch1]|] eqn:Hr; [|done].
    apply update_round_grows in Hr.
    destruct ch1.
    + intros Hi. etrans; [exact Hr|by apply IH].
    + by intros [= <- _].
Qed.

Lemma update_knowledge_grows fuel st st' :
  update_knowledge fuel st = Some st' → grows st st'.
Proof.
  unfold update_knowledge.
  destruct (iterate _ _ _) as [[st1 ch]|] eqn:Hi; [|done].
  intros [= <-]. by eapply iterate_grows.
Qed.

Lemma record_observation_grows c n st : grows st (record_observation c n st).
Proof.
  unfold record_observation. case_decide; repeat split; simpl; set_solver.
Qed.

Lemma add_knowledge_grows fuel c n st st' :
  add_knowledge fuel c n st = Some st' → grows st st'.
Proof.
  intros H. etrans; [apply record_observation_grows|].
  by eapply update_knowledge_grows.
Qed.

Lemma session_grows pre st0 obs st :
  session pre st0 obs st → grows st0 st.
Proof.
  induction 1 as [|obs st c n st' _ IH _ [fuel Hcall]]; [done|].
  etrans; [exact IH|by eapply add_knowledge_grows].
Qed.

End Monotone.

(** * Facts about single sentences *)

Section SentenceFacts.

Lemma mark_mine_cells c s :
  Sentence.cells (Sentence.mark_mine c s) = Sentence.cells s ∖ {[c]}.
Proof. unfold Sentence.mark_mine. destruct (decide _); simpl; set_solver. Qed.

Lemma mark_safe_cells c s :
  Sentence.cells (Sentence.mark_safe c s) = Sentence.cells s ∖ {[c]}.
Proof. unfold Sentence.mark_safe. destruct (decide _); simpl; set_solver. Qed.

Lemma mark_mine_count c s :
  Sentence.count (Sentence.mark_mine c s)
  = if decide (c ∈ Sentence.cells s) then Sentence.count s - 1 else Sentence.count s.
Proof. unfold Sentence.mark_mine. by case_decide. Qed.

Lemma mark_safe_count c s :
  Sentence.count (Sentence.mark_safe c s) = Sentence.count s.
Proof. unfold Sentence.mark_safe. by case_decide. Qed.

Lemma known_mines_subseteq s : Sentence.known_mines s ⊆ Sentence.cells s.
Proof. unfold Sentence.known_mines. case_decide; set_solver. Qed.

Lemma known_safes_subseteq s : Sentence.known_safes s ⊆ Sentence.cells s.
Proof. unfold Sentence.known_safes. case_decide; set_solver. Qed.

(** The two extractions never fire together. *)
Lemma known_safes_known_mines s :
  Sentence.known_safes s ≠ ∅ → Sentence.known_mines s = ∅.
Proof.
  unfold Sentence.known_safes, Sentence.known_mines.
  repeat case_decide; try done. lia.
Qed.

Lemma infer_cells s1 s2 s :
  infer_from_sentences s1 s2 = Some s →
  Sentence.cells s ⊆ Sentence.cells s1 ∪ Sentence.cells s2.
Proof.
  unfold infer_from_sentences.
  repeat destruct (decide _); intros; simplify_eq; simpl; set_solver.
Qed.

Lemma foldl_intersection_subseteq (X : gset Cell) K :
  foldl (fun acc s' => acc ∩ Sentence.cells s') X K ⊆ X ∧
  ∀ s', s' ∈ K →
    foldl (fun acc s' => acc ∩ Sentence.cells s') X K ⊆ Sentence.cells s'.
Proof.
  revert X. induction K as [|s1 K IH]; intros X; simpl.
  - split; [done|]. by intros ? ?%elem_of_nil.
  - destruct (IH (X ∩ Sentence.cells s1)) as [IH1 IH2]. split; [set_solver|].
    intros s' [->|Hs']%elem_of_cons; [set_solver|by apply IH2].
Qed.

Lemma common_cells_subseteq K s :
  s ∈ K → common_cells K ⊆ Sentence.cells s.
Proof.
  destruct K as [|s0 K]; simpl; [by intros ?%elem_of_nil|].
  destruct (foldl_intersection_subseteq (Sentence.cells s0) K) as [H1 H2].
  intros [->|Hs]%elem_of_cons; [done|by apply H2].
Qed.

End SentenceFacts.

(** * Classified cells are projected out of every sentence *)

Section Projected.

Lemma projected_alt st :
  projected st ↔ Forall (clear_of (safes st) (mines st)) (knowledge st).
Proof. done. Qed.

Lemma mark_mine_projected c st : projected st → projected (mark_mine c st).
Proof.
  unfold projected; simpl. rewrite Forall_map. intros H.
  eapply Forall_impl; [exact H|].
  intros s [H1 H2]; simpl. rewrite mark_mine_cells. set_solver.
Qed.

Lemma mark_safe_projected c st : projected st → projected (mark_safe c st).
Proof.
  unfold projected; simpl. rewrite Forall_map. intros H.
  eapply Forall_impl; [exact H|].
  intros s [H1 H2]; simpl. rewrite mark_safe_cells. set_solver.
Qed.

Lemma note_mine_projected acc c : projected acc.1 → projected (note_mine acc c).1.
Proof. unfold note_mine. destruct (decide _); [done|apply mark_mine_projected]. Qed.

Lemma note_safe_projected acc c : projected acc.1 → projected (note_safe acc c).1.
Proof. unfold note_safe. destruct (decide _); [done|apply mark_safe_projected]. Qed.

Lemma extract_at_projected acc k : projected acc.1 → projected (extract_at acc k).1.
Proof.
  unfold extract_at. destruct (knowledge acc.1 !! k); [|done]. intros H.
  apply (foldl_invariant (fun a => projected a.1));
    [|auto using note_safe_projected].
  apply (foldl_invariant (fun a => projected a.1));
    auto using note_mine_projected.
Qed.

Lemma extract_step_projected st : projected st → projected (extract_step st).1.
Proof.
  intros H. apply (foldl_invariant (fun a => projected a.1));
    auto using extract_at_projected.
Qed.

Lemma cross_check_projected acc c : projected acc.1 → projected (cross_check acc c).1.
Proof.
  unfold cross_check.
  destruct (all_full _ _); [apply note_mine_projected|].
  destruct (all_zero _ _); [apply note_safe_projected|done].
Qed.

Lemma infer_clear X Y s1 s2 s :
  infer_from_sentences s1 s2 = Some s →
  clear_of X Y s1 → clear_of X Y s2 → clear_of X Y s.
Proof.
  intros Hs%infer_cells [? ?] [? ?]. split; set_solver.
Qed.

Lemma infer_pair_clear X Y s1 acc s2 :
  clear_of X Y s1 → clear_of X Y s2 →
  Forall (clear_of X Y) acc.1 → Forall (clear_of X Y) (infer_pair s1 acc s2).1.
Proof.
  intros H1 H2 Hacc. unfold infer_pair.
  destruct (infer_from_sentences s1 s2) as [s|] eqn:Hs; [|done].
  destruct (decide _); [done|]. simpl.
  apply Forall_app; split; [done|].
  apply Forall_singleton. by eapply infer_clear.
Qed.

Lemma infer_outer_clear X Y fuel i acc res :
  infer_outer fuel i acc = Some res →
  Forall (clear_of X Y) acc.1 → Forall (clear_of X Y) res.1.
Proof.
  revert i acc. induction fuel as [|fuel IH]; intros i acc; simpl.
  - destruct (acc.1 !! i); [done|]. by intros [= <-].
  - destruct (acc.1 !! i) as [s1|] eqn:Hi; [|by intros [= <-]].
    intros Hres Hacc. apply IH in Hres; [done|].
    assert (clear_of X Y s1) as Hs1.
    { eapply Forall_lookup_1; [exact Hacc|exact Hi]. }
    apply (foldl_invariant (fun a => Forall (clear_of X Y) a.1)); [done|].
    intros a s2 Hs2 Ha. apply infer_pair_clear; [done| |done].
    apply list_elem_of_lookup in Hs2 as [j Hj].
    rewrite lookup_drop in Hj. eapply Forall_lookup_1; [exact Hacc|exact Hj].
Qed.

Lemma drop_empty_Forall (P : Sentence.t → Prop) K :
  Forall P K → Forall P (drop_empty K).
Proof.
  rewrite !Forall_forall. intros H s [_ Hs]%list_elem_of_filter. auto.
Qed.

Lemma update_round_projected fuel st st' ch :
  update_round fuel st = Some (st', ch) → projected st → projected st'.
Proof.
  unfold update_round. intros Hr Hst.
  pose proof (extract_step_projected st Hst) as H1.
  destruct (extract_step st) as [st1 ch1]; simpl in *.
  destruct (infer_outer _ _ _) as [[K3 ch3]|] eqn:Hinf; [|done].
  assert (projected (set_knowledge K3 (set_knowledge (drop_empty (knowledge st1)) st1)))
    as H3.
  { unfold projected; simpl.
    apply (infer_outer_clear (safes st1) (mines st1)) in Hinf; [done|]. simpl.
    by apply drop_empty_Forall. }
  simplify_eq.
  pose proof (foldl_invariant (fun a => projected a.1) cross_check
    (elements (common_cells K3))
    (set_knowledge K3 (set_knowledge (drop_empty (knowledge st1)) st1), ch3) H3)
    as H4.
  rewrite Hr in H4. apply H4. auto using cross_check_projected.
Qed.

Lemma iterate_projected fuel n st st' ch :
  iterate fuel n st = Some (st', ch) → projected st → projected st'.
Proof.
  revert st. induction n as [|n IH]; intros st; simpl.
  - by intros [= -> _].
  - destruct (update_round fuel st) as [[st1 ch1]|] eqn:Hr; [|done].
    intros Hi Hst. eapply update_round_projected in Hr; [|done].
    destruct ch1; [by eapply IH|]. by simplify_eq.
Qed.


Lemma record_observation_projected c n st :
  projected st → projected (record_observation c n st).
Proof.
  intros Hst. unfold record_observation.
  set (st1 := mk _ _ ({[c]} ∪ moves_made st) _ _ _).
  assert (projected (mark_safe c st1)) as H2 by by apply mark_safe_projected.
  destruct (decide _); [|done].
  unfold projected in *; simpl in *.
  apply Forall_app; split; [done|].
  apply Forall_singleton. split; simpl; set_solver.
Qed.



Lemma init_projected h w : projected (init h w).
Proof. by apply Forall_nil. Qed.

End Projected.

(** * No cell is classified both ways *)

Section Disjoint.

Lemma mark_mine_consistent c st :
  consistent st → c ∉ safes st → consistent (mark_mine c st).
Proof.
  intros [Hp Hd] Hc. split; [by apply mark_mine_projected|]. simpl. set_solver.
Qed.

Lemma mark_safe_consistent c st :
  consistent st → c ∉ mines st → consistent (mark_safe c st).
Proof.
  intros [Hp Hd] Hc. split; [by apply mark_safe_projected|]. simpl. set_solver.
Qed.

Lemma note_mines_consistent l acc :
  consistent acc.1 → (∀ c, c ∈ l → c ∉ safes acc.1) →
  consistent (foldl note_mine acc l).1.
Proof.
  intros Hacc Hl.
  apply (foldl_invariant
           (fun a => consistent a.1 ∧ safes a.1 = safes acc.1)); [done|].
  intros a c Hc [Ha Heq]. unfold note_mine. destruct (decide _); [done|].
  split; [|done]. apply mark_mine_consistent; [done|]. rewrite Heq. auto.
Qed.

Lemma note_safes_consistent l acc :
  consistent acc.1 → (∀ c, c ∈ l → c ∉ mines acc.1) →
  consistent (foldl note_safe acc l).1.
Proof.
  intros Hacc Hl.
  apply (foldl_invariant
           (fun a => consistent a.1 ∧ mines a.1 = mines acc.1)); [done|].
  intros a c Hc [Ha Heq]. unfold note_safe. destruct (decide _); [done|].
  split; [|done]. apply mark_safe_consistent; [done|]. rewrite Heq. auto.
Qed.

Lemma extract_at_consistent acc k : consistent acc.1 → consistent (extract_at acc k).1.
Proof.
  unfold extract_at. destruct (knowledge acc.1 !! k) as [s|] eqn:Hk; [|done].
  intros Hacc.
  assert (clear_of (safes acc.1) (mines acc.1) s) as [Hs Hm].
  { destruct Hacc as [Hp _]. eapply Forall_lookup_1; [exact Hp|exact Hk]. }
  destruct (decide (Sentence.known_safes s = ∅)) as [He|Hne].
  - rewrite He, elements_empty. simpl.
    apply note_mines_consistent; [done|].
    intros c Hc%elem_of_elements. pose proof (known_mines_subseteq s). set_solver.
  - rewrite (known_safes_known_mines s Hne), elements_empty. simpl.
    apply note_safes_consistent; [done|].
    intros c Hc%elem_of_elements. pose proof (known_safes_subseteq s). set_solver.
Qed.

Lemma extract_step_consistent st : consistent st → consistent (extract_step st).1.
Proof.
  intros H. apply (foldl_invariant (fun a => consistent a.1));
    auto using extract_at_consistent.
Qed.

(** The cells of the cross check are walked one by one; a cell still to
    come is left unclassified by the marks of the earlier ones. *)
Lemma cross_checks_consistent l acc :
  NoDup l → consistent acc.1 →
  (∀ c, c ∈ l → (c ∉ safes acc.1) ∧ (c ∉ mines acc.1)) →
  consistent (foldl cross_check acc l).1.
Proof.
  intros Hnd. revert acc.
  induction Hnd as [|c l Hc Hnd IH]; intros acc Hacc Hl; simpl; [done|].
  destruct (Hl c) as [Hcs Hcm]; [left|].
  assert (∀ c', c' ∈ l → c' ≠ c) as Hne by (intros c' Hc' ->; done).
  unfold cross_check at 2.
  destruct (all_full _ _); [|destruct (all_zero _ _)].
  - unfold note_mine. destruct (decide _); [done|].
    apply IH; simpl; [by apply mark_mine_consistent|].
    intros c' Hc'. destruct (Hl c') as [? ?]; [by right|].
    specialize (Hne c' Hc'). set_solver.
  - unfold note_safe. destruct (decide _); [done|].
    apply IH; simpl; [by apply mark_safe_consistent|].
    intros c' Hc'. destruct (Hl c') as [? ?]; [by right|].
    specialize (Hne c' Hc'). set_solver.
  - apply IH; [done|]. intros c' Hc'. apply Hl. by right.
Qed.

Lemma update_round_consistent fuel st st' ch :
  update_round fuel st = Some (st', ch) → consistent st → consistent st'.
Proof.
  unfold update_round. intros Hr Hst.
  pose proof (extract_step_consistent st Hst) as [H1 H1'].
  destruct (extract_step st) as [st1 ch1]; simpl in *.
  destruct (infer_outer _ _ _) as [[K3 ch3]|] eqn:Hinf; [|done].
  set (st3 := set_knowledge K3 (set_knowledge (drop_empty (knowledge st1)) st1)) in *.
  assert (consistent st3) as H3.
  { split; [|done]. unfold projected; simpl.
    apply (infer_outer_clear (safes st1) (mines st1)) in Hinf; [done|]. simpl.
    by apply drop_empty_Forall. }
  simplify_eq.
  pose proof (cross_checks_consistent (elements (common_cells K3)) (st3, ch3)
                (NoDup_elements _) H3) as H4.
  rewrite Hr in H4. apply H4.
  intros c Hc%elem_of_elements. simpl.
  destruct K3 as [|s0 K3]; [by apply elem_of_empty in Hc|].
  pose proof (common_cells_subseteq (s0 :: K3) s0 (list_elem_of_here _ _)) as Hsub.
  destruct H3 as [Hp _]. apply Forall_cons in Hp as [[? ?] _]. simpl in *.
  set_solver.
Qed.

Lemma iterate_consistent fuel n st st' ch :
  iterate fuel n st = Some (st', ch) → consistent st → consistent st'.
Proof.
  revert st. induction n as [|n IH]; intros st; simpl.
  - by intros [= -> _].
  - destruct (update_round fuel st) as [[st1 ch1]|] eqn:Hr; [|done].
    intros Hi Hst. eapply update_round_consistent in Hr; [|done].
    destruct ch1; [by eapply IH|]. by simplify_eq.
Qed.

Lemma update_knowledge_consistent fuel st st' :
  update_knowledge fuel st = Some st' → consistent st → consistent st'.
Proof.
  unfold update_knowledge.
  destruct (iterate _ _ _) as [[st1 ch]|] eqn:Hi; [|done].
  intros [= <-]. by eapply iterate_consistent.
Qed.

Lemma record_observation_consistent c n st :
  consistent st → c ∉ mines st → consistent (record_observation c n st).
Proof.
  intros [Hp Hd] Hc. split; [by apply record_observation_projected|].
  unfold record_observation. destruct (decide _); simpl; set_solver.
Qed.

Lemma add_knowledge_consistent fuel c n st st' :
  add_knowledge fuel c n st = Some st' →
  consistent st → c ∉ mines st → consistent st'.
Proof.
  intros H Hst Hc. eapply update_knowledge_consistent; [exact H|].
  by apply record_observation_consistent.
Qed.

End Disjoint.

(** * Sessions *)

Section Sessions.

Lemma session_weaken (pre pre' : t → Cell → Z → Prop) st0 obs st :
  (∀ st c n, pre st c n → pre' st c n) →
  session pre st0 obs st → session pre' st0 obs st.
Proof. intros Hpre. induction 1; econstructor; eauto. Qed.

Lemma session_cons pre st0 c n st1 obs st :
  pre st0 c n → observe st0 c n st1 →
  session pre st1 obs st → session pre st0 ((c, n) :: obs) st.
Proof.
  intros Hpre Hobs. induction 1 as [|obs st c' n' st' _ IH Hpre' Hobs'].
  - apply (session_call pre st0 [] st0 c n st1); [constructor|done..].
  - apply (session_call pre st0 ((c, n) :: obs) st c' n' st'); done.
Qed.

Lemma replay_session (pre : t → Cell → Z → Prop) `{!∀ st c n, Decision (pre st c n)}
    fuel obs st0 st :
  replay fuel (fun st c n => bool_decide (pre st c n)) obs st0 = Some st →
  session pre st0 obs st.
Proof.
  revert st0. induction obs as [|[c n] obs IH]; intros st0; simpl.
  - intros [= <-]. constructor.
  - destruct (bool_decide (pre st0 c n)) eqn:Hpre; [|done].
    apply bool_decide_eq_true_1 in Hpre.
    destruct (add_knowledge fuel c n st0) as [st1|] eqn:Hcall; [|done].
    intros Hrest. eapply session_cons; [done|by exists fuel|by apply IH].
Qed.

End Sessions.

(** * Subset elimination *)

(** C3.  For sentences [A] and [B] with the cells of [A] among the cells of
    [B], [infer_from_sentences] derives the sentence whose cells are those of
    [B] without those of [A] and whose count is the count of [B] minus the
    count of [A]: when called as [(A, B)], and also when called as [(B, A)]
    unless the two cell sets are equal (the call [(B, A)] then takes its
    first branch, which gives the same empty cell set and the count of [A]
    minus the count of [B]).  When neither cell set is included in the other
    nothing is derived, in either order. *)
Theorem subset_elimination (A B : Sentence.t) :
  (Sentence.cells A ⊆ Sentence.cells B →
     infer_from_sentences A B
     = Some (Sentence.mk (Sentence.cells B ∖ Sentence.cells A)
                         (Sentence.count B - Sentence.count A)) ∧
     (Sentence.cells B ⊈ Sentence.cells A →
      infer_from_sentences B A
      = Some (Sentence.mk (Sentence.cells B ∖ Sentence.cells A)
                          (Sentence.count B - Sentence.count A)))) ∧
  (Sentence.cells A ⊈ Sentence.cells B → Sentence.cells B ⊈ Sentence.cells A →
     infer_from_sentences A B = None ∧ infer_from_sentences B A = None).
Proof.
  unfold infer_from_sentences. split.
  - intros HAB. split.
    + by rewrite decide_True.
    + intros HBA. by rewrite decide_False, decide_True.
  - intros HAB HBA. by rewrite !decide_False.
Qed.

Lemma subset_elimination_witness :
  infer_from_sentences (Sentence.mk {[(0, 1)]} 1) (Sentence.mk {[(0, 1); (1, 0)]} 1)
  = Some (Sentence.mk ({[(0, 1); (1, 0)]} ∖ {[(0, 1)]}) (1 - 1)) ∧
  infer_from_sentences (Sentence.mk {[(0, 1); (1, 0)]} 1) (Sentence.mk {[(0, 1)]} 1)
  = Some (Sentence.mk ({[(0, 1); (1, 0)]} ∖ {[(0, 1)]}) (1 - 1)) ∧
  infer_from_sentences (Sentence.mk {[(0, 1)]} 1) (Sentence.mk {[(1, 0)]} 1) = None.
Proof.
  destruct (proj1 (subset_elimination (Sentence.mk {[(0, 1)]} 1)
                     (Sentence.mk {[(0, 1); (1, 0)]} 1))) as [H1 H2].
  { simpl. compute_done. }
  split; [exact H1|]. split.
  - apply H2. simpl. compute_done.
  - apply (proj2 (subset_elimination (Sentence.mk {[(0, 1)]} 1)
                    (Sentence.mk {[(1, 0)]} 1))); simpl; compute_done.
Defined.

(** * Move selection *)

Section Moves.

Lemma choice_elem_of r l c : choice r l = Some c → c ∈ l.
Proof. unfold choice. apply list_elem_of_lookup_2. Qed.

Lemma choice_is_Some r l : l ≠ [] → is_Some (choice r l).
Proof.
  intros Hl. unfold choice. apply lookup_lt_is_Some.
  apply Nat.mod_upper_bound. by destruct l.
Qed.

Lemma elem_of_all_moves st c : c ∈ all_moves st ↔ in_bounds st c.
Proof.
  unfold all_moves, in_bounds. rewrite elem_of_list_to_set, list_elem_of_bind.
  destruct c as [i j]; simpl. split.
  - intros (i' & (j' & Hc & Hj)%list_elem_of_bind & Hi).
    apply list_elem_of_singleton in Hc. simplify_eq.
    apply elem_of_seqZ in Hi, Hj. lia.
  - intros [Hi Hj]. exists i. split; [|apply elem_of_seqZ; lia].
    apply list_elem_of_bind. exists j. split; [by apply list_elem_of_singleton|].
    apply elem_of_seqZ; lia.
Qed.

End Moves.

(** C9.  [make_safe_move] answers [None] exactly when [safes - moves_made] is
    empty and otherwise answers a cell of that set; [make_random_move] does
    the same for the cells of the grid that are neither moves made nor known
    mines; both leave the engine as it was, whatever the random draw [r]. *)
Theorem move_selection (r : nat) (st : t) :
  ((make_safe_move r st).2 = st ∧
   ((make_safe_move r st).1 = None ↔ safes st ∖ moves_made st = ∅) ∧
   (∀ c, (make_safe_move r st).1 = Some c → c ∈ safes st ∖ moves_made st)) ∧
  ((make_random_move r st).2 = st ∧
   ((make_random_move r st).1 = None ↔ all_moves st ∖ moves_made st ∖ mines st = ∅) ∧
   (∀ c, (make_random_move r st).1 = Some c →
         c ∈ all_moves st ∖ moves_made st ∖ mines st)) ∧
  (∀ c, c ∈ all_moves st ↔ in_bounds st c).
Proof.
  split; [|split; [|apply elem_of_all_moves]].
  - unfold make_safe_move; simpl. split; [done|].
    destruct (decide (safes st ∖ moves_made st = ∅)) as [He|Hne].
    + split; [done|]. by intros c [=].
    + split.
      * split; [|done]. intros Hnone.
        destruct (choice_is_Some r (elements (safes st ∖ moves_made st))) as [c Hc].
        { intros He. apply elements_empty_inv in He. by apply leibniz_equiv in He. }
        congruence.
      * intros c Hc%choice_elem_of. by apply elem_of_elements in Hc.
  - unfold make_random_move; simpl. split; [done|].
    set (X := all_moves st ∖ moves_made st ∖ mines st).
    destruct (elements X) as [|c0 l] eqn:Hel.
    + split; [|by intros c [=]]. split; [|done]. intros _.
      apply leibniz_equiv. by apply elements_empty_inv.
    + split.
      * split.
        -- intros Hnone. destruct (choice_is_Some r (c0 :: l)) as [c Hc]; [done|].
           congruence.
        -- intros He. rewrite He, elements_empty in Hel. done.
      * intros c Hc%choice_elem_of. apply elem_of_elements. by rewrite Hel.
Qed.

(** * Properties of the classification sets *)

(** C6.  Every operation of the engine leaves [moves_made], [safes] and
    [mines] at least as large as they were: the marks, the derivation loop,
    an observation, and the two move selectors; hence so does every sequence
    of observations, and a cell of [safes] or of [mines] stays there through
    any later call. *)
Theorem classification_sets_grow :
  (∀ c st, grows st (mark_mine c st) ∧ grows st (mark_safe c st)) ∧
  (∀ r st, grows st (make_safe_move r st).2 ∧ grows st (make_random_move r st).2) ∧
  (∀ fuel st st', update_knowledge fuel st = Some st' → grows st st') ∧
  (∀ fuel c n st st', add_knowledge fuel c n st = Some st' →
     safes st ⊆ safes st' ∧ mines st ⊆ mines st') ∧
  (∀ pre st0 obs st1 obs' st2,
     session pre st0 obs st1 → session pre st1 obs' st2 →
     safes st1 ⊆ safes st2 ∧ mines st1 ⊆ mines st2).
Proof.
  split; [|split; [|split; [|split]]].
  - intros c st. split; [apply mark_mine_grows|apply mark_safe_grows].
  - intros r st. split; apply grows_refl.
  - apply update_knowledge_grows.
  - intros fuel c n st st' H. by apply add_knowledge_grows in H as (_ & ? & ?).
  - intros pre st0 obs st1 obs' st2 _ H. by apply session_grows in H as (_ & ? & ?).
Qed.


Lemma classification_sets_grow_witness :
  safes (init 2 2) ⊆ safes corner_end ∧ mines (init 2 2) ⊆ mines corner_end.
Proof.
  apply (proj2 (proj2 (proj2 (proj2 classification_sets_grow)))
           any_call (init 2 2) [] (init 2 2) corner_calls corner_end).
  - constructor.
  - apply (replay_session any_call 5). vm_compute. reflexivity.
Defined.


(** * A round without a change, and running the loop again *)

Section Settled.

Lemma foldl_quiet {S C : Type} (f : S * bool → C → S * bool) l acc :
  quiet f → (foldl f acc l).2 = false →
  foldl f acc l = acc ∧ ∀ c, c ∈ l → f acc c = acc.
Proof.
  intros Hf. revert acc. induction l as [|c l IH]; intros acc; simpl.
  - intros _. split; [done|]. by intros ? ?%elem_of_nil.
  - intros Hfl. destruct (IH _ Hfl) as [IH1 IH2].
    assert (f acc c = acc) as Hc.
    { apply Hf. by rewrite <- IH1. }
    rewrite Hc in IH1, IH2 |- *. split; [done|].
    intros c' [->|Hc']%elem_of_cons; auto.
Qed.

Lemma note_mine_quiet : quiet note_mine.
Proof. intros a c. unfold note_mine. by destruct (decide _). Qed.

Lemma note_safe_quiet : quiet note_safe.
Proof. intros a c. unfold note_safe. by destruct (decide _). Qed.

Lemma cross_check_quiet : quiet cross_check.
Proof.
  intros a c. unfold cross_check.
  destruct (all_full _ _); [apply note_mine_quiet|].
  destruct (all_zero _ _); [apply note_safe_quiet|done].
Qed.

Lemma infer_pair_quiet s1 : quiet (infer_pair s1).
Proof.
  intros a s2. unfold infer_pair.
  destruct (infer_from_sentences s1 s2); [|done]. by destruct (decide _).
Qed.

Lemma extract_at_quiet : quiet extract_at.
Proof.
  intros a k. unfold extract_at. destruct (knowledge a.1 !! k); [|done].
  intros H. pose proof H as H'.
  apply foldl_quiet in H' as [H' _]; [|apply note_safe_quiet].
  rewrite H' in H |- *.
  by apply foldl_quiet in H as [H _]; [|apply note_mine_quiet].
Qed.

Lemma infer_outer_quiet fuel i acc res :
  infer_outer fuel i acc = Some res → res.2 = false → res = acc.
Proof.
  revert i acc. induction fuel as [|fuel IH]; intros i acc; simpl.
  - destruct (acc.1 !! i); [done|]. by intros [= <-].
  - destruct (acc.1 !! i) as [s1|]; [|by intros [= <-]].
    intros Hres Hfl. pose proof (IH _ _ Hres Hfl) as ->.
    by apply foldl_quiet in Hfl as [Hfl _]; [|apply infer_pair_quiet].
Qed.

(** The extraction step does nothing exactly on these engines. *)
Lemma extract_step_quiescent st :
  quiescent st ↔ extract_step st = (st, false).
Proof.
  unfold quiescent, extract_step. split.
  - intros Hq. apply foldl_id. intros k Hk%elem_of_seq.
    unfold extract_at; simpl.
    destruct (knowledge st !! k) as [s|] eqn:Hs; [|done].
    destruct (Forall_lookup_1 _ _ _ _ Hq Hs) as [Hm Hsf].
    rewrite (foldl_id note_mine).
    + apply foldl_id. intros c Hc%elem_of_elements.
      unfold note_safe; simpl. rewrite decide_True; [done|set_solver].
    + intros c Hc%elem_of_elements.
      unfold note_mine; simpl. rewrite decide_True; [done|set_solver].
  - intros Hfl. apply Forall_lookup_2. intros k s Hs.
    assert ((foldl extract_at (st, false) (seq 0 (length (knowledge st)))).2 = false)
      as Hq by by rewrite Hfl.
    apply foldl_quiet in Hq as [_ Hq]; [|apply extract_at_quiet].
    specialize (Hq k). unfold extract_at in Hq; simpl in Hq. rewrite Hs in Hq.
    assert (k ∈ seq 0 (length (knowledge st))) as Hk.
    { apply elem_of_seq. apply lookup_lt_Some in Hs. lia. }
    specialize (Hq Hk).
    assert ((foldl note_safe (foldl note_mine (st, false)
               (elements (Sentence.known_mines s)))
               (elements (Sentence.known_safes s))).2 = false) as Hq2 by by rewrite Hq.
    apply foldl_quiet in Hq2 as [Hq2 Hsafe]; [|apply note_safe_quiet].
    rewrite Hq2 in Hq.
    assert ((foldl note_mine (st, false) (elements (Sentence.known_mines s))).2 = false)
      as Hq3 by by rewrite Hq.
    apply foldl_quiet in Hq3 as [Hq3 Hmine]; [|apply note_mine_quiet].
    rewrite Hq3 in Hsafe. split.
    + intros c Hc%elem_of_elements. specialize (Hmine c Hc).
      unfold note_mine in Hmine; simpl in Hmine. by destruct (decide (c ∈ mines st)).
    + intros c Hc%elem_of_elements. specialize (Hsafe c Hc).
      unfold note_safe in Hsafe; simpl in Hsafe. by destruct (decide (c ∈ safes st)).
Qed.

Lemma drop_empty_idemp K : drop_empty (drop_empty K) = drop_empty K.
Proof.
  unfold drop_empty. induction K as [|s K IH]; [done|].
  rewrite filter_cons. destruct (decide _) as [Hs|]; [|done].
  rewrite filter_cons, decide_True by done. by rewrite IH.
Qed.

(** What a round that reports no change has done: it has dropped the empty
    sentences, and nothing else. *)
Lemma update_round_unchanged fuel st st' :
  update_round fuel st = Some (st', false) →
  st' = set_knowledge (drop_empty (knowledge st)) st ∧
  update_round fuel st' = Some (st', false).
Proof.
  unfold update_round. intros Hr.
  destruct (extract_step st) as [st1 ch1] eqn:H1.
  destruct (infer_outer _ _ _) as [[K3 ch3]|] eqn:H3; [|done].
  injection Hr as Hr.
  assert ((foldl cross_check
             (set_knowledge K3 (set_knowledge (drop_empty (knowledge st1)) st1), ch3)
             (elements (common_cells K3))).2 = false) as H4 by by rewrite Hr.
  apply foldl_quiet in H4 as [H4 _]; [|apply cross_check_quiet].
  rewrite H4 in Hr. simplify_eq.
  apply infer_outer_quiet in H3 as H3'; [|done].
  simplify_eq.
  assert (st1 = st) as ->.
  { assert ((extract_step st).2 = false) as Hq by by rewrite H1.
    unfold extract_step in Hq, H1.
    apply foldl_quiet in Hq as [Hq _]; [|apply extract_at_quiet].
    rewrite Hq in H1. by injection H1. }
  split; [done|].
  unfold set_knowledge in *; simpl in *.
  assert (extract_step (mk (height st) (width st) (moves_made st) (mines st)
                           (safes st) (drop_empty (knowledge st)))
          = (mk (height st) (width st) (moves_made st) (mines st)
                (safes st) (drop_empty (knowledge st)), false)) as ->.
  { apply extract_step_quiescent. apply extract_step_quiescent in H1.
    unfold quiescent in *. simpl. by apply drop_empty_Forall. }
  simpl. rewrite drop_empty_idemp, H3. by rewrite H4.
Qed.

Lemma iterate_settled fuel n st st' :
  iterate fuel n st = Some (st', false) → update_round fuel st' = Some (st', false).
Proof.
  revert st. induction n as [|n IH]; intros st; simpl; [done|].
  destruct (update_round fuel st) as [[st1 ch1]|] eqn:Hr; [|done].
  destruct ch1; [apply IH|].
  intros [= <-]. by apply update_round_unchanged in Hr as [_ Hr].
Qed.

End Settled.

(** C4 (amended).  When [update_knowledge] has returned because a round made
    no change, running it again with no observation in between returns the
    same engine: [moves_made], [safes], [mines] and the sentences are those
    of the first return, and the second run stops at its first round. *)
Theorem settled_loop_idempotent (fuel : nat) (st st' : t) :
  iterate fuel max_iterations st = Some (st', false) →
  update_knowledge fuel st = Some st' ∧
  update_knowledge fuel st' = Some st' ∧
  iterate fuel max_iterations st' = Some (st', false).
Proof.
  intros Hi. unfold update_knowledge. rewrite Hi. split; [done|].
  apply iterate_settled in Hi.
  assert (iterate fuel max_iterations st' = Some (st', false)) as ->; [|done].
  unfold max_iterations. simpl. by rewrite Hi.
Qed.

(** * The corridor *)

Section Neighbours.

Lemma elem_of_foldl_add {D : Type} (P : D → Prop) `{!∀ d, Decision (P d)}
    (x : D → Cell) (l : list D) (acc : gset Cell) (c : Cell) :
  c ∈ foldl (fun acc d => if decide (P d) then {[x d]} ∪ acc else acc) acc l
  ↔ (∃ d, d ∈ l ∧ P d ∧ c = x d) ∨ c ∈ acc.
Proof.
  revert acc. induction l as [|d l IH]; intros acc; simpl.
  - split; [auto|]. intros [(d & Hd%elem_of_nil & _)|]; done.
  - rewrite IH. split.
    + intros [(d' & Hd' & HP & ->)|Hc].
      * left. exists d'. split; [by right|done].
      * destruct (decide (P d)); [|by right].
        apply elem_of_union in Hc as [->%elem_of_singleton|]; [|by right].
        left. exists d. split; [left|done].
    + intros [(d' & [->|Hd']%elem_of_cons & HP & ->)|Hc].
      * right. rewrite decide_True by done. set_solver.
      * left. by exists d'.
      * right. destruct (decide (P d)); set_solver.
Qed.

Lemma elem_of_get_neighbors st i j c :
  c ∈ get_neighbors st (i, j) ↔
  c ≠ (i, j) ∧ (i - 1 ≤ c.1 ∧ c.1 ≤ i + 1) ∧ (j - 1 ≤ c.2 ∧ c.2 ≤ j + 1) ∧ in_bounds st c.
Proof.
  unfold get_neighbors, in_bounds.
  set (ok := fun di dj =>
    ¬ (di = 0 ∧ dj = 0) ∧ (0 ≤ i + di ∧ i + di < height st)
                        ∧ (0 ≤ j + dj ∧ j + dj < width st)).
  set (row := fun (neighbors : gset Cell) (di : Z) => foldl _ neighbors [-1; 0; 1]).
  assert (∀ acc di,
    c ∈ row acc di
    ↔ (∃ dj, dj ∈ [-1; 0; 1] ∧ ok di dj ∧ c = (i + di, j + dj)) ∨ c ∈ acc) as Hrow.
  { intros acc di. unfold row.
    rewrite <- (elem_of_foldl_add (ok di) (fun dj => (i + di, j + dj))).
    unfold ok. simpl. repeat destruct (decide _); tauto || set_solver. }
  assert (∀ (l : list Z) acc,
    c ∈ foldl row acc l
    ↔ (∃ di dj, di ∈ l ∧ dj ∈ [-1; 0; 1] ∧ ok di dj ∧ c = (i + di, j + dj))
      ∨ c ∈ acc) as Hrows.
  { induction l as [|di l IH]; intros acc.
    - simpl. split; [auto|]. intros [(di & dj & Hd%elem_of_nil & _)|]; done.
    - change (foldl row acc (di :: l)) with (foldl row (row acc di) l).
      rewrite IH, Hrow. split.
      + intros [(di' & dj & Hdi & H)|[(dj & H)|Hc]].
        * left. exists di', dj. split; [by right|done].
        * left. exists di, dj. split; [left|done].
        * by right.
      + intros [(di' & dj & [->|Hdi]%elem_of_cons & H)|Hc].
        * right. left. by exists dj.
        * left. by exists di', dj.
        * right. by right. }
  rewrite Hrows. rewrite elem_of_empty. unfold ok.
  destruct c as [ci cj]; simpl. split.
  - intros [(di & dj & Hdi & Hdj & (Hnz & Hbi & Hbj) & [= -> ->])|[]].
    set_unfold. split; [intros [= ? ?]; lia|lia].
  - intros (Hne & Hi & Hj & Hb). left.
    exists (ci - i), (cj - j). set_unfold.
    replace (i + (ci - i)) with ci by lia. replace (j + (cj - j)) with cj by lia.
    split; [lia|]. split; [lia|]. split; [|done].
    split; [|done]. intros [? ?]. apply Hne. f_equal; lia.
Qed.

End Neighbours.

Section Corridor.

Lemma even_cell_inj m m' : even_cell m = even_cell m' → m = m'.
Proof. unfold even_cell. intros [= H]. lia. Qed.

Lemma odd_cell_inj m m' : odd_cell m = odd_cell m' → m = m'.
Proof. unfold odd_cell. intros [= H]. lia. Qed.

Lemma even_odd_ne m m' : even_cell m ≠ odd_cell m'.
Proof. unfold even_cell, odd_cell. intros [= H]. lia. Qed.

Lemma even_succ_ne m : even_cell m ≠ even_cell (S m).
Proof. intros H%even_cell_inj. lia. Qed.

Lemma elem_of_link c m :
  c ∈ Sentence.cells (link m) ↔ c = even_cell m ∨ c = even_cell (S m).
Proof. unfold link; cbn [Sentence.cells]. set_solver. Qed.

Lemma size_link m : size (Sentence.cells (link m)) = 2%nat.
Proof.
  unfold link; cbn [Sentence.cells]. rewrite size_union, !size_singleton; [done|].
  pose proof (even_succ_ne m). set_solver.
Qed.

Lemma link_known_mines m : Sentence.known_mines (link m) = ∅.
Proof.
  unfold Sentence.known_mines. rewrite size_link.
  rewrite decide_False; [done|]. unfold link; cbn [Sentence.count]. lia.
Qed.

Lemma link_known_safes m : Sentence.known_safes (link m) = ∅.
Proof. unfold Sentence.known_safes. by rewrite decide_False. Qed.

Lemma links_nil lo hi : (hi ≤ lo)%nat → links lo hi = [].
Proof. intros H. unfold links. by replace (hi - lo)%nat with 0%nat by lia. Qed.

Lemma links_snoc lo hi :
  (lo < hi)%nat → links lo hi = links (S lo) hi ++ [link lo].
Proof.
  intros H. unfold links.
  replace (hi - lo)%nat with (S (hi - S lo)) by lia.
  cbn [seq]. by rewrite reverse_cons, fmap_app.
Qed.

Lemma elem_of_links s lo hi :
  s ∈ links lo hi ↔ ∃ m, (lo ≤ m < hi)%nat ∧ s = link m.
Proof.
  unfold links. rewrite list_elem_of_fmap. split.
  - intros (m & -> & Hm). exists m. split; [|done].
    apply elem_of_reverse, elem_of_seq in Hm. lia.
  - intros (m & Hm & ->). exists m. split; [done|].
    apply elem_of_reverse, elem_of_seq. lia.
Qed.

Lemma length_links lo hi : length (links lo hi) = (hi - lo)%nat.
Proof. unfold links. by rewrite length_fmap, length_reverse, length_seq. Qed.

Lemma elem_of_odds c lo hi :
  c ∈ odds lo hi ↔ ∃ m, (lo ≤ m < hi)%nat ∧ c = odd_cell m.
Proof.
  unfold odds. rewrite elem_of_list_to_set, list_elem_of_fmap. split.
  - intros (m & -> & Hm). exists m. split; [|done].
    apply elem_of_reverse, elem_of_seq in Hm. lia.
  - intros (m & Hm & ->). exists m. split; [done|].
    apply elem_of_reverse, elem_of_seq. lia.
Qed.

Lemma odds_snoc lo hi :
  (lo < hi)%nat → {[odd_cell lo]} ∪ odds (S lo) hi = odds lo hi.
Proof.
  intros H. apply set_eq. intros c.
  rewrite elem_of_union, elem_of_singleton, !elem_of_odds. split.
  - intros [->|(m & Hm & ->)]; [exists lo|exists m]; split; (lia || done).
  - intros (m & Hm & ->). destruct (decide (m = lo)) as [->|]; [by left|].
    right. exists m. split; [lia|done].
Qed.

Lemma even_not_in_odds m lo hi : even_cell m ∉ odds lo hi.
Proof. intros (m' & _ & H)%elem_of_odds. by apply even_odd_ne in H. Qed.

(** Marks of cells outside a sentence leave it alone. *)
Lemma mark_safe_absent c s : c ∉ Sentence.cells s → Sentence.mark_safe c s = s.
Proof. intros H. unfold Sentence.mark_safe. by rewrite decide_False. Qed.

Lemma mark_mine_absent c s : c ∉ Sentence.cells s → Sentence.mark_mine c s = s.
Proof. intros H. unfold Sentence.mark_mine. by rewrite decide_False. Qed.

Lemma map_mark_safe_absent c K :
  Forall (fun s => c ∉ Sentence.cells s) K → map (Sentence.mark_safe c) K = K.
Proof.
  induction 1 as [|s K Hs _ IH]; simpl; [done|].
  by rewrite IH, mark_safe_absent.
Qed.

Lemma map_mark_mine_absent c K :
  Forall (fun s => c ∉ Sentence.cells s) K → map (Sentence.mark_mine c) K = K.
Proof.
  induction 1 as [|s K Hs _ IH]; simpl; [done|].
  by rewrite IH, mark_mine_absent.
Qed.

Lemma links_absent c lo hi :
  (∀ m, (lo ≤ m ≤ hi)%nat → c ≠ even_cell m) →
  Forall (fun s => c ∉ Sentence.cells s) (links lo hi).
Proof.
  intros H. apply Forall_forall. intros s (m & Hm & ->)%elem_of_links.
  rewrite elem_of_link. intros [->| ->]; (eapply H; [|done]); lia.
Qed.

Lemma corridor_neighbors_odd st M m :
  height st = 1 → width st = 2 * Z.of_nat M + 1 → (m < M)%nat →
  get_neighbors st (odd_cell m) = {[even_cell m; even_cell (S m)]}.
Proof.
  intros Hh Hw Hm. apply set_eq. intros [i j]. unfold odd_cell.
  rewrite elem_of_get_neighbors. unfold in_bounds, even_cell. rewrite Hh, Hw.
  simpl. set_unfold. split.
  - intros (Hne & Hi & Hj & (Hbi & Hbj)).
    assert (i = 0) as -> by lia.
    assert (j ≠ 2 * Z.of_nat m + 1) by (intros ->; done).
    assert (j = 2 * Z.of_nat m ∨ j = 2 * Z.of_nat m + 2) as [-> | ->] by lia.
    + by left.
    + right. f_equal. lia.
  - intros [[= -> ->]|[= -> ->]]; (split; [intros [= ?]; lia|lia]).
Qed.

Lemma corridor_neighbors_origin st M :
  height st = 1 → width st = 2 * Z.of_nat M + 1 → (0 < M)%nat →
  get_neighbors st (even_cell 0) = {[odd_cell 0]}.
Proof.
  intros Hh Hw Hm. apply set_eq. intros [i j]. unfold even_cell.
  rewrite elem_of_get_neighbors. unfold in_bounds, odd_cell. rewrite Hh, Hw.
  simpl. set_unfold. split.
  - intros (Hne & Hi & Hj & (Hbi & Hbj)).
    assert (i = 0) as -> by lia.
    assert (j ≠ 0) by (intros ->; done).
    f_equal. lia.
  - intros [= -> ->]. split; [intros [= ?]|lia].
Qed.

End Corridor.

Section Fuel.

Lemma infer_outer_mono fuel fuel' i acc res :
  infer_outer fuel i acc = Some res → (fuel ≤ fuel')%nat →
  infer_outer fuel' i acc = Some res.
Proof.
  revert fuel' i acc. induction fuel as [|fuel IH]; intros fuel' i acc; simpl.
  - destruct (acc.1 !! i) eqn:Hi; [done|]. intros [= <-] _.
    destruct fuel'; simpl; by rewrite Hi.
  - destruct (acc.1 !! i) eqn:Hi.
    + intros Hres Hle. destruct fuel' as [|fuel']; [lia|]. simpl. rewrite Hi.
      apply IH; [done|lia].
    + intros [= <-] _. destruct fuel'; simpl; by rewrite Hi.
Qed.

Lemma update_round_mono fuel fuel' st res :
  update_round fuel st = Some res → (fuel ≤ fuel')%nat →
  update_round fuel' st = Some res.
Proof.
  unfold update_round. destruct (extract_step st) as [st1 ch1].
  destruct (infer_outer fuel _ _) as [[K3 ch3]|] eqn:Hinf; [|done].
  intros Hres Hle. by rewrite (infer_outer_mono _ _ _ _ _ Hinf Hle).
Qed.

Lemma iterate_mono fuel fuel' n st res :
  iterate fuel n st = Some res → (fuel ≤ fuel')%nat →
  iterate fuel' n st = Some res.
Proof.
  revert st. induction n as [|n IH]; intros st; simpl; [done|].
  destruct (update_round fuel st) as [[st1 ch1]|] eqn:Hr; [|done].
  intros Hres Hle. rewrite (update_round_mono _ _ _ _ Hr Hle).
  destruct ch1; [by apply IH|done].
Qed.

End Fuel.

Section Inert.

(** The elimination pass over sentences no two of which are nested. *)
Lemma infer_pair_none s1 acc s2 :
  infer_from_sentences s1 s2 = None → infer_pair s1 acc s2 = acc.
Proof. intros H. unfold infer_pair. by rewrite H. Qed.

Lemma infer_outer_skip n fuel i K ch :
  (∀ i' s1, (i ≤ i' < i + n)%nat → K !! i' = Some s1 →
            ∀ s2, s2 ∈ drop (S i') K → infer_from_sentences s1 s2 = None) →
  (i + n ≤ length K)%nat →
  infer_outer (n + fuel) i (K, ch) = infer_outer fuel (i + n) (K, ch).
Proof.
  revert i. induction n as [|n IH]; intros i Hun Hlen.
  - by rewrite Nat.add_0_r.
  - destruct (lookup_lt_is_Some_2 K i) as [s1 Hs1]; [lia|].
    cbn [Nat.add infer_outer fst]. rewrite Hs1.
    rewrite foldl_id.
    + rewrite IH; [f_equal; lia| |lia].
      intros i' s1' Hi'. apply Hun. lia.
    + intros s2 Hs2. apply infer_pair_none. eapply Hun; [|done..]. lia.
Qed.

Lemma infer_outer_end fuel K ch :
  infer_outer fuel (length K) (K, ch) = Some (K, ch).
Proof.
  destruct fuel; simpl; by rewrite lookup_ge_None_2.
Qed.

Lemma infer_outer_unrelated fuel K ch :
  (∀ i j s1 s2, (i < j)%nat → K !! i = Some s1 → K !! j = Some s2 →
                infer_from_sentences s1 s2 = None) →
  (length K ≤ fuel)%nat →
  infer_outer fuel 0 (K, ch) = Some (K, ch).
Proof.
  intros Hun Hlen.
  apply (infer_outer_mono (length K + 0)); [|lia].
  rewrite (infer_outer_skip (length K) 0 0); [apply infer_outer_end| |done].
  intros i s1 _ Hs1 s2 [j Hj]%list_elem_of_lookup.
  rewrite lookup_drop in Hj. eapply (Hun i (S i + j)%nat); [lia|done..].
Qed.

Lemma all_full_false c K s :
  s ∈ K → c ∈ Sentence.cells s →
  Sentence.count s ≠ Z.of_nat (size (Sentence.cells s)) → all_full c K = false.
Proof.
  intros Hs Hc Hne. unfold all_full. apply not_true_is_false.
  intros Hall. rewrite forallb_forall in Hall.
  specialize (Hall s). rewrite <- list_elem_of_In in Hall.
  unfold holding in Hall. rewrite list_elem_of_filter in Hall.
  specialize (Hall (conj Hc Hs)). by apply bool_decide_eq_true_1 in Hall.
Qed.

Lemma all_zero_false c K s :
  s ∈ K → c ∈ Sentence.cells s → Sentence.count s ≠ 0 → all_zero c K = false.
Proof.
  intros Hs Hc Hne. unfold all_zero. apply not_true_is_false.
  intros Hall. rewrite forallb_forall in Hall.
  specialize (Hall s). rewrite <- list_elem_of_In in Hall.
  unfold holding in Hall. rewrite list_elem_of_filter in Hall.
  specialize (Hall (conj Hc Hs)). by apply bool_decide_eq_true_1 in Hall.
Qed.

Lemma common_cells_disjoint K s1 s2 :
  s1 ∈ K → s2 ∈ K → Sentence.cells s1 ## Sentence.cells s2 → common_cells K = ∅.
Proof.
  intros H1 H2 Hd.
  pose proof (common_cells_subseteq K s1 H1).
  pose proof (common_cells_subseteq K s2 H2). set_solver.
Qed.

Lemma set_knowledge_same st : set_knowledge (knowledge st) st = st.
Proof. by destruct st. Qed.

Lemma drop_empty_all K :
  Forall (fun s => (0 < size (Sentence.cells s))%nat) K → drop_empty K = K.
Proof.
  unfold drop_empty. induction 1 as [|s K Hs _ IH]; [done|].
  by rewrite filter_cons, decide_True, IH.
Qed.

(** A round on an engine where nothing can be extracted, no sentence is
    empty, no two sentences are nested, and the first sentence is neither
    full nor at zero. *)
Lemma update_round_still fuel st :
  quiescent st →
  Forall (fun s => (0 < size (Sentence.cells s))%nat) (knowledge st) →
  (∀ i j s1 s2, (i < j)%nat → knowledge st !! i = Some s1 → knowledge st !! j = Some s2 →
                infer_from_sentences s1 s2 = None) →
  (∀ s, head (knowledge st) = Some s →
        Sentence.count s ≠ Z.of_nat (size (Sentence.cells s)) ∧ Sentence.count s ≠ 0) →
  (length (knowledge st) ≤ fuel)%nat →
  update_round fuel st = Some (st, false).
Proof.
  intros Hq Hne Hun Hhd Hlen. unfold update_round.
  apply extract_step_quiescent in Hq. rewrite Hq.
  rewrite (drop_empty_all _ Hne), set_knowledge_same.
  rewrite (infer_outer_unrelated _ _ _ Hun Hlen).
  rewrite set_knowledge_same. f_equal.
  apply foldl_id. intros c Hc%elem_of_elements.
  destruct (knowledge st) as [|s K] eqn:HK; [by apply elem_of_empty in Hc|].
  destruct (Hhd s eq_refl) as [Hfull Hzero].
  assert (s ∈ knowledge st) as Hs by (rewrite HK; left).
  assert (c ∈ Sentence.cells s) as Hcs.
  { by apply (common_cells_subseteq (s :: K) s); [left|]. }
  unfold cross_check; cbn [fst].
  rewrite (all_full_false c _ s), (all_zero_false c _ s); done.
Qed.

End Inert.

Section Building.

Lemma lookup_links lo hi i s :
  links lo hi !! i = Some s → ∃ m, (lo ≤ m < hi)%nat ∧ (m + i + 1 = hi)%nat ∧ s = link m.
Proof.
  unfold links. rewrite list_lookup_fmap. intros Hs.
  destruct (reverse (seq lo (hi - lo)) !! i) as [m|] eqn:Hm; [|done].
  injection Hs as <-. exists m.
  apply reverse_lookup_Some in Hm as [Hm Hi]. rewrite length_seq in *.
  apply lookup_seq in Hm as [-> ?]. split; [lia|]. split; [lia|done].
Qed.

Lemma infer_link_link m1 m2 :
  m1 ≠ m2 → infer_from_sentences (link m1) (link m2) = None.
Proof.
  intros Hne. unfold infer_from_sentences.
  rewrite !decide_False; [done|..]; intros Hsub.
  - assert (even_cell m2 ∈ Sentence.cells (link m1)) as H1
      by (apply Hsub, elem_of_link; by left).
    assert (even_cell (S m2) ∈ Sentence.cells (link m1)) as H2
      by (apply Hsub, elem_of_link; by right).
    apply elem_of_link in H1 as [H1%even_cell_inj|H1%even_cell_inj];
    apply elem_of_link in H2 as [H2%even_cell_inj|H2%even_cell_inj]; lia.
  - assert (even_cell m1 ∈ Sentence.cells (link m2)) as H1
      by (apply Hsub, elem_of_link; by left).
    assert (even_cell (S m1) ∈ Sentence.cells (link m2)) as H2
      by (apply Hsub, elem_of_link; by right).
    apply elem_of_link in H1 as [H1%even_cell_inj|H1%even_cell_inj];
    apply elem_of_link in H2 as [H2%even_cell_inj|H2%even_cell_inj]; lia.
Qed.

Lemma links_unrelated lo hi i j s1 s2 :
  (i < j)%nat → links lo hi !! i = Some s1 → links lo hi !! j = Some s2 →
  infer_from_sentences s1 s2 = None.
Proof.
  intros Hij (m1 & _ & H1 & ->)%lookup_links (m2 & _ & H2 & ->)%lookup_links.
  apply infer_link_link. lia.
Qed.

Lemma links_nonempty lo hi :
  Forall (fun s => (0 < size (Sentence.cells s))%nat) (links lo hi).
Proof.
  apply Forall_forall. intros s (m & _ & ->)%elem_of_links. rewrite size_link. lia.
Qed.

Lemma links_inert lo hi :
  Forall (fun s => Sentence.known_mines s = ∅ ∧ Sentence.known_safes s = ∅)
         (links lo hi).
Proof.
  apply Forall_forall. intros s (m & _ & ->)%elem_of_links.
  by rewrite link_known_mines, link_known_safes.
Qed.

Lemma building_end M : building M M = init 1 (2 * Z.of_nat M + 1).
Proof.
  unfold building, init, odds, links. rewrite Nat.sub_diag. done.
Qed.

Lemma record_building M lo :
  (lo < M)%nat →
  record_observation (odd_cell lo) 1 (building M (S lo)) = building M lo.
Proof.
  intros Hlo. unfold record_observation, building.
  cbn [mark_safe height width moves_made mines safes knowledge set_knowledge].
  rewrite map_mark_safe_absent.
  2:{ apply links_absent. intros m _ H. symmetry in H. by apply even_odd_ne in H. }
  rewrite (corridor_neighbors_odd _ M lo) by done.
  rewrite odds_snoc by done.
  assert ({[even_cell lo; even_cell (S lo)]} ∖ odds lo M ∖ ∅
          = ({[even_cell lo; even_cell (S lo)]} : gset Cell)) as ->.
  { pose proof (even_not_in_odds lo lo M). pose proof (even_not_in_odds (S lo) lo M).
    set_solver. }
  assert (({[even_cell lo; even_cell (S lo)]} : gset Cell) ∩ ∅ = ∅) as ->
    by set_solver.
  rewrite size_empty. cbn [Sentence.cells].
  rewrite decide_True.
  2:{ change ({[even_cell lo; even_cell (S lo)]}) with (Sentence.cells (link lo)).
      rewrite size_link. lia. }
  unfold set_knowledge, mark_safe. cbn [height width moves_made mines safes knowledge].
  by rewrite odds_snoc, (links_snoc lo M).
Qed.

Lemma round_building M lo fuel :
  (M ≤ fuel)%nat → update_round fuel (building M lo) = Some (building M lo, false).
Proof.
  intros Hfuel. apply update_round_still; unfold building; cbn [knowledge mines safes].
  - eapply Forall_impl; [apply links_inert|]. intros s [-> ->]. set_solver.
  - apply links_nonempty.
  - apply links_unrelated.
  - intros s Hs. rewrite head_lookup in Hs.
    apply lookup_links in Hs as (m & _ & _ & ->).
    rewrite size_link. unfold link; cbn [Sentence.count]. lia.
  - rewrite length_links. lia.
Qed.

Lemma add_building M lo fuel :
  (lo < M)%nat → (M ≤ fuel)%nat →
  add_knowledge fuel (odd_cell lo) 1 (building M (S lo)) = Some (building M lo).
Proof.
  intros Hlo Hfuel. unfold add_knowledge, update_knowledge, max_iterations.
  rewrite record_building by done. cbn [iterate].
  by rewrite round_building.
Qed.

Lemma corridor_calls_snoc lo hi :
  (lo < hi)%nat → corridor_calls lo hi = corridor_calls (S lo) hi ++ [(odd_cell lo, 1)].
Proof.
  intros H. unfold corridor_calls.
  replace (hi - lo)%nat with (S (hi - S lo)) by lia.
  cbn [seq]. by rewrite reverse_cons, fmap_app.
Qed.

Lemma building_session (pre : t → Cell → Z → Prop) M :
  (∀ lo, (lo < M)%nat → pre (building M (S lo)) (odd_cell lo) 1) →
  ∀ k lo, (lo + k = M)%nat →
    session pre (init 1 (2 * Z.of_nat M + 1)) (corridor_calls lo M) (building M lo).
Proof.
  intros Hpre. induction k as [|k IH]; intros lo Hlo.
  - assert (lo = M) as -> by lia. rewrite building_end.
    unfold corridor_calls. rewrite Nat.sub_diag. constructor.
  - rewrite corridor_calls_snoc by lia.
    eapply session_call; [apply IH; lia|apply Hpre; lia|].
    exists M. apply add_building; lia.
Qed.

End Building.

Section Steps.

Lemma lookup_app_plus {A} (l1 l2 : list A) k :
  (l1 ++ l2) !! (k + length l1)%nat = l2 !! k.
Proof. rewrite lookup_app_r by lia. f_equal. lia. Qed.

Lemma drop_app_plus {A} (l1 l2 : list A) k :
  drop (k + length l1) (l1 ++ l2) = drop k l2.
Proof.
  rewrite Nat.add_comm, <- drop_drop. by rewrite drop_app_length.
Qed.

Lemma single_known_safes c : Sentence.known_safes (Sentence.mk {[c]} 0) = {[c]}.
Proof. unfold Sentence.known_safes. by rewrite decide_True. Qed.

Lemma single_zero_known_mines c : Sentence.known_mines (Sentence.mk {[c]} 0) = ∅.
Proof.
  unfold Sentence.known_mines. rewrite decide_False; [done|].
  cbn [Sentence.count]. lia.
Qed.

Lemma single_known_mines c : Sentence.known_mines (Sentence.mk {[c]} 1) = {[c]}.
Proof.
  unfold Sentence.known_mines. rewrite decide_True; [done|].
  cbn [Sentence.cells Sentence.count]. rewrite size_singleton. lia.
Qed.

Lemma single_one_known_safes c : Sentence.known_safes (Sentence.mk {[c]} 1) = ∅.
Proof. unfold Sentence.known_safes. by rewrite decide_False. Qed.

Lemma extract_at_inert acc k s :
  knowledge acc.1 !! k = Some s →
  Sentence.known_mines s = ∅ → Sentence.known_safes s = ∅ →
  extract_at acc k = acc.
Proof.
  intros Hk Hm Hs. unfold extract_at. rewrite Hk, Hm, Hs, elements_empty. done.
Qed.

(** The extraction step skips a prefix of inert sentences. *)
Lemma extract_step_tail st P l :
  knowledge st = P ++ l →
  Forall (fun s => Sentence.known_mines s = ∅ ∧ Sentence.known_safes s = ∅) P →
  extract_step st = foldl extract_at (st, false) (seq (length P) (length l)).
Proof.
  intros HK HP. unfold extract_step. rewrite HK, length_app, seq_app, foldl_app.
 rewrite (foldl_id extract_at (seq 0 (length P)) (st, false)); [done|].
  intros k Hk%elem_of_seq.
  destruct (lookup_lt_is_Some_2 P k) as [s Hs]; [lia|].
  destruct (Forall_lookup_1 _ _ _ _ HP Hs) as [Hm Hsf].
  apply (extract_at_inert _ _ s); [|done..].
  cbn [fst]. rewrite HK. by apply lookup_app_l_Some.
Qed.

Lemma extract_at_safe h w mv mi sf P l ch k c :
  l !! k = Some (Sentence.mk {[c]} 0) → c ∉ sf →
  Forall (fun s => c ∉ Sentence.cells s) P →
  extract_at (mk h w mv mi sf (P ++ l), ch) (k + length P)
  = (mk h w mv mi ({[c]} ∪ sf) (P ++ map (Sentence.mark_safe c) l), true).
Proof.
  intros Hk Hc HP. unfold extract_at. cbn [fst knowledge].
  rewrite lookup_app_plus, Hk.
  rewrite single_known_safes, single_zero_known_mines, elements_empty, elements_singleton.
  cbn [foldl]. unfold note_safe. cbn [fst safes]. rewrite decide_False by done.
  unfold mark_safe. cbn [height width moves_made mines safes knowledge].
  by rewrite map_app, map_mark_safe_absent.
Qed.

Lemma extract_at_mine h w mv mi sf P l ch k c :
  l !! k = Some (Sentence.mk {[c]} 1) → c ∉ mi →
  Forall (fun s => c ∉ Sentence.cells s) P →
  extract_at (mk h w mv mi sf (P ++ l), ch) (k + length P)
  = (mk h w mv ({[c]} ∪ mi) sf (P ++ map (Sentence.mark_mine c) l), true).
Proof.
  intros Hk Hc HP. unfold extract_at. cbn [fst knowledge].
  rewrite lookup_app_plus, Hk.
  rewrite single_known_mines, single_one_known_safes, elements_empty, elements_singleton.
  cbn [foldl]. unfold note_mine. cbn [fst mines]. rewrite decide_False by done.
  unfold mark_mine. cbn [height width moves_made mines safes knowledge].
  by rewrite map_app, map_mark_mine_absent.
Qed.

Lemma extract_at_link h w mv mi sf P l ch k m :
  l !! k = Some (link m) →
  extract_at (mk h w mv mi sf (P ++ l), ch) (k + length P)
  = (mk h w mv mi sf (P ++ l), ch).
Proof.
  intros Hk. apply (extract_at_inert _ _ (link m)).
  - cbn [fst knowledge]. by rewrite lookup_app_plus.
  - apply link_known_mines.
  - apply link_known_safes.
Qed.

(** Marks on the sentences of the corridor. *)
Lemma mark_safe_link m :
  Sentence.mark_safe (even_cell m) (link m) = Sentence.mk {[even_cell (S m)]} 1.
Proof.
  unfold Sentence.mark_safe. rewrite decide_True by (apply elem_of_link; by left).
  unfold link; cbn [Sentence.cells Sentence.count]. f_equal.
  pose proof (even_succ_ne m). set_solver.
Qed.

Lemma mark_mine_link m :
  Sentence.mark_mine (even_cell m) (link m) = Sentence.mk {[even_cell (S m)]} 0.
Proof.
  unfold Sentence.mark_mine. rewrite decide_True by (apply elem_of_link; by left).
  unfold link; cbn [Sentence.cells Sentence.count]. f_equal.
  pose proof (even_succ_ne m). set_solver.
Qed.

Lemma mark_safe_single c n :
  Sentence.mark_safe c (Sentence.mk {[c]} n) = Sentence.mk ∅ n.
Proof.
  unfold Sentence.mark_safe. cbn [Sentence.cells Sentence.count].
  rewrite decide_True by set_solver. f_equal. set_solver.
Qed.

Lemma mark_mine_single c n :
  Sentence.mark_mine c (Sentence.mk {[c]} n) = Sentence.mk ∅ (n - 1).
Proof.
  unfold Sentence.mark_mine. cbn [Sentence.cells Sentence.count].
  rewrite decide_True by set_solver. f_equal. set_solver.
Qed.

Lemma mark_mine_hollow c n :
  Sentence.mark_mine c (Sentence.mk ∅ n) = Sentence.mk ∅ n.
Proof. apply mark_mine_absent. cbn [Sentence.cells]. set_solver. Qed.

Lemma mark_safe_other c c' n :
  c ≠ c' → Sentence.mark_safe c (Sentence.mk {[c']} n) = Sentence.mk {[c']} n.
Proof. intros H. apply mark_safe_absent. cbn [Sentence.cells]. set_solver. Qed.

Lemma mark_safe_link_other c m :
  c ≠ even_cell m → c ≠ even_cell (S m) → Sentence.mark_safe c (link m) = link m.
Proof. intros H1 H2. apply mark_safe_absent. rewrite elem_of_link. tauto. Qed.

Lemma mark_mine_link_other c m :
  c ≠ even_cell m → c ≠ even_cell (S m) → Sentence.mark_mine c (link m) = link m.
Proof. intros H1 H2. apply mark_mine_absent. rewrite elem_of_link. tauto. Qed.

Lemma drop_empty_keep s K :
  (0 < size (Sentence.cells s))%nat → drop_empty (s :: K) = s :: drop_empty K.
Proof. intros H. unfold drop_empty. by rewrite filter_cons, decide_True. Qed.

Lemma drop_empty_hollow n K :
  drop_empty (Sentence.mk ∅ n :: K) = drop_empty K.
Proof.
  unfold drop_empty. rewrite filter_cons, decide_False; [done|].
  cbn [Sentence.cells]. rewrite size_empty. lia.
Qed.

Lemma drop_empty_app K1 K2 : drop_empty (K1 ++ K2) = drop_empty K1 ++ drop_empty K2.
Proof. apply filter_app. Qed.

End Steps.

Section Front.

Lemma infer_link_off m c n :
  c ∉ Sentence.cells (link m) →
  infer_from_sentences (link m) (Sentence.mk {[c]} n) = None.
Proof.
  intros Hc. unfold infer_from_sentences. cbn [Sentence.cells Sentence.count].
  rewrite !decide_False; [done|set_solver|].
  intros Hsub. pose proof (even_succ_ne m).
  assert (even_cell m ∈ ({[c]} : gset Cell)) by (apply Hsub, elem_of_link; by left).
  assert (even_cell (S m) ∈ ({[c]} : gset Cell)) by (apply Hsub, elem_of_link; by right).
  set_solver.
Qed.

Lemma infer_link_on m n :
  infer_from_sentences (link m) (Sentence.mk {[even_cell m]} n)
  = Some (Sentence.mk {[even_cell (S m)]} (1 - n)).
Proof.
  pose proof (even_succ_ne m).
  unfold infer_from_sentences. cbn [Sentence.cells Sentence.count].
  rewrite decide_False, decide_True.
  - unfold link; cbn [Sentence.cells Sentence.count]. do 2 f_equal. set_solver.
  - intros c ->%elem_of_singleton. apply elem_of_link. by left.
  - intros Hsub.
    assert (even_cell (S m) ∈ ({[even_cell m]} : gset Cell))
      by (apply Hsub, elem_of_link; by right).
    set_solver.
Qed.

Lemma infer_single_single c c' n n' :
  c ≠ c' →
  infer_from_sentences (Sentence.mk {[c]} n) (Sentence.mk {[c']} n') = None.
Proof.
  intros Hne. unfold infer_from_sentences. cbn [Sentence.cells].
  rewrite !decide_False; [done|set_solver..].
Qed.

Lemma single_not_link c n m : Sentence.mk {[c]} n ≠ link m.
Proof.
  intros H. apply (f_equal (fun s => size (Sentence.cells s))) in H.
  rewrite size_link in H. cbn [Sentence.cells] in H. by rewrite size_singleton in H.
Qed.

Lemma infer_outer_step fuel i acc s1 :
  acc.1 !! i = Some s1 →
  infer_outer (S fuel) i acc
  = infer_outer fuel (S i) (foldl (infer_pair s1) acc (drop (S i) acc.1)).
Proof. intros H. cbn [infer_outer]. by rewrite H. Qed.

Lemma infer_outer_stop fuel i acc :
  acc.1 !! i = None → infer_outer fuel i acc = Some acc.
Proof. intros H. destruct fuel; cbn [infer_outer]; by rewrite H. Qed.

(** The elimination pass when the last link meets the sentence of its lower
    cell: one sentence is derived, for its upper cell. *)
Lemma infer_front M j fuel ch :
  (S (S j) < M)%nat → (M ≤ fuel)%nat →
  infer_outer fuel 0
    (links (S (S (S j))) M
     ++ [link (S (S j)); Sentence.mk {[even_cell (S (S j))]} 0], ch)
  = Some (links (S (S (S j))) M
          ++ [link (S (S j)); Sentence.mk {[even_cell (S (S j))]} 0;
              Sentence.mk {[even_cell (S (S (S j)))]} 1], true).
Proof.
  intros Hj Hfuel.
  set (P := links (S (S (S j))) M).
  assert (length P = (M - S (S (S j)))%nat) as HlenP by apply length_links.
  apply (infer_outer_mono (length P + 3)); [|lia].
  rewrite (infer_outer_skip (length P) 3 0).
  2:{ intros i s1 [_ Hi] Hs1 s2 Hs2.
      rewrite lookup_app_l in Hs1 by lia.
      apply lookup_links in Hs1 as (m1 & Hm1 & Hi1 & ->).
      rewrite drop_app_le in Hs2 by lia.
      apply elem_of_app in Hs2 as [Hs2|Hs2].
      - apply list_elem_of_lookup in Hs2 as [k Hk]. rewrite lookup_drop in Hk.
        apply lookup_links in Hk as (m2 & Hm2 & Hi2 & ->).
        apply infer_link_link. lia.
      - apply elem_of_cons in Hs2 as [->|Hs2]; [apply infer_link_link; lia|].
        apply list_elem_of_singleton in Hs2 as ->.
        apply infer_link_off. rewrite elem_of_link.
        intros [H%even_cell_inj|H%even_cell_inj]; lia. }
  2:{ rewrite length_app. lia. }
  (* the last link *)
  rewrite (infer_outer_step _ _ _ (link (S (S j))))
    by (cbn [fst]; by rewrite (lookup_app_plus P _ 0)).
  cbn [fst]. rewrite (drop_app_plus P _ 1). cbn [drop foldl].
  unfold infer_pair. rewrite infer_link_on. cbn [fst].
  rewrite decide_False.
  2:{ intros [Hin|Hin]%elem_of_app.
      - apply elem_of_links in Hin as (m & _ & Hm). by apply single_not_link in Hm.
      - apply elem_of_cons in Hin as [Hin|Hin]; [by apply single_not_link in Hin|].
        apply list_elem_of_singleton in Hin.
        apply (f_equal Sentence.cells) in Hin. cbn [Sentence.cells] in Hin.
        assert (even_cell (S (S (S j))) ∈ ({[even_cell (S (S j))]} : gset Cell)) as Hc
          by (rewrite <- Hin; set_solver).
        apply elem_of_singleton, even_cell_inj in Hc. lia. }
  rewrite <- app_assoc. cbn [app].
  change (1 - 0) with 1.
  (* the two single cells *)
  rewrite (infer_outer_step _ _ _ (Sentence.mk {[even_cell (S (S j))]} 0))
    by (cbn [fst]; by rewrite (lookup_app_plus P _ 1)).
  cbn [fst]. rewrite (drop_app_plus P _ 2). cbn [drop foldl].
  rewrite infer_pair_none.
  2:{ apply infer_single_single. intros H%even_cell_inj. lia. }
  rewrite (infer_outer_step _ _ _ (Sentence.mk {[even_cell (S (S (S j)))]} 1))
    by (cbn [fst]; by rewrite (lookup_app_plus P _ 2)).
  cbn [fst]. rewrite (drop_app_plus P _ 3). cbn [drop foldl].
  apply infer_outer_stop. cbn [fst]. by rewrite (lookup_app_plus P _ 3).
Qed.

End Front.

Section Cascade.

Lemma elem_of_cascade_mines c r :
  c ∈ cascade_mines r → ∃ i, (i < r)%nat ∧ c = even_cell (S (2 * i)).
Proof.
  induction r as [|r IH]; cbn [cascade_mines]; [by intros ?%elem_of_empty|].
  intros [->%elem_of_singleton|Hc]%elem_of_union.
  - exists r. split; [lia|done].
  - destruct (IH Hc) as (i & Hi & ->). exists i. split; [lia|done].
Qed.

Lemma elem_of_cascade_safes c M r :
  c ∈ cascade_safes M r → (∃ i, (i < r)%nat ∧ c = even_cell (2 * i)) ∨ c ∈ odds 0 M.
Proof.
  induction r as [|r IH]; cbn [cascade_safes]; [by right|].
  intros [->%elem_of_singleton|Hc]%elem_of_union.
  - left. exists r. split; [lia|done].
  - destruct (IH Hc) as [(i & Hi & ->)|Ho]; [|by right].
    left. exists i. split; [lia|done].
Qed.

Lemma links_front j M :
  (S (S j) < M)%nat →
  links j M = links (S (S (S j))) M ++ [link (S (S j)); link (S j); link j].
Proof.
  intros Hj. rewrite (links_snoc j M), (links_snoc (S j) M), (links_snoc (S (S j)) M) by lia.
  by rewrite <- !app_assoc.
Qed.

Lemma far_links c j M :
  (∀ m, (S (S (S j)) ≤ m ≤ M)%nat → c ≠ even_cell m) →
  Forall (fun s => c ∉ Sentence.cells s) (links (S (S (S j))) M).
Proof. apply links_absent. Qed.

(** Cleanup, elimination and cross check once the front link has lost its
    lower neighbour. *)
Lemma after_extraction M j fuel h w mv mi sf hollows :
  (S (S j) < M)%nat → (M ≤ fuel)%nat →
  Forall (fun s => Sentence.cells s = ∅) hollows →
  let st1 := mk h w mv mi sf
               (links (S (S (S j))) M
                ++ link (S (S j)) :: Sentence.mk {[even_cell (S (S j))]} 0 :: hollows) in
  match infer_outer fuel 0 (knowledge (set_knowledge (drop_empty (knowledge st1)) st1), true) with
  | None => None
  | Some (K3, changes3) =>
      Some (foldl cross_check
              (set_knowledge K3 (set_knowledge (drop_empty (knowledge st1)) st1), changes3)
              (elements (common_cells K3)))
  end
  = Some (mk h w mv mi sf
            (links (S (S (S j))) M
             ++ [link (S (S j)); Sentence.mk {[even_cell (S (S j))]} 0;
                 Sentence.mk {[even_cell (S (S (S j)))]} 1]), true).
Proof.
  intros Hj Hfuel Hh st1. unfold st1, set_knowledge.
  cbn [knowledge height width moves_made mines safes].
  rewrite drop_empty_app, (drop_empty_all (links _ _)) by apply links_nonempty.
  rewrite !drop_empty_keep.
  2:{ cbn [Sentence.cells]. rewrite size_singleton. lia. }
  2:{ rewrite size_link. lia. }
  assert (drop_empty hollows = []) as ->.
  { induction Hh as [|s K Hs _ IH]; [done|].
    unfold drop_empty in *. rewrite filter_cons, decide_False, IH; [done|].
    rewrite Hs, size_empty. lia. }
  rewrite infer_front by done.
  rewrite (common_cells_disjoint _ (Sentence.mk {[even_cell (S (S j))]} 0)
             (Sentence.mk {[even_cell (S (S (S j)))]} 1)).
  - by rewrite elements_empty.
  - apply elem_of_app. right. right. left.
  - apply elem_of_app. right. right. right. left.
  - cbn [Sentence.cells]. pose proof (even_succ_ne (S (S j))). set_solver.
Qed.

End Cascade.

Section Rounds.

Lemma round_cascade M r fuel :
  (2 * r + 3 ≤ M)%nat → (M ≤ fuel)%nat →
  update_round fuel (cascade M r) = Some (cascade M (S r), true).
Proof.
  intros Hr Hfuel. unfold update_round.
  assert (extract_step (cascade M r)
          = (mk 1 (2 * Z.of_nat M + 1) ({[even_cell 0]} ∪ odds 0 M)
               (cascade_mines (S r)) (cascade_safes M (S r))
               (links (S (S (S (2 * r)))) M
                ++ link (S (S (2 * r))) :: Sentence.mk {[even_cell (S (S (2 * r)))]} 0
                   :: [Sentence.mk ∅ 0; Sentence.mk ∅ 0; Sentence.mk ∅ 0]), true)) as ->.
  { unfold cascade. set (j := (2 * r)%nat) in *.
    rewrite (links_front j M) by lia. rewrite <- app_assoc. cbn [app].
    set (P := links (S (S (S j))) M).
    erewrite (extract_step_tail _ P); [|cbn [knowledge]; reflexivity|apply links_inert].
    cbn [length seq foldl].
    rewrite (extract_at_link _ _ _ _ _ P _ _ 0 (S (S j))) by done.
    rewrite (extract_at_link _ _ _ _ _ P _ _ 1 (S j)) by done.
    rewrite (extract_at_link _ _ _ _ _ P _ _ 2 j) by done.
    rewrite (extract_at_safe _ _ _ _ _ P _ _ 3 (even_cell j)).
    2:{ done. }
    2:{ intros [(i & Hi & Hc%even_cell_inj)|Hc]%elem_of_cascade_safes; [lia|].
        by apply even_not_in_odds in Hc. }
    2:{ apply far_links. intros m Hm H%even_cell_inj. lia. }
    cbn [map].
    rewrite (mark_safe_link_other _ (S (S j))), (mark_safe_link_other _ (S j)),
      mark_safe_link, mark_safe_single, mark_safe_other;
      try (intros H%even_cell_inj; lia).
    rewrite (extract_at_mine _ _ _ _ _ P _ _ 4 (even_cell (S j))).
    2:{ done. }
    2:{ intros (i & Hi & Hc%even_cell_inj)%elem_of_cascade_mines. lia. }
    2:{ apply far_links. intros m Hm H%even_cell_inj. lia. }
    cbn [map].
    rewrite (mark_mine_link_other _ (S (S j))), mark_mine_link, !mark_mine_single,
      mark_mine_hollow; try (intros H%even_cell_inj; lia).
    done. }
  cbv beta iota zeta.
  unfold cascade. replace (2 * S r)%nat with (S (S (2 * r))) by lia.
  rewrite (links_snoc (S (S (2 * r))) M) by lia. rewrite <- app_assoc. cbn [app].
  apply (after_extraction M (2 * r)); [lia|done|]. repeat constructor.
Qed.

Lemma round_trigger M fuel :
  (3 ≤ M)%nat → (M ≤ fuel)%nat →
  update_round fuel (triggered M) = Some (cascade M 1, true).
Proof.
  intros HM Hfuel. unfold update_round.
  assert (extract_step (triggered M)
          = (mk 1 (2 * Z.of_nat M + 1) ({[even_cell 0]} ∪ odds 0 M)
               (cascade_mines 1) (cascade_safes M 1)
               (links 3 M
                ++ link 2 :: Sentence.mk {[even_cell 2]} 0 :: [Sentence.mk ∅ 0]), true))
    as ->.
  { unfold triggered.
    rewrite (links_snoc 1 M), (links_snoc 2 M) by lia.
    rewrite <- !app_assoc. cbn [app].
    set (P := links 3 M).
    erewrite (extract_step_tail _ P); [|cbn [knowledge]; reflexivity|apply links_inert].
    cbn [length seq foldl].
    rewrite (extract_at_link _ _ _ _ _ P _ _ 0 2) by done.
    rewrite (extract_at_link _ _ _ _ _ P _ _ 1 1) by done.
    rewrite (extract_at_mine _ _ _ _ _ P _ _ 2 (even_cell 1)).
    2:{ done. }
    2:{ set_solver. }
    2:{ apply (far_links _ 0). intros m Hm H%even_cell_inj. lia. }
    cbn [map].
    rewrite (mark_mine_link_other _ 2), mark_mine_link, mark_mine_single;
      try (intros H%even_cell_inj; lia).
    done. }
  cbv beta iota zeta.
  unfold cascade. change (2 * 1)%nat with 2%nat.
  rewrite (links_snoc 2 M) by lia. rewrite <- app_assoc. cbn [app].
  apply (after_extraction M 0); [lia|done|]. repeat constructor.
Qed.

Lemma record_trigger M :
  (1 ≤ M)%nat → record_observation (even_cell 0) 0 (building M 0) = triggered M.
Proof.
  intros HM. unfold record_observation, building.
  cbn [mark_safe height width moves_made mines safes knowledge set_knowledge].
  rewrite (corridor_neighbors_origin _ M) by (done || lia).
  assert (({[odd_cell 0]} : gset Cell) ∖ ({[even_cell 0]} ∪ odds 0 M) ∖ ∅ = ∅) as ->.
  { assert (odd_cell 0 ∈ odds 0 M) as Ho
      by (apply elem_of_odds; exists 0%nat; split; [lia|done]).
    apply set_eq. intros c.
    rewrite !elem_of_difference, elem_of_singleton, elem_of_union, elem_of_empty.
    split; [|done]. intros [[-> Hn] _]. apply Hn. by right. }
  cbn [Sentence.cells]. rewrite decide_False by (rewrite size_empty; lia).
  unfold mark_safe, triggered. cbn [height width moves_made mines safes knowledge].
  rewrite (links_snoc 0 M) by lia.
  rewrite map_app, map_mark_safe_absent.
  2:{ apply links_absent. intros m Hm H%even_cell_inj. lia. }
  cbn [map]. by rewrite mark_safe_link.
Qed.

Lemma iterate_changed fuel n st st1 :
  update_round fuel st = Some (st1, true) →
  iterate fuel (S n) st = iterate fuel n st1.
Proof. intros H. cbn [iterate]. by rewrite H. Qed.

Lemma iterate_cascade M fuel n r :
  (2 * (r + n) + 1 ≤ M)%nat → (M ≤ fuel)%nat →
  iterate fuel n (cascade M r) = Some (cascade M (r + n), true).
Proof.
  revert r. induction n as [|n IH]; intros r Hr Hfuel.
  - by rewrite Nat.add_0_r.
  - rewrite (iterate_changed _ _ _ (cascade M (S r))) by (apply round_cascade; lia).
    rewrite IH by lia. do 3 f_equal. lia.
Qed.

Lemma cascade_mines_grow M r r' :
  (r < r')%nat → even_cell (S (2 * r)) ∈ mines (cascade M r') ∧
                 even_cell (S (2 * r)) ∉ mines (cascade M r).
Proof.
  intros Hr. unfold cascade; cbn [mines]. split.
  - induction r' as [|r' IH]; [lia|]. cbn [cascade_mines].
    destruct (decide (r = r')) as [->|]; [set_solver|].
    apply elem_of_union. right. apply IH. lia.
  - intros (i & Hi & H%even_cell_inj)%elem_of_cascade_mines. lia.
Qed.

End Rounds.

Section Truthful.

Lemma elem_of_corridor_mines M c :
  c ∈ Minesweeper.mines (corridor_board M)
  ↔ ∃ m, (m ≤ M)%nat ∧ Nat.odd m = true ∧ c = even_cell m.
Proof.
  unfold corridor_board; cbn [Minesweeper.mines].
  rewrite elem_of_list_to_set, list_elem_of_fmap. split.
  - intros (m & -> & [Hodd Hm%elem_of_seq]%list_elem_of_filter).
    exists m. split; [lia|]. split; [by apply Is_true_eq_true|done].
  - intros (m & Hm & Hodd & ->). exists m. split; [done|].
    apply list_elem_of_filter. split; [by apply Is_true_eq_left|].
    apply elem_of_seq. lia.
Qed.

(** The neighbour count one window cell at a time. *)
Lemma nearby_mines_skip g cell acc c l :
  c = cell ∨ ¬ ((0 ≤ c.1 ∧ c.1 < Minesweeper.height g) ∧ (0 ≤ c.2 ∧ c.2 < Minesweeper.width g))
  ∨ c ∉ Minesweeper.mines g →
  foldl (fun count c =>
           if decide (c = cell) then count
           else if decide ((0 ≤ c.1 ∧ c.1 < Minesweeper.height g)
                           ∧ (0 ≤ c.2 ∧ c.2 < Minesweeper.width g))
                then (if Minesweeper.is_mine g c then count + 1 else count)
                else count) acc (c :: l)
  = foldl (fun count c =>
           if decide (c = cell) then count
           else if decide ((0 ≤ c.1 ∧ c.1 < Minesweeper.height g)
                           ∧ (0 ≤ c.2 ∧ c.2 < Minesweeper.width g))
                then (if Minesweeper.is_mine g c then count + 1 else count)
                else count) acc l.
Proof.
  intros H. cbn [foldl]. f_equal.
  destruct (decide (c = cell)); [done|].
  destruct (decide _); [|done].
  unfold Minesweeper.is_mine. rewrite bool_decide_eq_false_2; [done|]. tauto.
Qed.

Lemma nearby_mines_hit g cell acc c l :
  c ≠ cell →
  (0 ≤ c.1 ∧ c.1 < Minesweeper.height g) ∧ (0 ≤ c.2 ∧ c.2 < Minesweeper.width g) →
  c ∈ Minesweeper.mines g →
  foldl (fun count c =>
           if decide (c = cell) then count
           else if decide ((0 ≤ c.1 ∧ c.1 < Minesweeper.height g)
                           ∧ (0 ≤ c.2 ∧ c.2 < Minesweeper.width g))
                then (if Minesweeper.is_mine g c then count + 1 else count)
                else count) acc (c :: l)
  = foldl (fun count c =>
           if decide (c = cell) then count
           else if decide ((0 ≤ c.1 ∧ c.1 < Minesweeper.height g)
                           ∧ (0 ≤ c.2 ∧ c.2 < Minesweeper.width g))
                then (if Minesweeper.is_mine g c then count + 1 else count)
                else count) (acc + 1) l.
Proof.
  intros H1 H2 H3. cbn [foldl]. f_equal.
  rewrite decide_False, decide_True by done.
  unfold Minesweeper.is_mine. by rewrite bool_decide_eq_true_2.
Qed.

Lemma corridor_mine_iff M m :
  (m ≤ M)%nat → even_cell m ∈ Minesweeper.mines (corridor_board M) ↔ Nat.odd m = true.
Proof.
  intros Hm. rewrite elem_of_corridor_mines. split.
  - by intros (m' & _ & Hodd & ->%even_cell_inj).
  - intros Hodd. by exists m.
Qed.

Lemma odd_not_corridor_mine M m : odd_cell m ∉ Minesweeper.mines (corridor_board M).
Proof.
  intros (m' & _ & _ & H)%elem_of_corridor_mines. symmetry in H.
  by apply even_odd_ne in H.
Qed.

Lemma corridor_count_odd M lo :
  (lo < M)%nat → Minesweeper.nearby_mines (corridor_board M) (odd_cell lo) = 1.
Proof.
  intros Hlo. unfold Minesweeper.nearby_mines, Minesweeper.window, odd_cell.
  cbn [mbind list_bind fst snd app mret].
  assert ((0, 2 * Z.of_nat lo + 1 - 1) = even_cell lo) as ->
    by (unfold even_cell; f_equal; lia).
  assert ((0, 2 * Z.of_nat lo + 1 + 1) = even_cell (S lo)) as ->
    by (unfold even_cell; f_equal; lia).
  do 3 rewrite nearby_mines_skip
    by (right; left; unfold corridor_board;
        cbn [fst snd Minesweeper.height Minesweeper.width]; lia).
  pose proof (corridor_mine_iff M lo ltac:(lia)) as Hlow.
  pose proof (corridor_mine_iff M (S lo) ltac:(lia)) as Hhigh.
  rewrite Nat.odd_succ, <- Nat.negb_odd in Hhigh.
  assert (∀ m, (m ≤ M)%nat →
    (0 ≤ (even_cell m).1 ∧ (even_cell m).1 < Minesweeper.height (corridor_board M))
    ∧ (0 ≤ (even_cell m).2 ∧ (even_cell m).2 < Minesweeper.width (corridor_board M)))
    as Hin.
  { intros m Hm. unfold corridor_board, even_cell.
    cbn [fst snd Minesweeper.height Minesweeper.width]. lia. }
  assert (∀ m, even_cell m ≠ (0, 2 * Z.of_nat lo + 1)) as Hne
    by (intros m; apply (even_odd_ne m lo)).
  destruct (Nat.odd lo) eqn:Hodd.
  - rewrite nearby_mines_hit; [|apply Hne|apply Hin; lia|by apply Hlow].
    rewrite nearby_mines_skip by by left.
    rewrite nearby_mines_skip.
    2:{ right; right. intros H%Hhigh. done. }
    do 3 rewrite nearby_mines_skip
      by (right; left; unfold corridor_board;
          cbn [fst snd Minesweeper.height Minesweeper.width]; lia).
    done.
  - rewrite nearby_mines_skip.
    2:{ right; right. intros H%Hlow. done. }
    rewrite nearby_mines_skip by by left.
    rewrite nearby_mines_hit; [|apply Hne|apply Hin; lia|by apply Hhigh].
    do 3 rewrite nearby_mines_skip
      by (right; left; unfold corridor_board;
          cbn [fst snd Minesweeper.height Minesweeper.width]; lia).
    done.
Qed.

Lemma corridor_count_origin M :
  Minesweeper.nearby_mines (corridor_board M) (even_cell 0) = 0.
Proof.
  unfold Minesweeper.nearby_mines, Minesweeper.window, even_cell.
  cbn [mbind list_bind fst snd app mret].
  do 4 rewrite nearby_mines_skip
    by (right; left; unfold corridor_board;
        cbn [fst snd Minesweeper.height Minesweeper.width]; lia).
  rewrite nearby_mines_skip by (left; f_equal; lia).
  rewrite nearby_mines_skip.
  2:{ right; right.
      assert ((0, 2 * Z.of_nat 0 + 1) = odd_cell 0) as -> by done.
      apply odd_not_corridor_mine. }
  do 3 rewrite nearby_mines_skip
    by (right; left; unfold corridor_board;
        cbn [fst snd Minesweeper.height Minesweeper.width]; lia).
  done.
Qed.

Lemma building_pre M lo :
  (lo < M)%nat → played_on (corridor_board M) (building M (S lo)) (odd_cell lo) 1.
Proof.
  intros Hlo.
  assert (in_bounds (building M (S lo)) (odd_cell lo)) as Hin.
  { unfold in_bounds, building, odd_cell. cbn [fst snd height width]. lia. }
  assert (odd_cell lo ∉ moves_made (building M (S lo))) as Hfresh.
  { unfold building; cbn [moves_made].
    intros (m & Hm & H%odd_cell_inj)%elem_of_odds. lia. }
  split.
  - unfold precondition. cbv zeta.
    rewrite (corridor_neighbors_odd _ M lo) by done.
    split; [done|]. split; [done|]. split; [lia|].
    unfold building; cbn [mines safes].
    assert (({[even_cell lo; even_cell (S lo)]} : gset Cell) ∩ ∅ = ∅) as ->
      by set_solver.
    assert ({[even_cell lo; even_cell (S lo)]} ∖ odds (S lo) M ∖ ∅
            = Sentence.cells (link lo)) as ->.
    { unfold link; cbn [Sentence.cells].
      pose proof (even_not_in_odds lo (S lo) M).
      pose proof (even_not_in_odds (S lo) (S lo) M). set_solver. }
    rewrite size_empty, size_link. lia.
  - unfold truthful. do 4 (split; [done|]). split.
    + apply odd_not_corridor_mine.
    + by rewrite corridor_count_odd.
Qed.

Lemma trigger_pre M :
  (1 ≤ M)%nat → played_on (corridor_board M) (building M 0) (even_cell 0) 0.
Proof.
  intros HM.
  assert (in_bounds (building M 0) (even_cell 0)) as Hin.
  { unfold in_bounds, building, even_cell. cbn [fst snd height width]. lia. }
  assert (even_cell 0 ∉ moves_made (building M 0)) as Hfresh.
  { unfold building; cbn [moves_made]. apply even_not_in_odds. }
  split.
  - unfold precondition. cbv zeta.
    rewrite (corridor_neighbors_origin _ M) by (done || lia).
    split; [done|]. split; [done|]. split; [lia|].
    unfold building; cbn [mines safes].
    assert (({[odd_cell 0]} : gset Cell) ∩ ∅ = ∅) as -> by set_solver.
    rewrite size_empty. lia.
  - unfold truthful. do 4 (split; [done|]). split.
    + intros H%(corridor_mine_iff M 0); [done|lia].
    + by rewrite corridor_count_origin.
Qed.

End Truthful.

(** * The corridor, end to end *)

Section Long.

Lemma corridor_session M :
  session (played_on (corridor_board M)) (init 1 (2 * Z.of_nat M + 1))
          (corridor_calls 0 M) (building M 0).
Proof.
  apply (building_session _ M (fun lo Hlo => building_pre M lo Hlo) M 0). lia.
Qed.

Lemma iterate_trigger M fuel :
  (201 ≤ M)%nat → (M ≤ fuel)%nat →
  iterate fuel max_iterations (record_observation (even_cell 0) 0 (building M 0))
  = Some (cascade M 100, true).
Proof.
  intros HM Hfuel. rewrite record_trigger by lia.
  unfold max_iterations. change 100%nat with (S 99).
  rewrite (iterate_changed _ _ _ (cascade M 1)) by (apply round_trigger; lia).
  by rewrite iterate_cascade by lia.
Qed.

Lemma iterate_again M fuel :
  (401 ≤ M)%nat → (M ≤ fuel)%nat →
  iterate fuel max_iterations (cascade M 100) = Some (cascade M 200, true).
Proof.
  intros HM Hfuel. unfold max_iterations. by rewrite iterate_cascade by lia.
Qed.

Lemma long_session :
  session (played_on long_board) (init 1 (2 * Z.of_nat long + 1)) long_calls
          (cascade long 100).
Proof.
  unfold long_calls. eapply session_call.
  - apply corridor_session.
  - apply trigger_pre. unfold long. lia.
  - exists long. unfold add_knowledge, update_knowledge.
    rewrite iterate_trigger; [done|unfold long; lia|done].
Qed.

Lemma changing_iterate fuel n st st' ch :
  iterate fuel n st = Some (st', ch) →
  if ch then changing fuel n st st'
  else ∃ k st_k, (k < n)%nat ∧ changing fuel k st st_k ∧
                 update_round fuel st_k = Some (st', false).
Proof.
  revert st. induction n as [|n IH]; intros st; cbn [iterate].
  - intros [= <- <-]. constructor.
  - destruct (update_round fuel st) as [[st1 ch1]|] eqn:Hr; [|done].
    destruct ch1.
    + intros Hi. specialize (IH _ Hi). destruct ch.
      * by econstructor.
      * destruct IH as (k & st_k & Hk & Hch & Hlast).
        exists (S k), st_k. split; [lia|]. split; [by econstructor|done].
    + intros [= <- <-]. exists 0%nat, st. split; [lia|]. split; [constructor|done].
Qed.

End Long.

(** * Properties of the derivation loop *)

Lemma settled_loop_idempotent_witness :
  update_knowledge 5 (record_observation (0, 0) 1 (init 2 2)) = Some corner_first ∧
  update_knowledge 5 corner_first = Some corner_first ∧
  iterate 5 max_iterations corner_first = Some (corner_first, false).
Proof.
  apply (settled_loop_idempotent 5 (record_observation (0, 0) 1 (init 2 2)) corner_first).
  vm_compute. reflexivity.
Defined.

(** C4 (as stated) fails.  The calls of the corridor are well formed: each
    meets the preconditions of the specification and is the answer of the
    board.  The derivation loop of the last call stops at the cap; run again
    with no observation in between, it classifies further cells, the first
    of them the mine of column 402. *)
Lemma capped_loop_not_idempotent :
  session (played_on long_board) (init 1 (2 * Z.of_nat long + 1)) long_calls
          (cascade long 100) ∧
  update_knowledge long (cascade long 100) = Some (cascade long 200) ∧
  even_cell 201 ∈ mines (cascade long 200) ∧
  even_cell 201 ∉ mines (cascade long 100).
Proof.
  split; [apply long_session|]. split.
  - unfold update_knowledge. rewrite iterate_again; [done|unfold long; lia|done].
  - apply (cascade_mines_grow long 100 200). lia.
Qed.

(** C5 (as stated) fails.  On the corridor, whose calls are well formed, the
    loop of the last call is stopped by the cap: its hundredth round still
    reports a change, and so would the next one. *)
Lemma cap_binds_on_corridor :
  session (played_on long_board) (init 1 (2 * Z.of_nat long + 1))
          (corridor_calls 0 long) (building long 0) ∧
  played_on long_board (building long 0) (even_cell 0) 0 ∧
  iterate long max_iterations (record_observation (even_cell 0) 0 (building long 0))
  = Some (cascade long 100, true) ∧
  update_round long (cascade long 100) = Some (cascade long 101, true).
Proof.
  split; [apply corridor_session|]. split; [apply trigger_pre; unfold long; lia|].
  split.
  - apply iterate_trigger; [unfold long; lia|done].
  - apply round_cascade; [unfold long; lia|done].
Qed.

(** * The empty sentence and the duplicate *)

(** C2 fails on the code.  The two calls on the 2 x 2 board are well formed.
    When the second call enters the loop the collection holds the same
    sentence twice; every round derives the empty sentence from the pair
    after the cleanup has run, so every round reports a change, and the
    collection returned holds a sentence without cells. *)
Theorem hollow_sentence_kept :
  session (played_on corner_board) (init 2 2) corner_calls corner_end ∧
  update_round 5 corner_entry = Some (corner_end, true) ∧
  update_round 5 corner_end = Some (corner_end, true) ∧
  hollow ∈ knowledge corner_end ∧
  size (Sentence.cells hollow) = 0%nat.
Proof.
  split; [apply (replay_session (played_on corner_board) 5); vm_compute; reflexivity|].
  split; [vm_compute; reflexivity|]. split; [vm_compute; reflexivity|].
  split; [|done]. unfold corner_end; cbn [knowledge]. set_solver.
Qed.

(** C10 fails on the code.  After the same two calls the collection returned
    holds two equal sentences, at positions 0 and 1, and an empty one:
    [add_knowledge] appends its sentence without the membership test of the
    elimination pass, and the elimination pass appends without the emptiness
    test of [add_knowledge]. *)
Theorem duplicate_and_hollow_kept :
  session (played_on corner_board) (init 2 2) corner_calls corner_end ∧
  knowledge corner_end !! 0%nat = Some twin ∧
  knowledge corner_end !! 1%nat = Some twin ∧
  knowledge corner_end !! 2%nat = Some hollow ∧
  Sentence.cells hollow = ∅ ∧
  ¬ NoDup (knowledge corner_end).
Proof.
  split; [apply (replay_session (played_on corner_board) 5); vm_compute; reflexivity|].
  do 4 (split; [done|]).
  unfold corner_end; cbn [knowledge]. intros Hnd.
  apply NoDup_cons in Hnd as [Hin _]. apply Hin. left.
Qed.

(** * A pass that never ends *)

Section Divergence.

Lemma infer_hollow a s :
  infer_from_sentences (Sentence.mk ∅ a) s
  = Some (Sentence.mk (Sentence.cells s ∖ ∅) (Sentence.count s - a)).
Proof.
  unfold infer_from_sentences. cbn [Sentence.cells Sentence.count].
  destruct (decide _) as [|Hn]; [done|]. exfalso. apply Hn. set_solver.
Qed.

(** What the inner loop leaves: the list it started from, followed by
    sentences derived from the head and a member of the slice; and every
    sentence so derived is in the list. *)
Lemma infer_fold_spec h l acc :
  (∃ N, (foldl (infer_pair h) acc l).1 = acc.1 ++ N) ∧
  (∀ t s, t ∈ l → infer_from_sentences h t = Some s →
          s ∈ (foldl (infer_pair h) acc l).1).
Proof.
  revert acc. induction l as [|t0 l IH]; intros acc; cbn [foldl].
  { split; [exists []; by rewrite app_nil_r|]. intros t s Ht. by apply elem_of_nil in Ht. }
  destruct (IH (infer_pair h acc t0)) as [[N HN] Hin].
  assert (∃ N0, (infer_pair h acc t0).1 = acc.1 ++ N0 ∧
                ∀ s, infer_from_sentences h t0 = Some s → s ∈ (infer_pair h acc t0).1)
    as (N0 & HN0 & Hs0).
  { unfold infer_pair. destruct (infer_from_sentences h t0) as [s0|]; [|by exists [];
      rewrite app_nil_r].
    destruct (decide (s0 ∈ acc.1)) as [Hd|Hd].
    - exists []. rewrite app_nil_r. split; [done|]. by intros s [= <-].
    - exists [s0]. cbn [fst]. split; [done|]. intros s [= <-]. set_solver. }
  split.
  - exists (N0 ++ N). rewrite HN, HN0. by rewrite app_assoc.
  - intros t s Ht Hs. apply elem_of_cons in Ht as [->|Ht]; [|by eapply Hin].
    rewrite HN. apply elem_of_app. left. by apply Hs0.
Qed.

Lemma extreme_exists σ (L : list Sentence.t) :
  Exists (fun s => Sentence.cells s = ∅) L →
  ∃ j v, hollow_at L j v ∧ extreme σ L v.
Proof.
  induction L as [|s L IH]; intros Hex; [by apply Exists_nil in Hex|].
  destruct (decide (Exists (fun s => Sentence.cells s = ∅) L)) as [HL|HL].
  - destruct (IH HL) as (j & v & Hj & Hv).
    destruct (decide (Sentence.cells s = ∅ ∧ σ * Sentence.count s < σ * v)) as [[Hc Hlt]|Hn].
    + exists 0%nat, (Sentence.count s). split.
      * unfold hollow_at. cbn. destruct s as [c n]; cbn in *. by subst.
      * apply Forall_cons. split; [lia|].
        eapply Forall_impl; [exact Hv|]. cbn. intros x Hx Hcx. specialize (Hx Hcx). lia.
    + exists (S j), v. split; [exact Hj|].
      apply Forall_cons. split; [|exact Hv]. intros Hc.
      destruct (decide (σ * Sentence.count s < σ * v)); [|lia]. exfalso. by apply Hn.
  - apply Exists_cons in Hex as [Hc|Hex]; [|done].
    exists 0%nat, (Sentence.count s). split.
    + unfold hollow_at. cbn. destruct s as [c n]; cbn in *. by subst.
    + apply Forall_cons. split; [lia|].
      apply Forall_forall. intros x Hx Hcx. exfalso. apply HL.
      apply Exists_exists. by exists x.
Qed.

Lemma hollow_at_elem K j v : hollow_at K j v → Sentence.mk ∅ v ∈ K.
Proof. intros H. by eapply list_elem_of_lookup_2. Qed.

Lemma extreme_bound σ K v u : extreme σ K v → Sentence.mk ∅ u ∈ K → σ * v ≤ σ * u.
Proof.
  intros Hv Hu. unfold extreme in Hv. rewrite Forall_forall in Hv.
  by apply (Hv _ Hu).
Qed.

(** One iteration of the outer loop keeps each half of the invariant, with
    the help of the other half. *)
Lemma pending_step σ i K h ch :
  σ = 1 ∨ σ = -1 →
  pending σ i K → pending (- σ) i K → K !! i = Some h →
  pending σ (S i) (foldl (infer_pair h) (K, ch) (drop (S i) K)).1.
Proof.
  intros Hσ (p & a & j & v & Hpj & Hp & Ha & Hj & Hv) (n & b & jm & vm & Hnj & Hn & Hb & Hjm & Hvm) Hh.
  destruct (infer_fold_spec h (drop (S i) K) (K, ch)) as [[N HN] Hin].
  cbn [fst] in HN. set (K' := (foldl (infer_pair h) (K, ch) (drop (S i) K)).1) in *.
  assert (∀ k u, hollow_at K k u → hollow_at K' k u) as Hkeep.
  { intros k u Hk. unfold hollow_at. rewrite HN. by apply lookup_app_l_Some. }
  assert (∀ k u, hollow_at K k u → (k < length K)%nat) as Hlen.
  { intros k u Hk. by eapply lookup_lt_Some. }
  destruct (decide (Exists (fun s => Sentence.cells s = ∅ ∧ σ * Sentence.count s < σ * v) K'))
    as [Hlow|Hlow].
  - assert (Exists (fun s => Sentence.cells s = ∅) K') as Hex.
    { eapply Exists_impl; [exact Hlow|]. by intros s [Hs _]. }
    destruct (extreme_exists σ K' Hex) as (j' & v' & Hj' & Hv').
    assert (length K ≤ j')%nat as Hnew.
    { destruct (decide (length K ≤ j')%nat) as [|Hlt]; [done|]. exfalso.
      assert (hollow_at K j' v') as Hold.
      { unfold hollow_at in *. rewrite HN in Hj'. rewrite lookup_app_l in Hj' by lia. done. }
      pose proof (extreme_bound _ _ _ _ Hv (hollow_at_elem _ _ _ Hold)) as Hb1.
      apply Exists_exists in Hlow as (s & Hs & Hcs & Hlt').
      unfold extreme in Hv'. rewrite Forall_forall in Hv'.
      specialize (Hv' s Hs Hcs). lia. }
    destruct (decide (p = i)) as [->|Hpi].
    + exists jm, vm, j', v'. split; [pose proof (Hlen _ _ Hjm); lia|].
      split; [by apply Hkeep|]. split; [|by split].
      pose proof (extreme_bound _ _ _ _ Hvm (hollow_at_elem _ _ _ Hp)). lia.
    + exists p, a, j', v'. split; [pose proof (Hlen _ _ Hp); lia|].
      split; [by apply Hkeep|]. done.
  - assert (p ≠ i) as Hpi.
    { intros ->. apply Hlow. apply Exists_exists.
      exists (Sentence.mk (∅ ∖ ∅) (v - a)). split; [|split].
      - apply (Hin (Sentence.mk ∅ v)).
        + apply list_elem_of_lookup. exists (j - S i)%nat. rewrite lookup_drop.
          replace (S i + (j - S i))%nat with j by lia. exact Hj.
        + unfold hollow_at in Hp. rewrite Hh in Hp. injection Hp as ->.
          by rewrite infer_hollow.
      - cbn. set_solver.
      - cbn. lia. }
    exists p, a, j, v. split; [lia|]. split; [by apply Hkeep|]. split; [done|].
    split; [by apply Hkeep|].
    apply Forall_forall. intros s Hs Hcs.
    destruct (decide (σ * Sentence.count s < σ * v)) as [Hlt|]; [|lia].
    exfalso. apply Hlow. apply Exists_exists. by exists s.
Qed.

Lemma restless_step i K h ch :
  restless i K → K !! i = Some h →
  restless (S i) (foldl (infer_pair h) (K, ch) (drop (S i) K)).1.
Proof.
  intros [Hpos Hneg] Hh. split.
  - apply pending_step; [by left|done|done|done].
  - apply pending_step; [by right|done|done|done].
Qed.

(** The pass never runs out of sentences from a restless list. *)
Lemma restless_diverges fuel : ∀ i K ch,
  restless i K → infer_outer fuel i (K, ch) = None.
Proof.
  induction fuel as [|fuel IH]; intros i K ch Hr.
  - destruct Hr as [(p & a & j & v & Hpj & Hp & _) _].
    assert (is_Some (K !! i)) as [h Hh].
    { apply lookup_lt_is_Some. apply lookup_lt_Some in Hp. lia. }
    cbn. by rewrite Hh.
  - pose proof Hr as [(p & a & j & v & Hpj & Hp & _) _].
    assert (is_Some (K !! i)) as [h Hh].
    { apply lookup_lt_is_Some. apply lookup_lt_Some in Hp. lia. }
    cbn [infer_outer fst]. rewrite Hh.
    pose proof (restless_step i K h ch Hr Hh) as Hr'.
    destruct (foldl (infer_pair h) (K, ch) (drop (S i) K)) as [K' ch'] eqn:HK'.
    by apply IH.
Qed.

Lemma infer_steps_diverges k : ∀ i acc,
  (∀ fuel, infer_outer fuel (k + i) (infer_steps k i acc) = None) →
  ∀ fuel, infer_outer fuel i acc = None.
Proof.
  induction k as [|k IH]; intros i acc H fuel; [apply H|].
  cbn [infer_steps] in H.
  destruct (acc.1 !! i) as [h|] eqn:Hh.
  - destruct fuel as [|fuel]; cbn [infer_outer]; rewrite Hh; [done|].
    apply IH. intros f. replace (k + S i)%nat with (S k + i)%nat by lia. apply H.
  - specialize (H 0%nat). destruct acc as [K ch]. cbn [fst] in *.
    assert (K !! (S k + i)%nat = None) as Hn.
    { apply lookup_ge_None. apply lookup_ge_None in Hh. lia. }
    destruct (S k + i)%nat; cbn in H; cbn [fst] in *; rewrite Hn in H; done.
Qed.

Lemma conflict_seed_restless :
  restless 17 (infer_steps 17 0 (conflict_seed, false)).1.
Proof.
  split.
  - exists 17%nat, 14, 86%nat, (-54).
    split; [lia|]. split; [vm_compute; reflexivity|]. split; [lia|].
    split; [vm_compute; reflexivity|].
    unfold extreme. apply (bool_decide_unpack _). vm_compute. reflexivity.
  - exists 32%nat, (-16), 101%nat, 44.
    split; [lia|]. split; [vm_compute; reflexivity|]. split; [lia|].
    split; [vm_compute; reflexivity|].
    unfold extreme. apply (bool_decide_unpack _). vm_compute. reflexivity.
Qed.

Lemma conflict_seed_diverges fuel : infer_outer fuel 0 (conflict_seed, false) = None.
Proof.
  revert fuel. apply (infer_steps_diverges 17). intros fuel.
  destruct (infer_steps 17 0 (conflict_seed, false)) as [K ch] eqn:HK.
  apply restless_diverges. pose proof conflict_seed_restless as Hr.
  by rewrite HK in Hr.
Qed.

End Divergence.

(** * Calls that are not checked *)

Section Unchecked.

Lemma note_mine_length acc c :
  length (knowledge (note_mine acc c).1) = length (knowledge acc.1).
Proof. unfold note_mine. case_decide; [done|]. cbn. by rewrite length_map. Qed.

Lemma note_safe_length acc c :
  length (knowledge (note_safe acc c).1) = length (knowledge acc.1).
Proof. unfold note_safe. case_decide; [done|]. cbn. by rewrite length_map. Qed.

Lemma foldl_length {C : Type} (f : t * bool → C → t * bool) l acc :
  (∀ a c, length (knowledge (f a c).1) = length (knowledge a.1)) →
  length (knowledge (foldl f acc l).1) = length (knowledge acc.1).
Proof.
  intros Hf.
  apply (foldl_invariant (fun a => length (knowledge a.1) = length (knowledge acc.1))); [done|].
  intros a c _ Ha. by rewrite Hf.
Qed.

Lemma extract_at_length acc k :
  length (knowledge (extract_at acc k).1) = length (knowledge acc.1).
Proof.
  unfold extract_at. destruct (knowledge acc.1 !! k); [|done].
  rewrite (foldl_length note_safe) by apply note_safe_length.
  by rewrite (foldl_length note_mine) by apply note_mine_length.
Qed.

Lemma cross_check_length acc c :
  length (knowledge (cross_check acc c).1) = length (knowledge acc.1).
Proof.
  unfold cross_check.
  destruct (all_full _ _); [apply note_mine_length|].
  destruct (all_zero _ _); [apply note_safe_length|done].
Qed.

Lemma drop_empty_length K : (length (drop_empty K) ≤ length K)%nat.
Proof. apply length_filter. Qed.

(** With one sentence at most there is no pair to compare. *)
Lemma infer_outer_short K ch :
  (length K ≤ 1)%nat → infer_outer 1 0 (K, ch) = Some (K, ch).
Proof.
  intros HK. destruct K as [|s [|s' K]]; [done|done|]. cbn in HK. lia.
Qed.

Lemma update_round_short st :
  (length (knowledge st) ≤ 1)%nat →
  ∃ st' ch, update_round 1 st = Some (st', ch) ∧ (length (knowledge st') ≤ 1)%nat.
Proof.
  intros Hst. unfold update_round.
  pose proof (foldl_length extract_at (seq 0 (length (knowledge st))) (st, false)
                extract_at_length) as H1.
  fold (extract_step st) in H1. cbn [fst] in H1.
  destruct (extract_step st) as [st1 ch1]. cbn [fst] in H1.
  pose proof (drop_empty_length (knowledge st1)) as H2.
  cbn [set_knowledge knowledge].
  rewrite infer_outer_short by lia.
  destruct (foldl cross_check _ _) as [st' ch] eqn:Hc.
  exists st', ch. split; [done|].
  pose proof (foldl_length cross_check (elements (common_cells (drop_empty (knowledge st1))))
                (set_knowledge (drop_empty (knowledge st1))
                   (set_knowledge (drop_empty (knowledge st1)) st1), ch1)
                cross_check_length) as H4.
  rewrite Hc in H4. cbn in H4. lia.
Qed.

Lemma iterate_short n : ∀ st,
  (length (knowledge st) ≤ 1)%nat → is_Some (iterate 1 n st).
Proof.
  induction n as [|n IH]; intros st Hst; [done|].
  cbn [iterate].
  destruct (update_round_short st Hst) as (st' & ch & -> & Hst').
  destruct ch; [by apply IH|done].
Qed.

Lemma record_observation_short cell count st :
  knowledge st = [] → (length (knowledge (record_observation cell count st)) ≤ 1)%nat.
Proof.
  intros HK. unfold record_observation. cbn. rewrite HK.
  case_decide; cbn; lia.
Qed.

Lemma record_observation_cell cell count st :
  cell ∈ moves_made (record_observation cell count st) ∧
  cell ∈ safes (record_observation cell count st).
Proof. unfold record_observation. case_decide; cbn; set_solver. Qed.

Lemma conflict_round fuel : update_round fuel conflict_entry = None.
Proof.
  unfold update_round.
  replace (extract_step conflict_entry) with (conflict_entry, false)
    by (vm_compute; reflexivity).
  replace (knowledge (set_knowledge (drop_empty (knowledge conflict_entry)) conflict_entry))
    with conflict_seed by (vm_compute; reflexivity).
  by rewrite conflict_seed_diverges.
Qed.

Lemma conflict_call fuel : add_knowledge fuel (0, 0) 3 corner_end = None.
Proof.
  unfold add_knowledge.
  replace (record_observation (0, 0) 3 corner_end) with conflict_entry
    by (vm_compute; reflexivity).
  unfold update_knowledge, max_iterations. cbn [iterate].
  by rewrite conflict_round.
Qed.

End Unchecked.

(** C8 (amended).  [add_knowledge] checks nothing.  For every cell, in
    bounds or not, observed before or not, and every integer count, the cell
    is recorded in [moves_made] and in [safes] before the derivation loop
    starts, and it is in both sets of whatever engine the call returns; on
    an engine that holds no sentence the call does return, whatever the cell
    and the count. *)
Theorem add_knowledge_unchecked (cell : Cell) (count : Z) :
  (∀ st, cell ∈ moves_made (record_observation cell count st) ∧
         cell ∈ safes (record_observation cell count st)) ∧
  (∀ fuel st st', add_knowledge fuel cell count st = Some st' →
                  cell ∈ moves_made st' ∧ cell ∈ safes st') ∧
  (∀ st, knowledge st = [] → ∃ st', add_knowledge 1 cell count st = Some st').
Proof.
  split; [intros st; apply record_observation_cell|]. split.
  - intros fuel st st' Hcall.
    destruct (record_observation_cell cell count st) as [Hm Hs].
    apply update_knowledge_grows in Hcall as (Hmm & Hss & _). set_solver.
  - intros st HK. unfold add_knowledge, update_knowledge.
    destruct (iterate_short max_iterations (record_observation cell count st)) as [[st' ch] ->].
    + by apply record_observation_short.
    + by exists st'.
Qed.

Lemma add_knowledge_unchecked_witness :
  ((-5, 7) ∈ safes (record_observation (-5, 7) (-3) (init 2 2))) ∧
  ∃ st', add_knowledge 1 (-5, 7) (-3) (init 2 2) = Some st'.
Proof.
  split.
  - apply (proj1 (add_knowledge_unchecked (-5, 7) (-3))).
  - apply (proj2 (proj2 (add_knowledge_unchecked (-5, 7) (-3)))). reflexivity.
Defined.

(** C8 (as stated) fails.  After the two observations of the corner game a
    third call on the cell [(0, 0)], with the count 3, is accepted and never
    returns: no number of iterations exhausts the list of its first
    subset-elimination pass. *)
Lemma conflicting_call_never_returns :
  session (played_on corner_board) (init 2 2) corner_calls corner_end ∧
  (∀ fuel, add_knowledge fuel (0, 0) 3 corner_end = None).
Proof.
  split; [apply (replay_session (played_on corner_board) 5); vm_compute; reflexivity|].
  apply conflict_call.
Qed.

(** * What the engine knows is true of the board *)

Section Sound.
Context (M : gset Cell).

Lemma size_inter_remove (X : gset Cell) c :
  c ∈ X → c ∈ M →
  Z.of_nat (size ((X ∖ {[c]}) ∩ M)) = Z.of_nat (size (X ∩ M)) - 1.
Proof.
  intros HX HM.
  assert (X ∩ M = {[c]} ∪ (X ∖ {[c]}) ∩ M) as ->.
  { apply set_eq. intros x. destruct (decide (x = c)); set_solver. }
  rewrite (size_union (C:=gset Cell) {[c]}) by set_solver.
  rewrite size_singleton. lia.
Qed.

Lemma size_inter_difference (A B : gset Cell) :
  A ⊆ B →
  Z.of_nat (size ((B ∖ A) ∩ M)) = Z.of_nat (size (B ∩ M)) - Z.of_nat (size (A ∩ M)).
Proof.
  intros HAB.
  assert (B ∩ M = (A ∩ M) ∪ (B ∖ A) ∩ M) as ->.
  { apply set_eq. intros x. destruct (decide (x ∈ A)); set_solver. }
  rewrite (size_union (C:=gset Cell) (A ∩ M)) by set_solver. lia.
Qed.

Lemma full_inter_subseteq (X : gset Cell) :
  size (X ∩ M) = size X → X ⊆ M.
Proof.
  intros Hs.
  assert (X ∩ M = X) as Heq.
  { apply (set_subseteq_size_eq (C:=gset Cell)); [set_solver|lia]. }
  set_solver.
Qed.

Lemma empty_inter_disjoint (X : gset Cell) :
  size (X ∩ M) = 0%nat → X ## M.
Proof. intros Hs. apply (size_empty_inv (C:=gset Cell)) in Hs. set_solver. Qed.

Lemma known_mines_true s : true_on M s → Sentence.known_mines s ⊆ M.
Proof.
  unfold true_on, Sentence.known_mines. intros Hs.
  case_decide as Hd; [|set_solver]. apply full_inter_subseteq. lia.
Qed.

Lemma known_safes_true s : true_on M s → Sentence.known_safes s ## M.
Proof.
  unfold true_on, Sentence.known_safes. intros Hs.
  case_decide as Hd; [|set_solver]. apply empty_inter_disjoint. lia.
Qed.

Lemma sentence_mark_mine_true c s :
  c ∈ M → true_on M s → true_on M (Sentence.mark_mine c s).
Proof.
  unfold true_on, Sentence.mark_mine. intros Hc Hs.
  case_decide; [|done]. cbn. rewrite size_inter_remove by done. lia.
Qed.

Lemma sentence_mark_safe_true c s :
  c ∉ M → true_on M s → true_on M (Sentence.mark_safe c s).
Proof.
  unfold true_on, Sentence.mark_safe. intros Hc Hs.
  case_decide; [|done]. cbn.
  assert ((Sentence.cells s ∖ {[c]}) ∩ M = Sentence.cells s ∩ M) as -> by set_solver.
  done.
Qed.

Lemma infer_true s1 s2 s :
  infer_from_sentences s1 s2 = Some s →
  true_on M s1 → true_on M s2 → true_on M s.
Proof.
  unfold infer_from_sentences, true_on. intros Hs H1 H2.
  destruct (decide _) as [Hsub|_].
  - simplify_eq. cbn. rewrite size_inter_difference by done. lia.
  - destruct (decide _) as [Hsub|_]; [|done].
    simplify_eq. cbn. rewrite size_inter_difference by done. lia.
Qed.

Lemma mark_mine_sound c st : c ∈ M → sound M st → sound M (mark_mine c st).
Proof.
  intros Hc (HK & Hm & Hs). split; [|split]; cbn; [|set_solver|done].
  rewrite Forall_map. eapply Forall_impl; [exact HK|].
  intros s Hs'. by apply sentence_mark_mine_true.
Qed.

Lemma mark_safe_sound c st : c ∉ M → sound M st → sound M (mark_safe c st).
Proof.
  intros Hc (HK & Hm & Hs). split; [|split]; cbn; [|done|set_solver].
  rewrite Forall_map. eapply Forall_impl; [exact HK|].
  intros s Hs'. by apply sentence_mark_safe_true.
Qed.

Lemma note_mines_sound l acc :
  sound M acc.1 → (∀ c, c ∈ l → c ∈ M) → sound M (foldl note_mine acc l).1.
Proof.
  intros Hacc Hl. apply (foldl_invariant (fun a => sound M a.1)); [done|].
  intros a c Hc Ha. unfold note_mine. case_decide; [done|].
  apply mark_mine_sound; auto.
Qed.

Lemma note_safes_sound l acc :
  sound M acc.1 → (∀ c, c ∈ l → c ∉ M) → sound M (foldl note_safe acc l).1.
Proof.
  intros Hacc Hl. apply (foldl_invariant (fun a => sound M a.1)); [done|].
  intros a c Hc Ha. unfold note_safe. case_decide; [done|].
  apply mark_safe_sound; auto.
Qed.

Lemma extract_at_sound acc k : sound M acc.1 → sound M (extract_at acc k).1.
Proof.
  unfold extract_at. destruct (knowledge acc.1 !! k) as [s|] eqn:Hk; [|done].
  intros Hacc.
  assert (true_on M s) as Hs.
  { destruct Hacc as [HK _]. eapply Forall_lookup_1; [exact HK|exact Hk]. }
  apply note_safes_sound.
  - apply note_mines_sound; [done|].
    intros c Hc%elem_of_elements. by apply (known_mines_true s).
  - intros c Hc%elem_of_elements. pose proof (known_safes_true s Hs). set_solver.
Qed.

Lemma extract_step_sound st : sound M st → sound M (extract_step st).1.
Proof.
  intros H. apply (foldl_invariant (fun a => sound M a.1));
    auto using extract_at_sound.
Qed.

Lemma infer_pair_true s1 acc s2 :
  true_on M s1 → true_on M s2 →
  Forall (true_on M) acc.1 → Forall (true_on M) (infer_pair s1 acc s2).1.
Proof.
  intros H1 H2 Hacc. unfold infer_pair.
  destruct (infer_from_sentences s1 s2) as [s|] eqn:Hs; [|done].
  destruct (decide _); [done|]. cbn.
  apply Forall_app; split; [done|].
  apply Forall_singleton. by eapply infer_true.
Qed.

Lemma infer_outer_true fuel i acc res :
  infer_outer fuel i acc = Some res →
  Forall (true_on M) acc.1 → Forall (true_on M) res.1.
Proof.
  revert i acc. induction fuel as [|fuel IH]; intros i acc; simpl.
  - destruct (acc.1 !! i); [done|]. by intros [= <-].
  - destruct (acc.1 !! i) as [s1|] eqn:Hi; [|by intros [= <-]].
    intros Hres Hacc. apply IH in Hres; [done|].
    assert (true_on M s1) as Hs1.
    { eapply Forall_lookup_1; [exact Hacc|exact Hi]. }
    apply (foldl_invariant (fun a => Forall (true_on M) a.1)); [done|].
    intros a s2 Hs2 Ha. apply infer_pair_true; [done| |done].
    apply list_elem_of_lookup in Hs2 as [j Hj].
    rewrite lookup_drop in Hj. eapply Forall_lookup_1; [exact Hacc|exact Hj].
Qed.

(** A cell of the cross check lies in every sentence, and stays there while
    the cells before it are marked; so the sentences that decide on it are
    all the sentences, and there is one. *)
Lemma cross_checks_sound l acc :
  NoDup l → sound M acc.1 → knowledge acc.1 ≠ [] →
  (∀ c, c ∈ l → Forall (fun s => c ∈ Sentence.cells s) (knowledge acc.1)) →
  sound M (foldl cross_check acc l).1.
Proof.
  intros Hnd. revert acc.
  induction Hnd as [|c l Hc Hnd IH]; intros acc Hacc Hne Hl; simpl; [done|].
  assert (∀ c', c' ∈ l → c' ≠ c) as Hdiff by (intros c' Hc' ->; done).
  assert (∃ s0, s0 ∈ knowledge acc.1) as [s0 Hin0].
  { destruct (knowledge acc.1) as [|s0 K]; [done|]. exists s0. left. }
  assert (c ∈ Sentence.cells s0) as Hc0.
  { pose proof (Hl c (list_elem_of_here _ _)) as Hall.
    rewrite Forall_forall in Hall. by apply Hall. }
  assert (true_on M s0) as Hs0.
  { destruct Hacc as [HT _]. rewrite Forall_forall in HT. by apply HT. }
  assert (s0 ∈ holding c (knowledge acc.1)) as Hhold.
  { unfold holding. by apply list_elem_of_filter. }
  unfold cross_check at 2.
  destruct (all_full c (knowledge acc.1)) eqn:Hfull; [|destruct (all_zero c (knowledge acc.1)) eqn:Hzero].
  - unfold all_full in Hfull. rewrite forallb_forall in Hfull.
    apply list_elem_of_In, Hfull, bool_decide_eq_true in Hhold.
    assert (c ∈ M) as HcM.
    { unfold true_on in Hs0. apply (full_inter_subseteq (Sentence.cells s0)); [lia|done]. }
    unfold note_mine. case_decide.
    + apply IH; [done|done|]. intros c' Hc'. apply Hl. by right.
    + apply IH; cbn.
      * by apply mark_mine_sound.
      * intros Hnil%fmap_nil_inv. done.
      * intros c' Hc'. rewrite Forall_map.
        eapply Forall_impl; [apply (Hl c'); by right|].
        intros s Hs. cbn. unfold Sentence.mark_mine. case_decide; [|done]. cbn.
        specialize (Hdiff c' Hc'). set_solver.
  - unfold all_zero in Hzero. rewrite forallb_forall in Hzero.
    apply list_elem_of_In, Hzero, bool_decide_eq_true in Hhold.
    assert (c ∉ M) as HcM.
    { unfold true_on in Hs0.
      pose proof (empty_inter_disjoint (Sentence.cells s0) ltac:(lia)). set_solver. }
    unfold note_safe. case_decide.
    + apply IH; [done|done|]. intros c' Hc'. apply Hl. by right.
    + apply IH; cbn.
      * by apply mark_safe_sound.
      * intros Hnil%fmap_nil_inv. done.
      * intros c' Hc'. rewrite Forall_map.
        eapply Forall_impl; [apply (Hl c'); by right|].
        intros s Hs. cbn. unfold Sentence.mark_safe. case_decide; [|done]. cbn.
        specialize (Hdiff c' Hc'). set_solver.
  - apply IH; [done|done|]. intros c' Hc'. apply Hl. by right.
Qed.

Lemma update_round_sound fuel st st' ch :
  update_round fuel st = Some (st', ch) → sound M st → sound M st'.
Proof.
  unfold update_round. intros Hr Hst.
  pose proof (extract_step_sound st Hst) as (H1 & H1m & H1s).
  destruct (extract_step st) as [st1 ch1]; simpl in *.
  destruct (infer_outer _ _ _) as [[K3 ch3]|] eqn:Hinf; [|done].
  set (st3 := set_knowledge K3 (set_knowledge (drop_empty (knowledge st1)) st1)) in *.
  assert (sound M st3) as H3.
  { split; [|done]. cbn.
    apply infer_outer_true in Hinf; [done|]. cbn. by apply drop_empty_Forall. }
  simplify_eq.
  destruct (decide (K3 = [])) as [->|Hne].
  { cbn [common_cells] in Hr. rewrite elements_empty in Hr. cbn [foldl] in Hr.
    by simplify_eq. }
  pose proof (cross_checks_sound (elements (common_cells K3)) (st3, ch3)
                (NoDup_elements _) H3 Hne) as H4.
  rewrite Hr in H4. apply H4.
  intros c Hc%elem_of_elements. cbn. apply Forall_forall. intros s Hs.
  by apply (common_cells_subseteq K3 s Hs).
Qed.

Lemma iterate_sound fuel n st st' ch :
  iterate fuel n st = Some (st', ch) → sound M st → sound M st'.
Proof.
  revert st. induction n as [|n IH]; intros st; simpl.
  - by intros [= -> _].
  - destruct (update_round fuel st) as [[st1 ch1]|] eqn:Hr; [|done].
    intros Hi Hst. eapply update_round_sound in Hr; [|done].
    destruct ch1; [by eapply IH|]. by simplify_eq.
Qed.

Lemma update_knowledge_sound fuel st st' :
  update_knowledge fuel st = Some st' → sound M st → sound M st'.
Proof.
  unfold update_knowledge.
  destruct (iterate _ _ _) as [[st1 ch]|] eqn:Hi; [|done].
  intros [= <-]. by eapply iterate_sound.
Qed.

End Sound.

Section Board.
Context (g : Minesweeper.t).

Lemma elem_of_window i j (c : Cell) :
  c ∈ Minesweeper.window (i, j) ↔
  (i - 1 ≤ c.1 ∧ c.1 ≤ i + 1) ∧ (j - 1 ≤ c.2 ∧ c.2 ≤ j + 1).
Proof.
  unfold Minesweeper.window. cbn [mbind list_bind fst snd app mret].
  rewrite !elem_of_cons, elem_of_nil. destruct c as [a b]. cbn [fst snd]. split.
  - intros H. repeat destruct H as [H|H]; try done; simplify_eq; lia.
  - intros [Ha Hb].
    assert (a = i - 1 ∨ a = i ∨ a = i + 1) as [-> | [-> | ->]] by lia;
    assert (b = j - 1 ∨ b = j ∨ b = j + 1) as [-> | [-> | ->]] by lia; tauto.
Qed.

Lemma NoDup_window cell : NoDup (Minesweeper.window cell).
Proof.
  destruct cell as [i j].
  unfold Minesweeper.window. cbn [mbind list_bind fst snd app mret].
  repeat (apply NoDup_cons; split;
    [rewrite ?elem_of_cons, elem_of_nil; intros H;
     repeat destruct H as [H|H]; try done; simplify_eq; lia|]).
  apply NoDup_nil_2.
Qed.

(** The cells that [nearby_mines] counts. *)
Lemma nearby_mines_length cell l acc :
  foldl (fun count c =>
           if decide (c = cell) then count
           else if decide ((0 ≤ c.1 ∧ c.1 < Minesweeper.height g)
                           ∧ (0 ≤ c.2 ∧ c.2 < Minesweeper.width g))
                then (if Minesweeper.is_mine g c then count + 1 else count)
                else count) acc l
  = acc + Z.of_nat (length (filter (fun c =>
            c ≠ cell ∧ ((0 ≤ c.1 ∧ c.1 < Minesweeper.height g)
                        ∧ (0 ≤ c.2 ∧ c.2 < Minesweeper.width g))
            ∧ c ∈ Minesweeper.mines g) l)).
Proof.
  revert acc. induction l as [|c l IH]; intros acc; [cbn; lia|].
  rewrite filter_cons.
  destruct (decide (c ≠ cell ∧ _)) as [(Hne & Hin & Hm)|Hn].
  - rewrite nearby_mines_hit by done. rewrite IH. cbn [length]. lia.
  - rewrite nearby_mines_skip; [apply IH|].
    destruct (decide (c = cell)); [by left|right].
    destruct (decide ((0 ≤ c.1 ∧ c.1 < Minesweeper.height g)
                      ∧ (0 ≤ c.2 ∧ c.2 < Minesweeper.width g))); [right|by left].
    intros Hm. by apply Hn.
Qed.

(** The count that the board answers is the number of mines among the
    neighbours that the engine computes. *)
Lemma nearby_mines_size st cell :
  Minesweeper.height g = height st → Minesweeper.width g = width st →
  Minesweeper.nearby_mines g cell
  = Z.of_nat (size (get_neighbors st cell ∩ Minesweeper.mines g)).
Proof.
  intros Hh Hw. unfold Minesweeper.nearby_mines. rewrite nearby_mines_length.
  rewrite Z.add_0_l. f_equal.
  rewrite <- (size_list_to_set (C:=gset Cell))
    by apply NoDup_filter, NoDup_window.
  f_equal. apply set_eq. intros c.
  rewrite elem_of_list_to_set, list_elem_of_filter, elem_of_intersection.
  destruct cell as [i j]. rewrite elem_of_get_neighbors, elem_of_window.
  unfold in_bounds. rewrite Hh, Hw. cbn [fst snd]. tauto.
Qed.

Lemma init_sound h w : sound (Minesweeper.mines g) (init h w).
Proof. split; [apply Forall_nil_2|]. cbn. set_solver. Qed.

Lemma record_observation_sound cell count st :
  sound (Minesweeper.mines g) st → truthful g st cell count →
  sound (Minesweeper.mines g) (record_observation cell count st).
Proof.
  intros (HK & Hm & Hs) (Hh & Hw & _ & _ & Hcell & ->).
  rewrite (nearby_mines_size st cell Hh Hw).
  set (M := Minesweeper.mines g) in *.
  assert (Forall (true_on M) (map (Sentence.mark_safe cell) (knowledge st))) as HK'.
  { rewrite Forall_map. eapply Forall_impl; [exact HK|].
    intros s Hs'. by apply sentence_mark_safe_true. }
  unfold record_observation. cbn [mark_safe height width moves_made mines safes knowledge].
  repeat match goal with
  | |- context [get_neighbors ?s cell] =>
      lazymatch s with
      | st => fail
      | _ => change (get_neighbors s cell) with (get_neighbors st cell)
      end
  end.
  set (N := get_neighbors st cell).
  case_decide; (split; [|split; cbn; [done|set_solver]]); cbn; [|done].
  apply Forall_app. split; [done|]. apply Forall_singleton.
  unfold true_on. cbn [Sentence.cells Sentence.count].
  assert ((N ∖ ({[cell]} ∪ safes st) ∖ mines st) ∩ M = (N ∩ M) ∖ (N ∩ mines st)) as ->
    by set_solver.
  rewrite (size_difference (C:=gset Cell) (N ∩ M) (N ∩ mines st)) by set_solver.
  assert (size (N ∩ mines st) ≤ size (N ∩ M))%nat by (apply subseteq_size; set_solver).
  lia.
Qed.

Lemma add_knowledge_sound fuel cell count st st' :
  add_knowledge fuel cell count st = Some st' →
  sound (Minesweeper.mines g) st → truthful g st cell count →
  sound (Minesweeper.mines g) st'.
Proof.
  intros Hcall Hst Htr. eapply update_knowledge_sound; [exact Hcall|].
  by apply record_observation_sound.
Qed.

(** Whatever the board answers, the engine draws right conclusions. *)
Lemma board_session_sound h w obs st :
  session (truthful g) (init h w) obs st → sound (Minesweeper.mines g) st.
Proof.
  induction 1 as [|obs st c n st' _ IH Hpre [fuel Hcall]]; [apply init_sound|].
  by eapply add_knowledge_sound.
Qed.

(** On a board no observed cell is a known mine, so a session on a board is
    one of those in which the classification sets stay apart. *)
Lemma board_session_not_known_mine h w obs st :
  session (truthful g) (init h w) obs st →
  session not_known_mine (init h w) obs st.
Proof.
  induction 1 as [|obs st c n st' Hs IH Hpre Hcall]; [constructor|].
  econstructor; [exact IH| |exact Hcall].
  apply board_session_sound in Hs as (_ & Hm & _).
  destruct Hpre as (_ & _ & _ & _ & Hc & _). unfold not_known_mine. set_solver.
Qed.

(** On a board the count of every sentence lies between 0 and the number of
    its cells. *)
Lemma board_session_counts h w obs st :
  session (truthful g) (init h w) obs st →
  Forall (fun s => 0 ≤ Sentence.count s
                   ∧ Sentence.count s ≤ Z.of_nat (size (Sentence.cells s)))
         (knowledge st).
Proof.
  intros (HK & _)%board_session_sound.
  eapply Forall_impl; [exact HK|]. intros s Hs. unfold true_on in Hs.
  assert (size (Sentence.cells s ∩ Minesweeper.mines g) ≤ size (Sentence.cells s))%nat
    by (apply subseteq_size; set_solver).
  lia.
Qed.

End Board.

(** * The classification sets stay apart *)

(** C1 (amended).  For every sequence of observations in which no observed
    cell is in [mines] at the time of its call, and so for every sequence of
    answers of a board, [safes] and [mines] are disjoint after every call of
    [add_knowledge]. *)
Theorem safes_mines_disjoint (h w : Z) (obs : list (Cell * Z)) (st : t) :
  session not_known_mine (init h w) obs st
  ∨ (∃ g, session (truthful g) (init h w) obs st) →
  safes st ## mines st.
Proof.
  intros Hs.
  assert (session not_known_mine (init h w) obs st) as Hs'.
  { destruct Hs as [Hs|[g Hg]]; [done|]. by eapply board_session_not_known_mine. }
  clear Hs. enough (consistent st) as [_ H] by done.
  induction Hs' as [|obs st c n st' _ IH Hpre [fuel Hcall]].
  - split; [apply init_projected|]. simpl. set_solver.
  - eapply add_knowledge_consistent; eauto.
Qed.

Lemma safes_mines_disjoint_witness :
  session (truthful corner_board) (init 2 2) corner_calls corner_end ∧
  safes corner_end ## mines corner_end.
Proof.
  assert (session (truthful corner_board) (init 2 2) corner_calls corner_end) as Hs.
  { apply (replay_session (truthful corner_board) 5). vm_compute. reflexivity. }
  split; [exact Hs|].
  apply (safes_mines_disjoint 2 2 corner_calls corner_end).
  right. exists corner_board. exact Hs.
Defined.

(** C1 (as stated) fails.  On a 1 x 2 grid the call [((0, 0), 1)] classifies
    [(0, 1)] as a mine; the call [((0, 1), 0)] then meets every precondition
    of section 4.2 (in bounds, not observed before, count in [0, 8], no
    known mine among the neighbours of the cell and no unresolved neighbour)
    and marks [(0, 1)] safe: the cell is in both sets. *)
Lemma safes_mines_overlap :
  session precondition (init 1 2) overlap_calls overlap_end ∧
  (0, 1) ∈ safes overlap_end ∧ (0, 1) ∈ mines overlap_end ∧
  ¬ (safes overlap_end ## mines overlap_end).
Proof.
  split; [|split; [|split]].
  - apply (replay_session precondition 5). vm_compute. reflexivity.
  - compute_done.
  - compute_done.
  - compute_done.
Qed.

(** * More on single sentences *)

Section SentenceMarks.

Lemma sentence_eq (s s' : Sentence.t) :
  Sentence.cells s = Sentence.cells s' → Sentence.count s = Sentence.count s' → s = s'.
Proof. destruct s, s'; cbn; by intros -> ->. Qed.

Lemma mark_mine_mark_safe c c' s :
  c ≠ c' →
  Sentence.mark_mine c (Sentence.mark_safe c' s)
  = Sentence.mark_safe c' (Sentence.mark_mine c s).
Proof.
  intros Hne. apply sentence_eq.
  - rewrite mark_mine_cells, !mark_safe_cells, mark_mine_cells. set_solver.
  - rewrite mark_mine_count, !mark_safe_count, mark_mine_count, mark_safe_cells.
    repeat case_decide; try done; set_solver.
Qed.

End SentenceMarks.

(** X1.  [known_mines] and [known_safes] each answer either nothing or every
    cell of the sentence, and never both something: a sentence that yields
    safe cells yields no mine, and one that yields mines yields no safe
    cell.  A sentence without cells yields nothing. *)
Theorem known_cells_exclusive (s : Sentence.t) :
  (Sentence.known_mines s = ∅ ∨ Sentence.known_mines s = Sentence.cells s) ∧
  (Sentence.known_safes s = ∅ ∨ Sentence.known_safes s = Sentence.cells s) ∧
  (Sentence.known_mines s = ∅ ∨ Sentence.known_safes s = ∅) ∧
  (Sentence.cells s = ∅ → Sentence.known_mines s = ∅ ∧ Sentence.known_safes s = ∅).
Proof.
  unfold Sentence.known_mines, Sentence.known_safes.
  split; [case_decide; auto|]. split; [case_decide; auto|]. split.
  - repeat case_decide; auto. lia.
  - intros ->. split; case_decide; done.
Qed.

(** X2.  Marking is idempotent, the first mark of a cell wins over a later
    mark of the same cell, and marks of different cells commute. *)
Theorem sentence_marks_compose (c c' : Cell) (s : Sentence.t) :
  Sentence.mark_mine c (Sentence.mark_mine c s) = Sentence.mark_mine c s ∧
  Sentence.mark_safe c (Sentence.mark_safe c s) = Sentence.mark_safe c s ∧
  Sentence.mark_safe c (Sentence.mark_mine c s) = Sentence.mark_mine c s ∧
  Sentence.mark_mine c (Sentence.mark_safe c s) = Sentence.mark_safe c s ∧
  Sentence.mark_mine c (Sentence.mark_mine c' s)
  = Sentence.mark_mine c' (Sentence.mark_mine c s) ∧
  Sentence.mark_safe c (Sentence.mark_safe c' s)
  = Sentence.mark_safe c' (Sentence.mark_safe c s) ∧
  (c ≠ c' →
   Sentence.mark_mine c (Sentence.mark_safe c' s)
   = Sentence.mark_safe c' (Sentence.mark_mine c s)).
Proof.
  assert (∀ x s', x ∉ Sentence.cells s' → Sentence.mark_mine x s' = s') as Hm.
  { intros x s' Hx. unfold Sentence.mark_mine. by rewrite decide_False. }
  assert (∀ x s', x ∉ Sentence.cells s' → Sentence.mark_safe x s' = s') as Hs.
  { intros x s' Hx. unfold Sentence.mark_safe. by rewrite decide_False. }
  split; [apply Hm; rewrite mark_mine_cells; set_solver|].
  split; [apply Hs; rewrite mark_safe_cells; set_solver|].
  split; [apply Hs; rewrite mark_mine_cells; set_solver|].
  split; [apply Hm; rewrite mark_safe_cells; set_solver|].
  split; [|split; [|apply mark_mine_mark_safe]].
  - apply sentence_eq.
    + rewrite !mark_mine_cells. set_solver.
    + rewrite !mark_mine_count, !mark_mine_cells.
      repeat case_decide; try done; try lia; set_solver.
  - apply sentence_eq.
    + rewrite !mark_safe_cells. set_solver.
    + by rewrite !mark_safe_count.
Qed.

(** X3.  A sentence is true of a set of mines when its count is the number
    of its cells that are mines.  Of a true sentence, the known mines are
    mines and the known safe cells are not; marking a mine as a mine, or a
    cell without a mine as safe, leaves the sentence true. *)
Theorem true_sentence_sound (M : gset Cell) (s : Sentence.t) :
  true_on M s →
  Sentence.known_mines s ⊆ M ∧
  Sentence.known_safes s ## M ∧
  (∀ c, c ∈ M → true_on M (Sentence.mark_mine c s)) ∧
  (∀ c, c ∉ M → true_on M (Sentence.mark_safe c s)).
Proof.
  intros Hs. split; [by apply known_mines_true|]. split; [by apply known_safes_true|].
  split; intros c Hc; [by apply sentence_mark_mine_true|by apply sentence_mark_safe_true].
Qed.

Lemma true_sentence_sound_witness :
  true_on {[(0, 1)]} twin ∧
  true_on {[(0, 1)]} (Sentence.mark_mine (0, 1) twin) ∧
  true_on {[(0, 1)]} (Sentence.mark_safe (1, 1) twin).
Proof.
  assert (true_on {[(0, 1)]} twin) as Ht by (vm_compute; reflexivity).
  destruct (true_sentence_sound {[(0, 1)]} twin Ht) as (_ & _ & Hm & Hs).
  split; [exact Ht|]. split; [apply Hm|apply Hs]; set_solver.
Defined.

(** X4.  Subset elimination is sound: the sentence derived from two
    sentences that are true of a set of mines is true of it. *)
Theorem inference_sound (M : gset Cell) (s1 s2 s : Sentence.t) :
  true_on M s1 → true_on M s2 →
  infer_from_sentences s1 s2 = Some s → true_on M s.
Proof. intros H1 H2 Hs. by eapply infer_true. Qed.

Lemma inference_sound_witness :
  true_on {[(0, 1)]} (Sentence.mk {[(1, 1)]} 0).
Proof.
  apply (inference_sound {[(0, 1)]} (Sentence.mk {[(0, 1)]} 1) twin).
  - vm_compute. reflexivity.
  - vm_compute. reflexivity.
  - vm_compute. reflexivity.
Defined.

(** * Neighbours *)

Section NeighbourCount.

Lemma get_neighbors_window st cell :
  get_neighbors st cell ⊆ list_to_set (Minesweeper.window cell) ∖ {[cell]}.
Proof.
  destruct cell as [i j]. intros c Hc.
  apply elem_of_get_neighbors in Hc as (Hne & Hi & Hj & _).
  apply elem_of_difference. split; [|set_solver].
  apply elem_of_list_to_set, elem_of_window. done.
Qed.

Lemma size_get_neighbors st cell : (size (get_neighbors st cell) ≤ 8)%nat.
Proof.
  etrans; [apply subseteq_size, get_neighbors_window|].
  assert (cell ∈ Minesweeper.window cell) as Hin.
  { destruct cell as [i j]. apply elem_of_window. cbn. lia. }
  rewrite (size_difference (C:=gset Cell) (list_to_set (Minesweeper.window cell)) {[cell]})
    by set_solver.
  rewrite (size_list_to_set (C:=gset Cell)) by apply NoDup_window.
  rewrite size_singleton. destruct cell as [i j]. cbn. lia.
Qed.

End NeighbourCount.

(** X5.  [get_neighbors] answers the cells of the grid that touch the given
    cell: never the cell itself, never a cell out of bounds, eight cells at
    most, and exactly eight for a cell that is not on the border.  Between
    cells of the grid, being a neighbour is symmetric. *)
Theorem neighbors_of_cell (st : t) (cell : Cell) :
  (cell ∉ get_neighbors st cell) ∧
  (∀ c, c ∈ get_neighbors st cell →
        in_bounds st c ∧ Z.abs (c.1 - cell.1) ≤ 1 ∧ Z.abs (c.2 - cell.2) ≤ 1) ∧
  (size (get_neighbors st cell) ≤ 8)%nat ∧
  (1 ≤ cell.1 ∧ cell.1 + 1 < height st → 1 ≤ cell.2 ∧ cell.2 + 1 < width st →
   size (get_neighbors st cell) = 8%nat) ∧
  (∀ c, in_bounds st cell → in_bounds st c →
        c ∈ get_neighbors st cell ↔ cell ∈ get_neighbors st c).
Proof.
  destruct cell as [i j]. cbn [fst snd].
  split; [rewrite elem_of_get_neighbors; tauto|].
  split.
  { intros c (Hne & Hi & Hj & Hin)%elem_of_get_neighbors. split; [done|lia]. }
  split; [apply size_get_neighbors|]. split.
  - intros Hi Hj.
    assert (get_neighbors st (i, j)
            = list_to_set [(i - 1, j - 1); (i - 1, j); (i - 1, j + 1);
                           (i, j - 1); (i, j + 1);
                           (i + 1, j - 1); (i + 1, j); (i + 1, j + 1)]) as ->.
    { apply set_eq. intros [a b].
      rewrite elem_of_get_neighbors, elem_of_list_to_set, !elem_of_cons, elem_of_nil.
      unfold in_bounds. cbn [fst snd]. split.
      - intros (Hne & Ha & Hb & _).
        assert (a = i - 1 ∨ a = i ∨ a = i + 1) as [-> | [-> | ->]] by lia;
        assert (b = j - 1 ∨ b = j ∨ b = j + 1) as [-> | [-> | ->]] by lia; tauto.
      - intros H. repeat destruct H as [H|H]; try done; simplify_eq;
          (split; [intros ?; simplify_eq; lia|lia]). }
    rewrite (size_list_to_set (C:=gset Cell)); [done|].
    repeat (apply NoDup_cons; split;
      [rewrite ?elem_of_cons, elem_of_nil; intros H;
       repeat destruct H as [H|H]; try done; simplify_eq; lia|]).
    apply NoDup_nil_2.
  - intros [a b] Hcell Hc. rewrite !elem_of_get_neighbors. cbn [fst snd].
    split; intros (Hne & Hi & Hj & _); (split; [congruence|]); (split; [lia|]);
      (split; [lia|done]).
Qed.

(** X6.  The count that the board answers for a cell is the number of mines
    among the neighbours that the engine computes for it, on a grid of the
    same size; it lies between 0 and 8 and does not exceed the number of
    mines of the board. *)
Theorem nearby_mines_counts_neighbors (g : Minesweeper.t) (cell : Cell) :
  Minesweeper.nearby_mines g cell
  = Z.of_nat (size (get_neighbors (init (Minesweeper.height g) (Minesweeper.width g)) cell
                    ∩ Minesweeper.mines g)) ∧
  0 ≤ Minesweeper.nearby_mines g cell ≤ 8 ∧
  Minesweeper.nearby_mines g cell ≤ Z.of_nat (size (Minesweeper.mines g)).
Proof.
  set (st := init (Minesweeper.height g) (Minesweeper.width g)).
  rewrite (nearby_mines_size g st cell eq_refl eq_refl).
  split; [done|].
  pose proof (size_get_neighbors st cell) as H8.
  assert (size (get_neighbors st cell ∩ Minesweeper.mines g)
          ≤ size (get_neighbors st cell))%nat by (apply subseteq_size; set_solver).
  assert (size (get_neighbors st cell ∩ Minesweeper.mines g)
          ≤ size (Minesweeper.mines g))%nat by (apply subseteq_size; set_solver).
  lia.
Qed.

(** * What the derivation loop leaves alone *)

Section Frame.

#[local] Instance same_frame_refl : Reflexive same_frame.
Proof. by intros st. Qed.

#[local] Instance same_frame_trans : Transitive same_frame.
Proof. intros a b c (?&?&?) (?&?&?). repeat split; congruence. Qed.

Lemma note_mine_frame acc c : same_frame acc.1 (note_mine acc c).1.
Proof. unfold note_mine. by case_decide. Qed.

Lemma note_safe_frame acc c : same_frame acc.1 (note_safe acc c).1.
Proof. unfold note_safe. by case_decide. Qed.

Lemma foldl_frame {C : Type} (f : t * bool → C → t * bool) l acc :
  (∀ a c, same_frame a.1 (f a c).1) → same_frame acc.1 (foldl f acc l).1.
Proof.
  intros Hf. apply (foldl_invariant (fun a => same_frame acc.1 a.1)); [done|].
  intros a c _ Ha. etrans; [exact Ha|apply Hf].
Qed.

Lemma extract_at_frame acc k : same_frame acc.1 (extract_at acc k).1.
Proof.
  unfold extract_at. destruct (knowledge acc.1 !! k); [|done].
  etrans; [apply (foldl_frame note_mine), note_mine_frame|].
  apply (foldl_frame note_safe), note_safe_frame.
Qed.

Lemma cross_check_frame acc c : same_frame acc.1 (cross_check acc c).1.
Proof.
  unfold cross_check.
  destruct (all_full _ _); [apply note_mine_frame|].
  destruct (all_zero _ _); [apply note_safe_frame|done].
Qed.

Lemma update_round_frame fuel st st' ch :
  update_round fuel st = Some (st', ch) → same_frame st st'.
Proof.
  unfold update_round. intros Hr.
  pose proof (foldl_frame extract_at (seq 0 (length (knowledge st))) (st, false)
                extract_at_frame) as H1.
  fold (extract_step st) in H1.
  destruct (extract_step st) as [st1 ch1]; cbn [fst] in *.
  destruct (infer_outer _ _ _) as [[K3 ch3]|]; [|done].
  etrans; [exact H1|].
  pose proof (foldl_frame cross_check (elements (common_cells K3))
    (set_knowledge K3 (set_knowledge (drop_empty (knowledge st1)) st1), ch3)
    cross_check_frame) as H4.
  simplify_eq. rewrite Hr in H4. exact H4.
Qed.

Lemma iterate_frame fuel n st st' ch :
  iterate fuel n st = Some (st', ch) → same_frame st st'.
Proof.
  revert st. induction n as [|n IH]; intros st; simpl.
  - by intros [= -> _].
  - destruct (update_round fuel st) as [[st1 ch1]|] eqn:Hr; [|done].
    apply update_round_frame in Hr.
    destruct ch1.
    + intros Hi. etrans; [exact Hr|by apply IH].
    + by intros [= <- _].
Qed.

Lemma update_knowledge_frame fuel st st' :
  update_knowledge fuel st = Some st' → same_frame st st'.
Proof.
  unfold update_knowledge.
  destruct (iterate _ _ _) as [[st1 ch]|] eqn:Hi; [|done].
  intros [= <-]. by eapply iterate_frame.
Qed.

Lemma record_observation_frame cell count st :
  height (record_observation cell count st) = height st ∧
  width (record_observation cell count st) = width st ∧
  moves_made (record_observation cell count st) = {[cell]} ∪ moves_made st.
Proof. unfold record_observation. by case_decide. Qed.

Lemma add_knowledge_frame fuel cell count st st' :
  add_knowledge fuel cell count st = Some st' →
  height st' = height st ∧ width st' = width st ∧
  moves_made st' = {[cell]} ∪ moves_made st.
Proof.
  intros (Hh & Hw & Hm)%update_knowledge_frame.
  destruct (record_observation_frame cell count st) as (Hh' & Hw' & Hm').
  repeat split; congruence.
Qed.

End Frame.

(** X7.  The derivation loop changes neither the size of the grid nor
    [moves_made]; a call of [add_knowledge] adds the observed cell to
    [moves_made] and nothing else.  So after any calls on a new engine,
    whatever their arguments, [moves_made] is the set of the observed cells,
    and every one of them is in [safes]. *)
Theorem moves_made_are_the_observed_cells :
  (∀ fuel st st', update_knowledge fuel st = Some st' → same_frame st st') ∧
  (∀ fuel cell count st st',
     add_knowledge fuel cell count st = Some st' →
     height st' = height st ∧ width st' = width st ∧
     moves_made st' = {[cell]} ∪ moves_made st) ∧
  (∀ pre h w obs st,
     session pre (init h w) obs st →
     height st = h ∧ width st = w ∧
     moves_made st = list_to_set obs.*1 ∧ moves_made st ⊆ safes st).
Proof.
  split; [apply update_knowledge_frame|]. split; [apply add_knowledge_frame|].
  intros pre h w obs st Hs.
  induction Hs as [|obs st c n st' _ (IHh & IHw & IHm & IHs) _ [fuel Hcall]].
  - repeat split; cbn; set_solver.
  - destruct (add_knowledge_frame _ _ _ _ _ Hcall) as (Hh & Hw & Hm).
    pose proof Hcall as (_ & Hgs & _)%update_knowledge_grows.
    destruct (record_observation_cell c n st) as [_ Hc].
    pose proof (record_observation_grows c n st) as (_ & Hrs & _).
    split; [congruence|]. split; [congruence|]. split.
    + rewrite Hm, IHm, fmap_app, list_to_set_app_L. cbn. set_solver.
    + rewrite Hm. set_solver.
Qed.

(** * The elimination pass only appends *)

Section Appends.

Lemma extends_refl acc : extends acc acc.
Proof.
  exists []. rewrite app_nil_r. split; [done|]. split; [apply NoDup_nil_2|].
  split; [by intros s ?%elem_of_nil|]. by rewrite orb_false_r.
Qed.

Lemma extends_trans a b c : extends a b → extends b c → extends a c.
Proof.
  intros (N1 & H1 & Hnd1 & Hf1 & Hc1) (N2 & H2 & Hnd2 & Hf2 & Hc2).
  exists (N1 ++ N2). split; [by rewrite H2, H1, app_assoc|]. split; [|split].
  - apply NoDup_app. split; [done|]. split; [|done].
    intros s Hs1 Hs2. apply (Hf2 s Hs2). rewrite H1. set_solver.
  - intros s [Hs|Hs]%elem_of_app; [by apply Hf1|].
    intros Hin. apply (Hf2 s Hs). rewrite H1. set_solver.
  - rewrite Hc2, Hc1. destruct a.2, N1, N2; done.
Qed.

Lemma infer_pair_extends s1 acc s2 : extends acc (infer_pair s1 acc s2).
Proof.
  unfold infer_pair. destruct (infer_from_sentences s1 s2) as [s|]; [|apply extends_refl].
  case_decide; [apply extends_refl|].
  exists [s]. cbn. split; [done|]. split; [apply NoDup_singleton|].
  split; [by intros s' ->%list_elem_of_singleton|]. by rewrite orb_true_r.
Qed.

Lemma infer_outer_extends fuel i acc res :
  infer_outer fuel i acc = Some res → extends acc res.
Proof.
  revert i acc. induction fuel as [|fuel IH]; intros i acc; simpl.
  - destruct (acc.1 !! i); [done|]. intros [= <-]. apply extends_refl.
  - destruct (acc.1 !! i) as [s1|]; [|intros [= <-]; apply extends_refl].
    intros Hres%IH. eapply extends_trans; [|exact Hres].
    apply (foldl_invariant (fun a => extends acc a)); [apply extends_refl|].
    intros a s2 _ Ha. eapply extends_trans; [exact Ha|apply infer_pair_extends].
Qed.

End Appends.

(** X8.  The subset-elimination pass removes nothing and moves nothing: the
    list it leaves is the list it found, followed by sentences that were not
    in it and are pairwise different, and [changes_made] is raised exactly
    when there is one. *)
Theorem elimination_pass_appends (fuel : nat) (K : list Sentence.t) (ch : bool)
    (res : list Sentence.t * bool) :
  infer_outer fuel 0 (K, ch) = Some res →
  ∃ N, res.1 = K ++ N ∧ NoDup N ∧ (∀ s, s ∈ N → s ∉ K) ∧
       res.2 = ch || bool_decide (N ≠ []).
Proof. intros H. by apply infer_outer_extends in H. Qed.

Lemma elimination_pass_appends_witness :
  ∃ N, [twin; twin; hollow] = [twin; twin] ++ N ∧ NoDup N ∧ (∀ s, s ∈ N → s ∉ [twin; twin]) ∧
       true = false || bool_decide (N ≠ []).
Proof.
  apply (elimination_pass_appends 5 [twin; twin] false ([twin; twin; hollow], true)).
  vm_compute. reflexivity.
Defined.

(** X9.  A cell that was passed to [add_knowledge] is never proposed again:
    after the call, and after any further calls, neither move selector
    answers it, whatever the random draw. *)
Theorem observed_cell_never_offered (fuel : nat) (cell : Cell) (count : Z)
    (st st' st'' : t) (pre : t → Cell → Z → Prop) (obs : list (Cell * Z)) (r : nat) :
  add_knowledge fuel cell count st = Some st' →
  session pre st' obs st'' →
  (make_safe_move r st'').1 ≠ Some cell ∧ (make_random_move r st'').1 ≠ Some cell.
Proof.
  intros Hcall Hs.
  assert (cell ∈ moves_made st'') as Hin.
  { apply session_grows in Hs as (Hm & _).
    apply add_knowledge_frame in Hcall as (_ & _ & Hc). set_solver. }
  split.
  - unfold make_safe_move. cbn. case_decide; [done|].
    intros Hc%choice_elem_of%elem_of_elements. set_solver.
  - unfold make_random_move. cbn.
    destruct (elements _) as [|c0 l] eqn:Hl; [done|]. rewrite <- Hl.
    intros Hc%choice_elem_of%elem_of_elements. set_solver.
Qed.

Lemma observed_cell_never_offered_witness :
  (make_safe_move 3 (mk 1 3 {[(0, 0)]} ∅ {[(0, 0); (0, 1)]} [])).1 ≠ Some (0, 0) ∧
  (make_random_move 3 (mk 1 3 {[(0, 0)]} ∅ {[(0, 0); (0, 1)]} [])).1 ≠ Some (0, 0).
Proof.
  apply (observed_cell_never_offered 5 (0, 0) 0 (init 1 3)
           (mk 1 3 {[(0, 0)]} ∅ {[(0, 0); (0, 1)]} [])
           (mk 1 3 {[(0, 0)]} ∅ {[(0, 0); (0, 1)]} []) any_call [] 3).
  - vm_compute. reflexivity.
  - constructor.
Defined.

(** * The engine stays on the grid *)

Section Inside.
Context (U : gset Cell).

Lemma infer_outer_closed (P : Sentence.t → Prop) fuel i acc res :
  (∀ s1 s2 s, P s1 → P s2 → infer_from_sentences s1 s2 = Some s → P s) →
  infer_outer fuel i acc = Some res →
  Forall P acc.1 → Forall P res.1.
Proof.
  intros HP. revert i acc. induction fuel as [|fuel IH]; intros i acc; simpl.
  - destruct (acc.1 !! i); [done|]. by intros [= <-].
  - destruct (acc.1 !! i) as [s1|] eqn:Hi; [|by intros [= <-]].
    intros Hres Hacc. apply IH in Hres; [done|].
    assert (P s1) as Hs1 by (eapply Forall_lookup_1; [exact Hacc|exact Hi]).
    apply (foldl_invariant (fun a => Forall P a.1)); [done|].
    intros a s2 Hs2 Ha.
    assert (P s2) as Hp2.
    { apply list_elem_of_lookup in Hs2 as [j Hj]. rewrite lookup_drop in Hj.
      eapply Forall_lookup_1; [exact Hacc|exact Hj]. }
    unfold infer_pair. destruct (infer_from_sentences s1 s2) as [s|] eqn:Hs; [|done].
    case_decide; [done|]. cbn. apply Forall_app. split; [done|].
    apply Forall_singleton. exact (HP s1 s2 s Hs1 Hp2 Hs).
Qed.

Lemma mark_mine_inside c st : c ∈ U → inside U st → inside U (mark_mine c st).
Proof.
  intros Hc (Hs & Hm & HK). split; [done|]. split; [cbn; set_solver|]. cbn.
  rewrite Forall_map. eapply Forall_impl; [exact HK|].
  intros s Hsub. cbn. rewrite mark_mine_cells. set_solver.
Qed.

Lemma mark_safe_inside c st : c ∈ U → inside U st → inside U (mark_safe c st).
Proof.
  intros Hc (Hs & Hm & HK). split; [cbn; set_solver|]. split; [done|]. cbn.
  rewrite Forall_map. eapply Forall_impl; [exact HK|].
  intros s Hsub. cbn. rewrite mark_safe_cells. set_solver.
Qed.

Lemma note_mines_inside l acc :
  inside U acc.1 → (∀ c, c ∈ l → c ∈ U) → inside U (foldl note_mine acc l).1.
Proof.
  intros Hacc Hl. apply (foldl_invariant (fun a => inside U a.1)); [done|].
  intros a c Hc Ha. unfold note_mine. case_decide; [done|].
  apply mark_mine_inside; auto.
Qed.

Lemma note_safes_inside l acc :
  inside U acc.1 → (∀ c, c ∈ l → c ∈ U) → inside U (foldl note_safe acc l).1.
Proof.
  intros Hacc Hl. apply (foldl_invariant (fun a => inside U a.1)); [done|].
  intros a c Hc Ha. unfold note_safe. case_decide; [done|].
  apply mark_safe_inside; auto.
Qed.

Lemma extract_at_inside acc k : inside U acc.1 → inside U (extract_at acc k).1.
Proof.
  unfold extract_at. destruct (knowledge acc.1 !! k) as [s|] eqn:Hk; [|done].
  intros Hacc.
  assert (Sentence.cells s ⊆ U) as Hs.
  { destruct Hacc as (_ & _ & HK). eapply Forall_lookup_1 in HK; [|exact Hk]. done. }
  apply note_safes_inside.
  - apply note_mines_inside; [done|].
    intros c Hc%elem_of_elements. pose proof (known_mines_subseteq s). set_solver.
  - intros c Hc%elem_of_elements. pose proof (known_safes_subseteq s). set_solver.
Qed.

Lemma extract_step_inside st : inside U st → inside U (extract_step st).1.
Proof.
  intros H. apply (foldl_invariant (fun a => inside U a.1));
    auto using extract_at_inside.
Qed.

Lemma cross_check_inside acc c : c ∈ U → inside U acc.1 → inside U (cross_check acc c).1.
Proof.
  intros Hc Hacc. unfold cross_check.
  destruct (all_full _ _).
  { unfold note_mine. case_decide; [done|]. by apply mark_mine_inside. }
  destruct (all_zero _ _); [|done].
  unfold note_safe. case_decide; [done|]. by apply mark_safe_inside.
Qed.

Lemma update_round_inside fuel st st' ch :
  update_round fuel st = Some (st', ch) → inside U st → inside U st'.
Proof.
  unfold update_round. intros Hr Hst.
  pose proof (extract_step_inside st Hst) as (H1s & H1m & H1K).
  destruct (extract_step st) as [st1 ch1]; simpl in *.
  destruct (infer_outer _ _ _) as [[K3 ch3]|] eqn:Hinf; [|done].
  set (st3 := set_knowledge K3 (set_knowledge (drop_empty (knowledge st1)) st1)) in *.
  assert (inside U st3) as H3.
  { split; [done|]. split; [done|]. cbn.
    eapply (infer_outer_closed (fun s => Sentence.cells s ⊆ U)) in Hinf; [done| |].
    - intros s1 s2 s H1 H2 Hs%infer_cells. set_solver.
    - cbn. by apply drop_empty_Forall. }
  simplify_eq.
  change st' with (st', ch).1. rewrite <- Hr.
  apply (foldl_invariant (fun a => inside U a.1)); [done|].
  intros a c Hc%elem_of_elements Ha. apply cross_check_inside; [|done].
  destruct K3 as [|s0 K3]; [by apply elem_of_empty in Hc|].
  pose proof (common_cells_subseteq (s0 :: K3) s0 (list_elem_of_here _ _)) as Hsub.
  destruct H3 as (_ & _ & HK). apply Forall_cons in HK as [Hs0 _]. set_solver.
Qed.

Lemma iterate_inside fuel n st st' ch :
  iterate fuel n st = Some (st', ch) → inside U st → inside U st'.
Proof.
  revert st. induction n as [|n IH]; intros st; simpl.
  - by intros [= -> _].
  - destruct (update_round fuel st) as [[st1 ch1]|] eqn:Hr; [|done].
    intros Hi Hst. eapply update_round_inside in Hr; [|done].
    destruct ch1; [by eapply IH|]. by simplify_eq.
Qed.

Lemma update_knowledge_inside fuel st st' :
  update_knowledge fuel st = Some st' → inside U st → inside U st'.
Proof.
  unfold update_knowledge.
  destruct (iterate _ _ _) as [[st1 ch]|] eqn:Hi; [|done].
  intros [= <-]. by eapply iterate_inside.
Qed.

Lemma record_observation_inside cell count st :
  cell ∈ U → get_neighbors st cell ⊆ U → inside U st →
  inside U (record_observation cell count st).
Proof.
  intros Hc HN (Hs & Hm & HK).
  assert (Forall (fun s => Sentence.cells s ⊆ U)
                 (map (Sentence.mark_safe cell) (knowledge st))) as HK'.
  { rewrite Forall_map. eapply Forall_impl; [exact HK|].
    intros s Hsub. cbn. rewrite mark_safe_cells. set_solver. }
  unfold record_observation. cbn [mark_safe height width moves_made mines safes knowledge].
  repeat match goal with
  | |- context [get_neighbors ?s cell] =>
      lazymatch s with
      | st => fail
      | _ => change (get_neighbors s cell) with (get_neighbors st cell)
      end
  end.
  case_decide; (split; [cbn; set_solver|split; [done|]]); cbn; [|done].
  apply Forall_app. split; [done|]. apply Forall_singleton. cbn. set_solver.
Qed.

End Inside.

Section OnGrid.

Lemma get_neighbors_all_moves st cell : get_neighbors st cell ⊆ all_moves st.
Proof.
  destruct cell as [i j]. intros c (_ & _ & _ & Hin)%elem_of_get_neighbors.
  by apply elem_of_all_moves.
Qed.

Lemma all_moves_frame st st' :
  height st' = height st → width st' = width st → all_moves st' = all_moves st.
Proof. unfold all_moves. by intros -> ->. Qed.

Lemma grid_session_inside h w obs st :
  session on_grid (init h w) obs st →
  (height st = h ∧ width st = w) ∧ inside (all_moves (init h w)) st.
Proof.
  induction 1 as [|obs st c n st' _ [[IHh IHw] IH] Hpre [fuel Hcall]].
  - split; [done|]. split; [|split]; cbn; [set_solver|set_solver|apply Forall_nil_2].
  - destruct (add_knowledge_frame _ _ _ _ _ Hcall) as (Hh & Hw & _).
    split; [split; congruence|].
    assert (all_moves st = all_moves (init h w)) as HU by by apply all_moves_frame.
    eapply update_knowledge_inside; [exact Hcall|].
    apply record_observation_inside; [| |done].
    + rewrite <- HU. by apply elem_of_all_moves.
    + rewrite <- HU. apply get_neighbors_all_moves.
Qed.

Lemma truthful_on_grid g st c n : truthful g st c n → on_grid st c n.
Proof. by intros (_ & _ & Hin & _). Qed.

End OnGrid.

(** X10.  When the observed cells are cells of the grid, every cell the
    engine classifies and every cell of its sentences is a cell of the grid,
    whatever the counts; so every move that either selector proposes is a
    cell of the grid. *)
Theorem engine_stays_on_grid (h w : Z) (obs : list (Cell * Z)) (st : t) :
  session on_grid (init h w) obs st →
  (∀ c, c ∈ safes st ∪ mines st → in_bounds st c) ∧
  (∀ s c, s ∈ knowledge st → c ∈ Sentence.cells s → in_bounds st c) ∧
  (∀ r c, (make_safe_move r st).1 = Some c ∨ (make_random_move r st).1 = Some c →
          in_bounds st c).
Proof.
  intros [[Hh Hw] (Hs & Hm & HK)]%grid_session_inside.
  assert (all_moves st = all_moves (init h w)) as HU by by apply all_moves_frame.
  rewrite <- HU in *.
  split; [intros c Hc; apply elem_of_all_moves; set_solver|].
  split.
  { intros s c Hin Hc. apply elem_of_all_moves. rewrite Forall_forall in HK.
    by apply (HK s Hin). }
  intros r c [Hc|Hc]; apply elem_of_all_moves.
  - unfold make_safe_move in Hc. cbn in Hc. case_decide; [done|].
    apply choice_elem_of, elem_of_elements in Hc. set_solver.
  - unfold make_random_move in Hc. cbn in Hc.
    destruct (elements _) as [|c0 l] eqn:Hl; [done|]. rewrite <- Hl in Hc.
    apply choice_elem_of, elem_of_elements in Hc. set_solver.
Qed.

Lemma engine_stays_on_grid_witness :
  session on_grid (init 1 3) [((0, 0), 0)] (mk 1 3 {[(0, 0)]} ∅ {[(0, 0); (0, 1)]} []) ∧
  in_bounds (mk 1 3 {[(0, 0)]} ∅ {[(0, 0); (0, 1)]} []) (0, 1).
Proof.
  assert (session on_grid (init 1 3) [((0, 0), 0)]
                  (mk 1 3 {[(0, 0)]} ∅ {[(0, 0); (0, 1)]} [])) as Hs.
  { apply (replay_session on_grid 5). vm_compute. reflexivity. }
  split; [exact Hs|].
  apply (proj1 (engine_stays_on_grid 1 3 _ _ Hs)). cbn [safes mines]. set_solver.
Defined.

(** X11.  In a game played on a board (every observed cell is a cell of the
    grid without a mine, and the count is the one the board answers), the
    engine is never wrong: every cell of [mines] has a mine and no cell of
    [safes] has one. *)
Theorem board_play_classifies_right (g : Minesweeper.t) (h w : Z)
    (obs : list (Cell * Z)) (st : t) :
  session (truthful g) (init h w) obs st →
  mines st ⊆ Minesweeper.mines g ∧ safes st ## Minesweeper.mines g.
Proof. by intros (_ & Hm & Hs)%board_session_sound. Qed.

Lemma board_play_classifies_right_witness :
  session (truthful corner_board) (init 2 2) [((0, 0), 1)] corner_first ∧
  mines corner_first ⊆ Minesweeper.mines corner_board ∧
  safes corner_first ## Minesweeper.mines corner_board.
Proof.
  assert (session (truthful corner_board) (init 2 2) [((0, 0), 1)] corner_first) as Hs.
  { apply (replay_session (truthful corner_board) 5). vm_compute. reflexivity. }
  split; [exact Hs|].
  exact (board_play_classifies_right corner_board 2 2 _ corner_first Hs).
Defined.

(** X12.  In a game played on a board every sentence of the engine is true
    of the board: its count is the number of mines among its cells, hence
    between 0 and the number of its cells. *)
Theorem board_play_sentences_true (g : Minesweeper.t) (h w : Z)
    (obs : list (Cell * Z)) (st : t) :
  session (truthful g) (init h w) obs st →
  ∀ s, s ∈ knowledge st →
       Sentence.count s = Z.of_nat (size (Sentence.cells s ∩ Minesweeper.mines g)) ∧
       0 ≤ Sentence.count s ≤ Z.of_nat (size (Sentence.cells s)).
Proof.
  intros Hs s Hin.
  pose proof (board_session_sound g h w obs st Hs) as (HK & _).
  pose proof (board_session_counts g h w obs st Hs) as HC.
  rewrite Forall_forall in HK, HC. split; [by apply HK|]. by apply HC.
Qed.

Lemma board_play_sentences_true_witness :
  session (truthful corner_board) (init 2 2) [((0, 0), 1)] corner_first ∧
  Sentence.count (Sentence.mk {[(0, 1); (1, 0); (1, 1)]} 1)
  = Z.of_nat (size (Sentence.cells (Sentence.mk {[(0, 1); (1, 0); (1, 1)]} 1)
                    ∩ Minesweeper.mines corner_board)) ∧
  0 ≤ Sentence.count (Sentence.mk {[(0, 1); (1, 0); (1, 1)]} 1)
    ≤ Z.of_nat (size (Sentence.cells (Sentence.mk {[(0, 1); (1, 0); (1, 1)]} 1))).
Proof.
  assert (session (truthful corner_board) (init 2 2) [((0, 0), 1)] corner_first) as Hs.
  { apply (replay_session (truthful corner_board) 5). vm_compute. reflexivity. }
  split; [exact Hs|].
  apply (board_play_sentences_true corner_board 2 2 _ corner_first Hs).
  unfold corner_first. cbn [knowledge]. apply list_elem_of_here.
Defined.

(** X13.  In a game played on a board a safe move is safe: the cell that
    [make_safe_move] proposes is a cell of the grid that was not observed
    before and has no mine; and [make_random_move] never proposes a cell
    that the engine knows to have a mine. *)
Theorem safe_move_has_no_mine (g : Minesweeper.t) (h w : Z)
    (obs : list (Cell * Z)) (st : t) (r : nat) (c : Cell) :
  session (truthful g) (init h w) obs st →
  ((make_safe_move r st).1 = Some c →
   in_bounds st c ∧ (c ∉ moves_made st) ∧ (c ∉ Minesweeper.mines g)) ∧
  ((make_random_move r st).1 = Some c →
   in_bounds st c ∧ (c ∉ moves_made st) ∧ (c ∉ mines st)).
Proof.
  intros Hs.
  pose proof (board_session_sound g h w obs st Hs) as (_ & Hm & Hsafe).
  split.
  - intros Hc. unfold make_safe_move in Hc. cbn in Hc. case_decide; [done|].
    apply choice_elem_of, elem_of_elements in Hc.
    split; [|set_solver].
    apply (session_weaken _ on_grid) in Hs; [|apply truthful_on_grid].
    apply grid_session_inside in Hs as [[Hh Hw] (HsU & _)].
    apply elem_of_all_moves.
    rewrite (all_moves_frame (init h w) st) by done. set_solver.
  - intros Hc. unfold make_random_move in Hc. cbn in Hc.
    destruct (elements _) as [|c0 l] eqn:Hl; [done|]. rewrite <- Hl in Hc.
    apply choice_elem_of, elem_of_elements in Hc.
    split; [apply elem_of_all_moves|]; set_solver.
Qed.

(** * The derivation loop ends when the sentences are true *)

Section Ends.
Context (M : gset Cell).

Lemma subsets_bound (U : gset Cell) : ∀ D : gset (gset Cell),
  (∀ X, X ∈ D → X ⊆ U) → (size D ≤ 2 ^ size U)%nat.
Proof.
  induction U as [|x U Hx IH] using set_ind_L; intros D HD.
  - rewrite size_empty. cbn.
    assert (D ⊆ {[∅]}) as Hsub.
    { intros X HX. apply elem_of_singleton. specialize (HD X HX). set_solver. }
    apply subseteq_size in Hsub. by rewrite size_singleton in Hsub.
  - rewrite (size_union (C:=gset Cell) {[x]} U) by set_solver.
    rewrite size_singleton. cbn [Nat.add Nat.pow].
    set (D1 := filter (fun X : gset Cell => x ∈ X) D).
    set (D0 := filter (fun X : gset Cell => ¬ x ∈ X) D).
    assert (D = D1 ∪ D0) as HDeq.
    { apply set_eq. intros X. unfold D1, D0.
      rewrite elem_of_union, !elem_of_filter. destruct (decide (x ∈ X)); tauto. }
    assert (size D = size D1 + size D0)%nat as ->.
    { rewrite HDeq at 1. apply (size_union (C:=gset (gset Cell)) D1 D0).
      intros X [H1 _]%elem_of_filter [H0 _]%elem_of_filter. done. }
    assert (size D0 ≤ 2 ^ size U)%nat as H0.
    { apply IH. intros X [HxX HX]%elem_of_filter. specialize (HD X HX). set_solver. }
    assert (size D1 ≤ 2 ^ size U)%nat as H1.
    { set (f := fun X : gset Cell => X ∖ {[x]}).
      set (D1' := list_to_set (f <$> elements D1) : gset (gset Cell)).
      assert (size D1' = size D1) as <-.
      { unfold D1'. rewrite (size_list_to_set (C:=gset (gset Cell))).
        - by rewrite length_fmap.
        - apply NoDup_fmap_2_strong; [|apply NoDup_elements].
          intros X Y [HxX _]%elem_of_elements%elem_of_filter
                     [HxY _]%elem_of_elements%elem_of_filter Heq.
          unfold f in Heq. apply set_eq. intros c.
          destruct (decide (c = x)) as [->|Hne]; [tauto|].
          assert (c ∈ X ∖ {[x]} ↔ c ∈ Y ∖ {[x]}) as Hiff by (by rewrite Heq).
          set_solver. }
      apply IH. intros Y HY. unfold D1' in HY.
      apply elem_of_list_to_set, list_elem_of_fmap in HY as (X & -> & HXin).
      apply elem_of_elements, elem_of_filter in HXin as [HxX HX].
      specialize (HD X HX). unfold f. set_solver. }
    lia.
Qed.

Lemma elem_of_cell_sets K X : X ∈ cell_sets K ↔ ∃ s, s ∈ K ∧ Sentence.cells s = X.
Proof.
  unfold cell_sets. rewrite elem_of_list_to_set, list_elem_of_fmap. naive_solver.
Qed.

Lemma cell_sets_bound U K :
  Forall (fun s => Sentence.cells s ⊆ U) K → (size (cell_sets K) ≤ 2 ^ size U)%nat.
Proof.
  intros HK. apply subsets_bound. intros X (s & Hs & <-)%elem_of_cell_sets.
  rewrite Forall_forall in HK. by apply HK.
Qed.

(** A true sentence is determined by its cells. *)
Lemma true_on_cells s s' :
  true_on M s → true_on M s' → Sentence.cells s = Sentence.cells s' → s = s'.
Proof.
  unfold true_on. destruct s as [X n], s' as [X' n']; cbn. intros -> -> ->. done.
Qed.

Lemma cell_sets_snoc K s :
  Forall (true_on M) K → true_on M s → s ∉ K →
  size (cell_sets (K ++ [s])) = S (size (cell_sets K)).
Proof.
  intros HK Hs Hnew.
  assert (cell_sets (K ++ [s]) = {[Sentence.cells s]} ∪ cell_sets K) as ->.
  { unfold cell_sets. rewrite fmap_app, list_to_set_app_L. cbn. set_solver. }
  rewrite (size_union (C:=gset (gset Cell)) {[Sentence.cells s]}), size_singleton; [done|].
  intros X ->%elem_of_singleton (s' & Hs' & Heq)%elem_of_cell_sets.
  apply Hnew. rewrite Forall_forall in HK.
  by rewrite (true_on_cells s s' Hs (HK s' Hs') (eq_sym Heq)).
Qed.

Lemma infer_pair_advance U K h acc t :
  true_on M h → Sentence.cells h ⊆ U → true_on M t → Sentence.cells t ⊆ U →
  advance M U K acc.1 → advance M U K (infer_pair h acc t).1.
Proof.
  intros Hh HhU Ht HtU (HT & HU & Hlen). unfold infer_pair.
  destruct (infer_from_sentences h t) as [s|] eqn:Hs; [|done].
  case_decide as Hin; [done|]. cbn [fst].
  assert (true_on M s) as Hst by (by eapply infer_true).
  split; [|split].
  - apply Forall_app. split; [done|]. by apply Forall_singleton.
  - apply Forall_app. split; [done|]. apply Forall_singleton.
    apply infer_cells in Hs. set_solver.
  - rewrite cell_sets_snoc by done. rewrite length_app. cbn. lia.
Qed.

Lemma infer_outer_ends U fuel : ∀ i K ch,
  Forall (true_on M) K → Forall (fun s => Sentence.cells s ⊆ U) K →
  (length K + 2 ^ size U ≤ fuel + i + size (cell_sets K))%nat →
  is_Some (infer_outer fuel i (K, ch)).
Proof.
  induction fuel as [|fuel IH]; intros i K ch HT HU Hq.
  - pose proof (cell_sets_bound U K HU) as Hb.
    cbn. rewrite lookup_ge_None_2 by lia. done.
  - cbn [infer_outer fst]. destruct (K !! i) as [h|] eqn:Hh; [|done].
    assert (true_on M h ∧ Sentence.cells h ⊆ U) as [Hht HhU].
    { split; [eapply Forall_lookup_1 in HT|eapply Forall_lookup_1 in HU]; eauto. }
    assert (advance M U K (foldl (infer_pair h) (K, ch) (drop (S i) K)).1) as (HT' & HU' & Hlen).
    { apply (foldl_invariant (fun a => advance M U K a.1)).
      - split; [done|]. split; [done|]. cbn [fst]. lia.
      - intros a t Ht Ha.
        apply list_elem_of_lookup in Ht as [j Hj]. rewrite lookup_drop in Hj.
        apply infer_pair_advance; [done|done| | |done].
        + eapply Forall_lookup_1 in HT; eauto.
        + eapply Forall_lookup_1 in HU; eauto. }
    destruct (foldl (infer_pair h) (K, ch) (drop (S i) K)) as [K' ch'] eqn:HK'.
    cbn [fst] in *. apply IH; [done|done|lia].
Qed.

Lemma mentioned_spec K : Forall (fun s => Sentence.cells s ⊆ mentioned K) K.
Proof.
  apply Forall_forall. intros s Hs c Hc. unfold mentioned.
  apply elem_of_union_list. exists (Sentence.cells s). split; [|done].
  apply list_elem_of_fmap. by exists s.
Qed.

Lemma infer_outer_returns K ch :
  Forall (true_on M) K → ∃ fuel res, infer_outer fuel 0 (K, ch) = Some res.
Proof.
  intros HT. exists (length K + 2 ^ size (mentioned K))%nat.
  destruct (infer_outer_ends (mentioned K) (length K + 2 ^ size (mentioned K)) 0 K ch HT
              (mentioned_spec K) ltac:(lia)) as [res Hres].
  by exists res.
Qed.

Lemma update_round_returns st :
  sound M st → ∃ fuel res, update_round fuel st = Some res.
Proof.
  intros Hst. pose proof (extract_step_sound M st Hst) as (H1 & _).
  unfold update_round. destruct (extract_step st) as [st1 ch1]. cbn [fst] in H1.
  destruct (infer_outer_returns (drop_empty (knowledge st1)) ch1) as (fuel & [K3 ch3] & Hres).
  { by apply drop_empty_Forall. }
  exists fuel. cbn [set_knowledge knowledge]. rewrite Hres. eauto.
Qed.

Lemma iterate_returns n : ∀ st,
  sound M st → ∃ fuel res, iterate fuel n st = Some res.
Proof.
  induction n as [|n IH]; intros st Hst; [by exists 0%nat, (st, true)|].
  destruct (update_round_returns st Hst) as (fuel1 & [st1 ch1] & Hr).
  pose proof (update_round_sound M fuel1 st st1 ch1 Hr Hst) as Hst1.
  destruct (IH st1 Hst1) as (fuel2 & res & Hi).
  exists (fuel1 `max` fuel2)%nat. cbn [iterate].
  rewrite (update_round_mono fuel1 _ st _ Hr) by lia.
  destruct ch1; [|eauto]. exists res.
  apply (iterate_mono fuel2); [done|lia].
Qed.

Lemma update_knowledge_returns st :
  sound M st → ∃ fuel st', update_knowledge fuel st = Some st'.
Proof.
  intros Hst. destruct (iterate_returns max_iterations st Hst) as (fuel & [st' ch] & Hi).
  exists fuel, st'. unfold update_knowledge. by rewrite Hi.
Qed.

End Ends.

(** X14.  The derivation loop returns from every engine that is right about
    some set of mines (true sentences, known mines among them, safe cells
    outside); so in a game played on a board every call of [add_knowledge]
    returns, and leaves an engine on which the game can go on. *)
Theorem board_play_returns (g : Minesweeper.t) (h w : Z) (obs : list (Cell * Z))
    (st : t) (cell : Cell) (count : Z) :
  session (truthful g) (init h w) obs st →
  truthful g st cell count →
  ∃ st', observe st cell count st' ∧
         session (truthful g) (init h w) (obs ++ [(cell, count)]) st'.
Proof.
  intros Hs Hpre.
  pose proof (board_session_sound g h w obs st Hs) as Hst.
  destruct (update_knowledge_returns (Minesweeper.mines g)
              (record_observation cell count st)) as (fuel & st' & Hcall).
  { by apply record_observation_sound. }
  exists st'. assert (observe st cell count st') as Hobs by (by exists fuel).
  split; [done|]. by econstructor.
Qed.

(** * The two obvious cases of an observation *)

Section Obvious.
Context (M X : gset Cell) (j : nat).

Lemma mark_mine_tracks c st : c ∈ M → tracks M X j st → tracks M X j (mark_mine c st).
Proof.
  intros Hc (Hst & s & Hj & Hsub & Hcov). split; [by apply mark_mine_sound|].
  exists (Sentence.mark_mine c s). cbn. rewrite list_lookup_fmap, Hj.
  split; [done|]. rewrite mark_mine_cells. split; [set_solver|].
  intros x Hx. specialize (Hcov x Hx). destruct (decide (x = c)); set_solver.
Qed.

Lemma mark_safe_tracks c st : c ∉ M → tracks M X j st → tracks M X j (mark_safe c st).
Proof.
  intros Hc (Hst & s & Hj & Hsub & Hcov). split; [by apply mark_safe_sound|].
  exists (Sentence.mark_safe c s). cbn. rewrite list_lookup_fmap, Hj.
  split; [done|]. rewrite mark_safe_cells. split; [set_solver|].
  intros x Hx. specialize (Hcov x Hx). destruct (decide (x = c)); set_solver.
Qed.

Lemma note_mines_tracks l acc :
  tracks M X j acc.1 → (∀ c, c ∈ l → c ∈ M) → tracks M X j (foldl note_mine acc l).1.
Proof.
  intros Hacc Hl. apply (foldl_invariant (fun a => tracks M X j a.1)); [done|].
  intros a c Hc Ha. unfold note_mine. case_decide; [done|].
  apply mark_mine_tracks; auto.
Qed.

Lemma note_safes_tracks l acc :
  tracks M X j acc.1 → (∀ c, c ∈ l → c ∉ M) → tracks M X j (foldl note_safe acc l).1.
Proof.
  intros Hacc Hl. apply (foldl_invariant (fun a => tracks M X j a.1)); [done|].
  intros a c Hc Ha. unfold note_safe. case_decide; [done|].
  apply mark_safe_tracks; auto.
Qed.

Lemma extract_at_tracks acc k : tracks M X j acc.1 → tracks M X j (extract_at acc k).1.
Proof.
  unfold extract_at. destruct (knowledge acc.1 !! k) as [s|] eqn:Hk; [|done].
  intros Hacc.
  assert (true_on M s) as Hs.
  { destruct Hacc as [[HK _] _]. eapply Forall_lookup_1; [exact HK|exact Hk]. }
  apply note_safes_tracks.
  - apply note_mines_tracks; [done|].
    intros c Hc%elem_of_elements. by apply (known_mines_true M s).
  - intros c Hc%elem_of_elements. pose proof (known_safes_true M s Hs). set_solver.
Qed.

Lemma note_safes_marked l : ∀ acc c, c ∈ l → c ∈ safes (foldl note_safe acc l).1.
Proof.
  induction l as [|c0 l IH]; intros acc c Hc; [by apply elem_of_nil in Hc|].
  cbn [foldl]. apply elem_of_cons in Hc as [->|Hc]; [|by apply IH].
  pose proof (foldl_grows note_safe l (note_safe acc c0) note_safe_grows) as (_ & Hs & _).
  apply Hs. unfold note_safe. case_decide; [done|]. cbn. set_solver.
Qed.

Lemma note_mines_marked l : ∀ acc c, c ∈ l → c ∈ mines (foldl note_mine acc l).1.
Proof.
  induction l as [|c0 l IH]; intros acc c Hc; [by apply elem_of_nil in Hc|].
  cbn [foldl]. apply elem_of_cons in Hc as [->|Hc]; [|by apply IH].
  pose proof (foldl_grows note_mine l (note_mine acc c0) note_mine_grows) as (_ & _ & Hm).
  apply Hm. unfold note_mine. case_decide; [done|]. cbn. set_solver.
Qed.

(** When the turn of the sentence comes, what is left of it is extracted. *)
Lemma extract_at_resolves acc :
  tracks M X j acc.1 →
  (X ## M → X ⊆ safes (extract_at acc j).1) ∧
  (X ⊆ M → X ⊆ mines (extract_at acc j).1).
Proof.
  intros (Hst & s & Hj & Hsub & Hcov). unfold extract_at. rewrite Hj.
  assert (true_on M s) as Hs.
  { destruct Hst as [HK _]. eapply Forall_lookup_1; [exact HK|exact Hj]. }
  destruct Hst as (_ & Hm & Hsafe).
  set (a1 := foldl note_mine acc (elements (Sentence.known_mines s))).
  pose proof (foldl_grows note_mine (elements (Sentence.known_mines s)) acc
                note_mine_grows) as (_ & Hs1 & Hm1). fold a1 in Hs1, Hm1.
  pose proof (foldl_grows note_safe (elements (Sentence.known_safes s)) a1
                note_safe_grows) as (_ & Hs2 & Hm2).
  split.
  - intros HX x Hx.
    pose proof (Hcov x Hx) as Hin.
    apply elem_of_union in Hin as [Hin|Hxm];
      [apply elem_of_union in Hin as [Hxs|Hxs]|].
    + apply note_safes_marked. apply elem_of_elements.
      unfold Sentence.known_safes. rewrite decide_True; [done|].
      unfold true_on in Hs. rewrite Hs.
      assert (Sentence.cells s ∩ M = ∅) as -> by set_solver. by rewrite size_empty.
    + set_solver.
    + set_solver.
  - intros HX x Hx.
    pose proof (Hcov x Hx) as Hin.
    apply elem_of_union in Hin as [Hin|Hxm];
      [apply elem_of_union in Hin as [Hxs|Hxs]|].
    + apply Hm2. apply note_mines_marked. apply elem_of_elements.
      unfold Sentence.known_mines. rewrite decide_True; [done|].
      unfold true_on in Hs. rewrite Hs.
      assert (Sentence.cells s ∩ M = Sentence.cells s) as -> by set_solver.
      split; [done|].
      assert (size (Sentence.cells s) ≠ 0%nat); [|lia].
      intros Hz. apply (size_empty_inv (C:=gset Cell)) in Hz. set_solver.
    + set_solver.
    + set_solver.
Qed.

Lemma extract_step_resolves st :
  S j = length (knowledge st) → tracks M X j st →
  (X ## M → X ⊆ safes (extract_step st).1) ∧
  (X ⊆ M → X ⊆ mines (extract_step st).1).
Proof.
  intros Hlen Hst. unfold extract_step. rewrite <- Hlen, seq_S, foldl_app. cbn [foldl].
  apply extract_at_resolves.
  apply (foldl_invariant (fun a => tracks M X j a.1)); [done|].
  intros a k _ Ha. by apply extract_at_tracks.
Qed.

End Obvious.

Section FirstRound.

Lemma update_round_after_extraction fuel st st' ch :
  update_round fuel st = Some (st', ch) → grows (extract_step st).1 st'.
Proof.
  unfold update_round. intros Hr.
  destruct (extract_step st) as [st1 ch1]; cbn [fst].
  destruct (infer_outer _ _ _) as [[K3 ch3]|]; [|done].
  pose proof (foldl_grows cross_check (elements (common_cells K3))
    (set_knowledge K3 (set_knowledge (drop_empty (knowledge st1)) st1), ch3)
    cross_check_grows) as H4.
  simplify_eq. rewrite Hr in H4. exact H4.
Qed.

Lemma iterate_after_extraction fuel n st st' ch :
  iterate fuel (S n) st = Some (st', ch) → grows (extract_step st).1 st'.
Proof.
  cbn [iterate].
  destruct (update_round fuel st) as [[st1 ch1]|] eqn:Hr; [|done].
  apply update_round_after_extraction in Hr.
  destruct ch1.
  - intros Hi%iterate_grows.
    destruct Hr as (?&?&?), Hi as (?&?&?). repeat split; set_solver.
  - by intros [= <- _].
Qed.

Lemma update_knowledge_after_extraction fuel st st' :
  update_knowledge fuel st = Some st' → grows (extract_step st).1 st'.
Proof.
  unfold update_knowledge, max_iterations.
  destruct (iterate fuel 100 st) as [[st1 ch]|] eqn:Hi; [|done].
  intros [= <-]. by eapply iterate_after_extraction.
Qed.

End FirstRound.

(** X15.  In a game played on a board the two obvious cases of an
    observation are settled by the call itself.  When the count is the
    number of mines already known around the cell, every other neighbour is
    in [safes] when [add_knowledge] returns; when the count is that number
    plus the number of unclassified neighbours, every unclassified neighbour
    is in [mines]. *)
Theorem obvious_neighbours_settled (g : Minesweeper.t) (h w : Z)
    (obs : list (Cell * Z)) (st st' : t) (cell : Cell) (count : Z) :
  session (truthful g) (init h w) obs st →
  truthful g st cell count →
  observe st cell count st' →
  (count = Z.of_nat (size (get_neighbors st cell ∩ mines st)) →
   get_neighbors st cell ∖ mines st ⊆ safes st') ∧
  (count = Z.of_nat (size (get_neighbors st cell ∩ mines st))
           + Z.of_nat (size (get_neighbors st cell ∖ safes st ∖ mines st)) →
   get_neighbors st cell ∖ safes st ∖ mines st ⊆ mines st').
Proof.
  intros Hs Hpre [fuel Hcall].
  pose proof (board_session_sound g h w obs st Hs) as Hst.
  pose proof (record_observation_sound g cell count st Hst Hpre) as Hr.
  set (M := Minesweeper.mines g) in *.
  set (N := get_neighbors st cell).
  set (X := N ∖ safes st ∖ mines st).
  pose proof (update_knowledge_after_extraction _ _ _ Hcall) as (_ & Hgs & Hgm).
  pose proof (update_knowledge_grows _ _ _ Hcall) as (_ & Hrs & Hrm).
  assert (cell ∉ N) as HcN.
  { unfold N. destruct cell as [i j]. rewrite elem_of_get_neighbors. tauto. }
  assert (safes (record_observation cell count st) = {[cell]} ∪ safes st
          ∧ mines (record_observation cell count st) = mines st) as [HRs HRm].
  { unfold record_observation. by case_decide. }
  destruct (decide (X = ∅)) as [HX|HX].
  { split; intros _; [|set_solver].
    intros x [HxN Hxm]%elem_of_difference. apply Hrs. rewrite HRs.
    destruct (decide (x ∈ safes st)); [set_solver|]. exfalso.
    assert (x ∈ X) by set_solver. set_solver. }
  assert (knowledge (record_observation cell count st)
          = map (Sentence.mark_safe cell) (knowledge st)
            ++ [Sentence.mk X (count - Z.of_nat (size (N ∩ mines st)))]) as HK.
  { unfold record_observation.
    cbn [mark_safe height width moves_made mines safes knowledge].
    repeat match goal with
    | |- context [get_neighbors ?s cell] =>
        lazymatch s with
        | st => fail
        | _ => change (get_neighbors s cell) with (get_neighbors st cell)
        end
    end.
    fold N.
    assert (N ∖ ({[cell]} ∪ safes st) ∖ mines st = X) as -> by set_solver.
    rewrite decide_True; [done|]. cbn [Sentence.cells].
    assert (size X ≠ 0%nat); [|lia].
    intros Hz. apply (size_empty_inv (C:=gset Cell)) in Hz. set_solver. }
  assert (true_on M (Sentence.mk X (count - Z.of_nat (size (N ∩ mines st))))) as Hnew.
  { destruct Hr as [HT _]. rewrite HK in HT. apply Forall_app in HT as [_ HT].
    apply Forall_cons in HT as [HT _]. exact HT. }
  unfold true_on in Hnew. cbn [Sentence.cells Sentence.count] in Hnew.
  assert (tracks M X (length (knowledge st)) (record_observation cell count st)) as Ht.
  { split; [done|]. eexists. split; [|split].
    - rewrite HK. rewrite lookup_app_r by (rewrite length_map; lia).
      rewrite length_map, Nat.sub_diag. reflexivity.
    - done.
    - cbn [Sentence.cells]. set_solver. }
  destruct (extract_step_resolves M X (length (knowledge st))
              (record_observation cell count st)) as [Hzero Hfull]; [|done|].
  { rewrite HK, length_app, length_map. cbn. lia. }
  split.
  - intros Hc. intros x [HxN Hxm]%elem_of_difference.
    destruct (decide (x ∈ safes st)) as [Hxs|Hxs]; [apply Hrs; set_solver|].
    apply Hgs, Hzero; [|set_solver].
    apply (empty_inter_disjoint M). lia.
  - intros Hc. intros x Hx. apply Hgm, Hfull; [|done].
    apply (full_inter_subseteq M). lia.
Qed.

(** * The matrix of the board *)

Section Matrix.

Lemma py_get_in_range {A} (l : list A) (i : Z) :
  0 ≤ i < Z.of_nat (length l) → Game.py_get l i = l !! Z.to_nat i.
Proof. intros Hi. unfold Game.py_get. by rewrite decide_True by lia. Qed.

Lemma board_get_in_range g i j :
  matrix_ok g → 0 ≤ i < Game.height g → 0 ≤ j < Game.width g →
  Game.board_get g i j = Some (bool_decide ((i, j) ∈ Game.mines g)).
Proof.
  intros (Hlen & Hrows & Hin & Hm) Hi Hj. unfold Game.board_get.
  rewrite py_get_in_range by lia.
  destruct (lookup_lt_is_Some_2 (Game.board g) (Z.to_nat i)) as [row Hrow]; [lia|].
  rewrite Hrow. cbn.
  assert (length row = Z.to_nat (Game.width g)) as Hrl.
  { rewrite Forall_forall in Hrows. apply Hrows. by eapply list_elem_of_lookup_2. }
  rewrite py_get_in_range by lia.
  destruct (lookup_lt_is_Some_2 row (Z.to_nat j)) as [b Hb]; [lia|].
  rewrite Hb. f_equal.
  specialize (Hm (Z.to_nat i) (Z.to_nat j) row Hrow).
  rewrite !Z2Nat.id in Hm by lia. rewrite Hb in Hm.
  destruct b.
  - symmetry. apply bool_decide_eq_true. by apply Hm.
  - symmetry. apply bool_decide_eq_false. intros Hc. apply Hm in Hc. done.
Qed.

Lemma empty_field_ok h w : matrix_ok (Game.empty_field h w).
Proof.
  unfold matrix_ok, Game.empty_field. cbn. split; [by rewrite length_replicate|].
  split; [|split].
  - apply Forall_forall. intros row [-> _]%elem_of_replicate. by rewrite length_replicate.
  - intros c Hc. by apply elem_of_empty in Hc.
  - intros i j row [-> _]%lookup_replicate. split.
    + intros [? _]%lookup_replicate. done.
    + intros Hc. by apply elem_of_empty in Hc.
Qed.

Lemma board_mark_in_range g i j :
  matrix_ok g → 0 ≤ i < Game.height g → 0 ≤ j < Game.width g →
  ∃ row, Game.board g !! Z.to_nat i = Some row ∧
         Game.board_mark g i j
         = Some (<[Z.to_nat i := <[Z.to_nat j := true]> row]> (Game.board g)).
Proof.
  intros (Hlen & Hrows & _) Hi Hj. unfold Game.board_mark.
  rewrite py_get_in_range by lia.
  destruct (lookup_lt_is_Some_2 (Game.board g) (Z.to_nat i)) as [row Hrow]; [lia|].
  exists row. split; [done|]. rewrite Hrow. cbn.
  assert (length row = Z.to_nat (Game.width g)) as Hrl.
  { rewrite Forall_forall in Hrows. apply Hrows. by eapply list_elem_of_lookup_2. }
  unfold Game.py_set. rewrite !decide_True by lia. cbn.
  by rewrite !decide_True by lia.
Qed.

Lemma add_mine_ok g i j row :
  matrix_ok g → 0 ≤ i < Game.height g → 0 ≤ j < Game.width g →
  Game.board g !! Z.to_nat i = Some row →
  matrix_ok (Game.mk (Game.height g) (Game.width g) ({[(i, j)]} ∪ Game.mines g)
               (<[Z.to_nat i := <[Z.to_nat j := true]> row]> (Game.board g))
               (Game.mines_found g)).
Proof.
  intros (Hlen & Hrows & Hin & Hm) Hi Hj Hrow. unfold matrix_ok. cbn.
  assert (length row = Z.to_nat (Game.width g)) as Hrl.
  { rewrite Forall_forall in Hrows. apply Hrows. by eapply list_elem_of_lookup_2. }
  split; [by rewrite length_insert|]. split; [|split].
  - apply Forall_insert; [done|]. by rewrite length_insert.
  - intros c [->%elem_of_singleton|Hc]%elem_of_union; [cbn; lia|by apply Hin].
  - intros i' j' row' Hrow'.
    destruct (decide (i' = Z.to_nat i)) as [->|Hne].
    + rewrite list_lookup_insert_eq in Hrow' by lia. simplify_eq.
      destruct (decide (j' = Z.to_nat j)) as [->|Hnej].
      * rewrite list_lookup_insert_eq by lia. rewrite !Z2Nat.id by lia. set_solver.
      * rewrite list_lookup_insert_ne by done. rewrite (Hm _ _ _ Hrow).
        rewrite Z2Nat.id by lia. split; [set_solver|].
        intros [Heq%elem_of_singleton|Hc]%elem_of_union; [|done].
        simplify_eq. lia.
    + rewrite list_lookup_insert_ne in Hrow' by done. rewrite (Hm _ _ _ Hrow').
      split; [set_solver|].
      intros [Heq%elem_of_singleton|Hc]%elem_of_union; [|done].
      simplify_eq. lia.
Qed.

Lemma randrange_Some n r i : Game.randrange n r = Some i → 0 ≤ i < n.
Proof.
  unfold Game.randrange. case_decide; [|done]. intros [= <-].
  by apply Z.mod_pos_bound.
Qed.

Lemma place_mines_returned h w target draws : ∀ g g',
  Game.height g = h → Game.width g = w → matrix_ok g →
  Game.place_mines h w target draws g = Game.Returned g' →
  matrix_ok g' ∧ Z.of_nat (size (Game.mines g')) = target ∧
  Game.height g' = h ∧ Game.width g' = w ∧ Game.mines g ⊆ Game.mines g' ∧
  Game.mines_found g' = Game.mines_found g.
Proof.
  induction draws as [|[ri rj] draws IH]; intros g g' Hh Hw Hok; cbn [Game.place_mines].
  - case_decide; [|done]. intros [= <-]. done.
  - case_decide; [intros [= <-]; done|].
    destruct (Game.randrange h ri) as [i|] eqn:Hi; [|done].
    destruct (Game.randrange w rj) as [j|] eqn:Hj; [|done].
    apply randrange_Some in Hi, Hj.
    rewrite board_get_in_range by (done || lia).
    case_bool_decide as Hc; [by apply IH|].
    destruct (board_mark_in_range g i j Hok ltac:(lia) ltac:(lia)) as (row & Hrow & ->).
    intros Hres. apply IH in Hres; [| done | done | apply add_mine_ok; (done || lia)].
    cbn in Hres. destruct Hres as (Hok' & Hsz & Hh' & Hw' & Hsub & Hmf).
    do 4 (split; [done|]). split; [|done].
    intros c Hcg. apply Hsub. apply elem_of_union. by right.
Qed.

End Matrix.

Section Constructor.

Lemma size_list_to_set_le (l : list Cell) :
  (size (list_to_set l : gset Cell) ≤ length l)%nat.
Proof.
  induction l as [|c l IH]; cbn [list_to_set length]; [by rewrite size_empty|].
  rewrite (size_union_alt (C:=gset Cell) {[c]}), size_singleton.
  assert (size (list_to_set l ∖ {[c]} : gset Cell) ≤ size (list_to_set l : gset Cell))%nat
    by (apply subseteq_size; set_solver).
  lia.
Qed.

Lemma length_grid (h w : Z) :
  length (i ← seqZ 0 h; j ← seqZ 0 w; [(i, j)]) = (Z.to_nat h * Z.to_nat w)%nat.
Proof.
  assert (∀ i : Z, length (j ← seqZ 0 w; [(i, j)]) = Z.to_nat w) as Hrow.
  { intros i. generalize (seqZ 0 w) (length_seqZ 0 w). intros l <-.
    induction l as [|j l IH]; [done|]. cbn. by rewrite IH. }
  generalize (seqZ 0 h) (length_seqZ 0 h). intros l <-.
  induction l as [|i l IH]; [done|].
  rewrite bind_cons, length_app, IH, Hrow. cbn. lia.
Qed.

Lemma size_on_grid (h w : Z) (S : gset Cell) :
  0 ≤ h → 0 ≤ w →
  (∀ c, c ∈ S → (0 ≤ c.1 ∧ c.1 < h) ∧ (0 ≤ c.2 ∧ c.2 < w)) →
  Z.of_nat (size S) ≤ h * w.
Proof.
  intros Hh Hw HS.
  assert (S ⊆ all_moves (init h w)) as Hsub.
  { intros c Hc. apply elem_of_all_moves. by apply HS. }
  apply subseteq_size in Hsub.
  pose proof (size_list_to_set_le (i ← seqZ 0 h; j ← seqZ 0 w; [(i, j)])) as Hle.
  rewrite length_grid in Hle. unfold all_moves in Hsub. cbn [height width init] in Hsub.
  nia.
Qed.

Lemma place_mines_safe h w target draws : ∀ g,
  0 < h → 0 < w → Game.height g = h → Game.width g = w → matrix_ok g →
  Game.place_mines h w target draws g ≠ Game.Raised.
Proof.
  induction draws as [|[ri rj] draws IH]; intros g Hhp Hwp Hh Hw Hok;
    cbn [Game.place_mines].
  - by case_decide.
  - case_decide; [done|].
    unfold Game.randrange. rewrite !decide_True by done.
    pose proof (Z.mod_pos_bound (Z.of_nat ri) h Hhp) as Hi.
    pose proof (Z.mod_pos_bound (Z.of_nat rj) w Hwp) as Hj.
    rewrite board_get_in_range by (done || lia).
    case_bool_decide as Hc; [by apply IH|].
    destruct (board_mark_in_range g (Z.of_nat ri `mod` h) (Z.of_nat rj `mod` w) Hok
                ltac:(lia) ltac:(lia)) as (row & Hrow & ->).
    apply IH; [done|done|done|done|]. apply add_mine_ok; (done || lia).
Qed.

Lemma place_mines_stuck h w target draws g :
  0 < h → 0 < w → Game.height g = h → Game.width g = w → matrix_ok g →
  target < 0 ∨ h * w < target →
  Game.place_mines h w target draws g = Game.Running.
Proof.
  intros Hhp Hwp Hh Hw Hok Ht.
  pose proof (place_mines_safe h w target draws g Hhp Hwp Hh Hw Hok) as Hsafe.
  destruct (Game.place_mines h w target draws g) as [g'| |] eqn:Hres; [|done|done].
  exfalso. apply place_mines_returned in Hres as (Hok' & Hsz & Hh' & Hw' & _); [|done..].
  destruct Hok' as (_ & _ & Hin & _). rewrite Hh', Hw' in Hin.
  pose proof (size_on_grid h w (Game.mines g') ltac:(lia) ltac:(lia) Hin). lia.
Qed.

Lemma nearby_mines_plan g cell l : ∀ acc,
  matrix_ok g →
  foldl (fun acc c =>
           count ← acc;
           if decide (c = cell) then Some count
           else if decide ((0 ≤ c.1 ∧ c.1 < Game.height g) ∧ (0 ≤ c.2 ∧ c.2 < Game.width g))
                then b ← Game.board_get g c.1 c.2;
                     Some (if b : bool then count + 1 else count)
                else Some count)
        (Some acc) l
  = Some (foldl (fun count c =>
           if decide (c = cell) then count
           else if decide ((0 ≤ c.1 ∧ c.1 < Minesweeper.height (Game.plan g))
                           ∧ (0 ≤ c.2 ∧ c.2 < Minesweeper.width (Game.plan g)))
                then (if Minesweeper.is_mine (Game.plan g) c then count + 1 else count)
                else count) acc l).
Proof.
  intros acc Hok. revert acc. induction l as [|c l IH]; intros acc; [done|].
  cbn [foldl]. rewrite <- IH. f_equal. cbn [mbind option_bind].
  cbn [Game.plan Minesweeper.height Minesweeper.width].
  destruct (decide (c = cell)); [done|].
  destruct (decide _) as [[Hi Hj]|]; [|done].
  rewrite board_get_in_range by done. cbn.
  unfold Minesweeper.is_mine. cbn [Game.plan Minesweeper.mines].
  by destruct c.
Qed.

Lemma game_nearby_mines g cell :
  matrix_ok g →
  Game.nearby_mines g cell = Some (Minesweeper.nearby_mines (Game.plan g) cell).
Proof.
  intros Hok. unfold Game.nearby_mines, Minesweeper.nearby_mines.
  exact (nearby_mines_plan g cell (Minesweeper.window cell) 0 Hok).
Qed.

Lemma asked_truthful g st cell count :
  matrix_ok g → asked g st cell count → truthful (Game.plan g) st cell count.
Proof.
  intros Hok (Hh & Hw & Hin & Hnew & Hm & Hn).
  split; [done|]. split; [done|]. split; [done|]. split; [done|].
  destruct Hin as [Hi Hj]. rewrite <- Hh in Hi. rewrite <- Hw in Hj.
  split.
  - unfold Game.is_mine in Hm. rewrite board_get_in_range in Hm by done.
    injection Hm as Hm. apply bool_decide_eq_false in Hm. by destruct cell.
  - rewrite game_nearby_mines in Hn by done.
    apply (inj Some) in Hn. symmetry. exact Hn.
Qed.

Lemma init_returned h w target draws g :
  Game.init h w target draws = Game.Returned g →
  matrix_ok g ∧ Game.height g = h ∧ Game.width g = w ∧
  Z.of_nat (size (Game.mines g)) = target ∧ Game.mines_found g = ∅.
Proof.
  unfold Game.init.
  destruct (Game.place_mines h w target draws (Game.empty_field h w)) as [g0| |] eqn:Hres;
    [|done|done].
  intros [= <-].
  apply place_mines_returned in Hres as (Hok & Hsz & Hh & Hw & _ & _);
    [|done|done|apply empty_field_ok].
  split; [exact Hok|]. done.
Qed.

End Constructor.

(** X16.  When the constructor returns, the object is as announced: the
    matrix has [height] rows of [width] entries and is [True] exactly on
    the cells of [mines], which are cells of the grid and as many as were
    asked for; [mines_found] is empty, so the new game counts as won only
    when it has no mine. *)
Theorem constructor_postcondition (h w target : Z) (draws : list (nat * nat))
    (g : Game.t) :
  Game.init h w target draws = Game.Returned g →
  matrix_ok g ∧ Game.height g = h ∧ Game.width g = w ∧
  Z.of_nat (size (Game.mines g)) = target ∧
  Game.mines_found g = ∅ ∧
  (Game.won g = true ↔ target = 0).
Proof.
  intros (Hok & Hh & Hw & Hsz & Hmf)%init_returned.
  do 5 (split; [done|]).
  unfold Game.won. rewrite Hmf, bool_decide_eq_true. split.
  - intros Heq. rewrite <- Heq, size_empty in Hsz. lia.
  - intros Ht. rewrite Ht in Hsz. symmetry.
    assert (size (Game.mines g) = 0%nat) as Hz by lia.
    apply (size_empty_inv (C:=gset Cell)) in Hz. by apply leibniz_equiv.
Qed.

Lemma constructor_postcondition_witness :
  ∃ g, Game.init 2 2 1 [(0, 1)%nat] = Game.Returned g ∧
       matrix_ok g ∧ Game.mines g = {[(0, 1)]} ∧ Game.won g = false.
Proof.
  exists (Game.mk 2 2 {[(0, 1)]} [[false; true]; [false; false]] ∅).
  assert (Game.init 2 2 1 [(0, 1)%nat]
          = Game.Returned (Game.mk 2 2 {[(0, 1)]} [[false; true]; [false; false]] ∅)) as Hi
    by (vm_compute; reflexivity).
  split; [exact Hi|].
  split; [exact (proj1 (constructor_postcondition 2 2 1 _ _ Hi))|]. done.
Defined.

(** X17.  The constructor does not always return.  With no mine asked for it
    returns the empty field at once, whatever the sizes.  On a grid with a
    cell it never returns and never raises when the number of mines asked
    for is negative or exceeds the number of cells: it keeps drawing.  On a
    grid without cells it raises at its first draw as soon as a mine is
    asked for. *)
Theorem constructor_may_not_return (h w target : Z) (draws : list (nat * nat)) :
  (target = 0 →
   Game.init h w target draws = Game.Returned (Game.empty_field h w)) ∧
  (0 < h → 0 < w → target < 0 ∨ h * w < target →
   Game.init h w target draws = Game.Running) ∧
  (h ≤ 0 ∨ w ≤ 0 → target ≠ 0 → draws ≠ [] →
   Game.init h w target draws = Game.Raised).
Proof.
  split; [|split].
  - intros ->. unfold Game.init. destruct draws as [|[ri rj] draws]; by cbn.
  - intros Hh Hw Ht. unfold Game.init.
    by rewrite place_mines_stuck by (done || apply empty_field_ok).
  - intros Hhw Ht Hd. unfold Game.init. destruct draws as [|[ri rj] draws]; [done|].
    cbn [Game.place_mines]. rewrite decide_False.
    2:{ cbn. rewrite size_empty. lia. }
    unfold Game.randrange. destruct (decide (0 < h)); [|done].
    rewrite decide_False by lia. done.
Qed.

(** X18.  [is_mine] reads the matrix with Python indices.  On a well-made
    object it answers, for a cell of the grid, whether the cell is in
    [mines]; for a row index from [-height] to [-1] it answers for the row
    [height] further on, and likewise for columns; for a row index beyond
    that it raises [IndexError]. *)
Theorem is_mine_indexing (g : Game.t) (i j : Z) :
  matrix_ok g →
  (0 ≤ i < Game.height g → 0 ≤ j < Game.width g →
   Game.is_mine g (i, j) = Some (bool_decide ((i, j) ∈ Game.mines g))) ∧
  (- Game.height g ≤ i < 0 →
   Game.is_mine g (i, j) = Game.is_mine g (i + Game.height g, j)) ∧
  (0 ≤ i < Game.height g → - Game.width g ≤ j < 0 →
   Game.is_mine g (i, j) = Game.is_mine g (i, j + Game.width g)) ∧
  (Game.height g ≤ i ∨ i < - Game.height g → 0 ≤ Game.height g →
   Game.is_mine g (i, j) = None).
Proof.
  intros Hok. split; [intros; by apply board_get_in_range|].
  destruct Hok as (Hlen & Hrows & _).
  unfold Game.is_mine, Game.board_get. cbn [fst snd]. split; [|split].
  - intros Hi. unfold Game.py_get at 2 4.
    rewrite decide_False, decide_True, decide_True by lia.
    do 2 f_equal. lia.
  - intros Hi Hj. rewrite py_get_in_range by lia.
    destruct (lookup_lt_is_Some_2 (Game.board g) (Z.to_nat i)) as [row Hrow]; [lia|].
    rewrite Hrow. cbn.
    assert (length row = Z.to_nat (Game.width g)) as Hrl.
    { rewrite Forall_forall in Hrows. apply Hrows. by eapply list_elem_of_lookup_2. }
    unfold Game.py_get. rewrite decide_False, decide_True, decide_True by lia.
    f_equal. lia.
  - intros Hi Hh. unfold Game.py_get at 2.
    destruct (decide (0 ≤ i)).
    + rewrite lookup_ge_None_2 by lia. done.
    + rewrite decide_False by lia. done.
Qed.

Lemma is_mine_indexing_witness :
  Game.is_mine (Game.mk 2 2 {[(0, 1)]} [[false; true]; [false; false]] ∅) (-2, 1)
  = Some true ∧
  Game.is_mine (Game.mk 2 2 {[(0, 1)]} [[false; true]; [false; false]] ∅) (2, 1) = None.
Proof.
  set (g := Game.mk 2 2 {[(0, 1)]} [[false; true]; [false; false]] ∅).
  assert (Game.init 2 2 1 [(0, 1)%nat] = Game.Returned g) as Hi by (vm_compute; reflexivity).
  pose proof (proj1 (init_returned 2 2 1 _ _ Hi)) as Hok.
  destruct (is_mine_indexing g (-2) 1 Hok) as (_ & Hrow & _ & _).
  destruct (is_mine_indexing g 2 1 Hok) as (_ & _ & _ & Hout).
  split.
  - rewrite Hrow by (cbn; lia). vm_compute. reflexivity.
  - apply Hout; cbn; lia.
Defined.

Lemma safe_move_has_no_mine_witness :
  session (truthful strip_board) (init 1 3) [((0, 0), 0)] strip_end ∧
  in_bounds strip_end (0, 1) ∧ ((0, 1) ∉ moves_made strip_end) ∧
  ((0, 1) ∉ Minesweeper.mines strip_board).
Proof.
  assert (session (truthful strip_board) (init 1 3) [((0, 0), 0)] strip_end) as Hs.
  { apply (replay_session (truthful strip_board) 5). vm_compute. reflexivity. }
  split; [exact Hs|].
  apply (proj1 (safe_move_has_no_mine strip_board 1 3 _ strip_end 0 (0, 1) Hs)).
  vm_compute. reflexivity.
Defined.

Lemma board_play_returns_witness :
  ∃ st', observe corner_first (1, 0) 1 st' ∧
         session (truthful corner_board) (init 2 2) ([((0, 0), 1)] ++ [((1, 0), 1)]) st'.
Proof.
  apply (board_play_returns corner_board 2 2 [((0, 0), 1)] corner_first (1, 0) 1).
  - apply (replay_session (truthful corner_board) 5). vm_compute. reflexivity.
  - apply (bool_decide_unpack _). vm_compute. reflexivity.
Defined.

Lemma obvious_neighbours_settled_witness :
  get_neighbors (init 1 3) (0, 0) ∖ mines (init 1 3) ⊆ safes strip_end.
Proof.
  apply (obvious_neighbours_settled strip_board 1 3 [] (init 1 3) strip_end (0, 0) 0).
  - constructor.
  - apply (bool_decide_unpack _). vm_compute. reflexivity.
  - exists 5%nat. vm_compute. reflexivity.
  - vm_compute. reflexivity.
Defined.

Section Driver.

Lemma asked_session_truthful g h w obs st :
  matrix_ok g → session (asked g) (init h w) obs st →
  session (truthful (Game.plan g)) (init h w) obs st.
Proof.
  intros Hok. apply session_weaken. intros st0 c n. by apply asked_truthful.
Qed.

End Driver.

(** X19.  On a well-made object [nearby_mines] never raises, for any cell:
    it reads the matrix only inside the grid, and answers the number of
    cells of [mines] among the neighbours of the cell on the grid, a number
    from 0 to 8. *)
Theorem nearby_mines_reads_mines (g : Game.t) (cell : Cell) :
  matrix_ok g →
  Game.nearby_mines g cell = Some (Minesweeper.nearby_mines (Game.plan g) cell) ∧
  Minesweeper.nearby_mines (Game.plan g) cell
  = Z.of_nat (size (get_neighbors (init (Game.height g) (Game.width g)) cell
                    ∩ Game.mines g)) ∧
  0 ≤ Minesweeper.nearby_mines (Game.plan g) cell ≤ 8.
Proof.
  intros Hok. split.
  - by apply game_nearby_mines.
  - set (st := init (Game.height g) (Game.width g)).
    rewrite (nearby_mines_size (Game.plan g) st cell eq_refl eq_refl).
    split; [done|].
    pose proof (size_get_neighbors st cell) as H8.
    assert (size (get_neighbors st cell ∩ Minesweeper.mines (Game.plan g))
            ≤ size (get_neighbors st cell))%nat by (apply subseteq_size; set_solver).
    lia.
Qed.

Lemma nearby_mines_reads_mines_witness :
  Game.nearby_mines corner_game (5, 5) = Some 0 ∧
  Game.nearby_mines corner_game (1, 1) = Some 1.
Proof.
  assert (Game.init 2 2 1 [(0, 1)%nat] = Game.Returned corner_game) as Hi
    by (vm_compute; reflexivity).
  pose proof (proj1 (init_returned 2 2 1 _ _ Hi)) as Hok.
  split.
  - rewrite (proj1 (nearby_mines_reads_mines corner_game (5, 5) Hok)).
    vm_compute. reflexivity.
  - rewrite (proj1 (nearby_mines_reads_mines corner_game (1, 1) Hok)).
    vm_compute. reflexivity.
Defined.

(** X20.  A game driven from the object: every observation is a new cell of
    the grid for which [is_mine] answers [False], with the count that
    [nearby_mines] answers.  Then for every cell of [mines] the object
    answers [True], for every cell of [safes] it answers [False], and so
    it does for every move that [make_safe_move] proposes. *)
Theorem driven_game_is_sound (g : Game.t) (obs : list (Cell * Z)) (st : t) :
  matrix_ok g →
  session (asked g) (init (Game.height g) (Game.width g)) obs st →
  (∀ c, c ∈ mines st → Game.is_mine g c = Some true) ∧
  (∀ c, c ∈ safes st → Game.is_mine g c = Some false) ∧
  (∀ r c, (make_safe_move r st).1 = Some c → Game.is_mine g c = Some false).
Proof.
  intros Hok Hs.
  pose proof (asked_session_truthful g _ _ obs st Hok Hs) as Ht.
  pose proof (board_session_sound _ _ _ _ _ Ht) as (_ & Hm & Hsafe).
  apply (session_weaken _ on_grid) in Ht; [|apply truthful_on_grid].
  apply grid_session_inside in Ht as [[Hh Hw] (HsU & HmU & _)].
  cbn [Game.plan Minesweeper.mines] in Hm, Hsafe.
  assert (∀ c, c ∈ all_moves (init (Game.height g) (Game.width g)) →
               Game.is_mine g c = Some (bool_decide (c ∈ Game.mines g))) as Hread.
  { intros [i j] [Hi Hj]%elem_of_all_moves. cbn in Hi, Hj.
    unfold Game.is_mine. cbn [fst snd]. by apply board_get_in_range. }
  assert (∀ c, c ∈ safes st → Game.is_mine g c = Some false) as Hsf.
  { intros c Hc. rewrite Hread by by apply HsU.
    f_equal. apply bool_decide_eq_false. intros Hcm. by apply (Hsafe c). }
  split; [|split; [done|]].
  - intros c Hc. rewrite Hread by by apply HmU.
    f_equal. apply bool_decide_eq_true. by apply Hm.
  - intros r c Hc. apply Hsf.
    unfold make_safe_move in Hc. cbn in Hc. case_decide; [done|].
    apply choice_elem_of, elem_of_elements in Hc. set_solver.
Qed.

Lemma driven_game_is_sound_witness :
  session (asked corner_game) (init 2 2) [((0, 0), 1)] corner_first ∧
  Game.is_mine corner_game (0, 0) = Some false.
Proof.
  assert (Game.init 2 2 1 [(0, 1)%nat] = Game.Returned corner_game) as Hi
    by (vm_compute; reflexivity).
  pose proof (proj1 (init_returned 2 2 1 _ _ Hi)) as Hok.
  assert (session (asked corner_game) (init 2 2) [((0, 0), 1)] corner_first) as Hs.
  { apply (replay_session (asked corner_game) 5). vm_compute. reflexivity. }
  split; [exact Hs|].
  apply (proj1 (proj2 (driven_game_is_sound corner_game _ corner_first Hok Hs))).
  unfold corner_first. cbn [safes]. set_solver.
Defined.

(** * The state in which the loop comes to rest *)

Section AtRest.

Lemma update_round_still_parts fuel st st' :
  update_round fuel st = Some (st', false) →
  extract_step st = (st, false) ∧
  infer_outer fuel 0 (drop_empty (knowledge st), false)
  = Some (drop_empty (knowledge st), false).
Proof.
  unfold update_round. intros Hr.
  destruct (extract_step st) as [st1 ch1] eqn:H1.
  destruct (infer_outer _ _ _) as [[K3 ch3]|] eqn:H3; [|done].
  injection Hr as Hr.
  assert ((foldl cross_check
             (set_knowledge K3 (set_knowledge (drop_empty (knowledge st1)) st1), ch3)
             (elements (common_cells K3))).2 = false) as H4 by by rewrite Hr.
  apply foldl_quiet in H4 as [H4 _]; [|apply cross_check_quiet].
  rewrite H4 in Hr. simplify_eq.
  apply infer_outer_quiet in H3 as H3'; [|done].
  simplify_eq.
  assert (st1 = st) as ->.
  { assert ((extract_step st).2 = false) as Hq by by rewrite H1.
    unfold extract_step in Hq, H1.
    apply foldl_quiet in Hq as [Hq _]; [|apply extract_at_quiet].
    rewrite Hq in H1. by injection H1. }
  done.
Qed.

Lemma update_round_at_rest fuel st :
  update_round fuel st = Some (st, false) →
  quiescent st ∧ knowledge st = drop_empty (knowledge st) ∧
  infer_outer fuel 0 (knowledge st, false) = Some (knowledge st, false).
Proof.
  intros Hr. pose proof Hr as [Heq _]%update_round_unchanged.
  assert (knowledge st = drop_empty (knowledge st)) as HK.
  { rewrite Heq at 1. done. }
  apply update_round_still_parts in Hr as [H1 H3].
  split; [by apply extract_step_quiescent|]. split; [done|].
  rewrite <- HK in H3. exact H3.
Qed.

(** A pass that reports no change has found every sentence it could derive
    already in the list. *)
Lemma infer_outer_saturated fuel : ∀ i K,
  infer_outer fuel i (K, false) = Some (K, false) →
  ∀ i' j s1 s2 s, (i ≤ i' < j)%nat → K !! i' = Some s1 → K !! j = Some s2 →
                  infer_from_sentences s1 s2 = Some s → s ∈ K.
Proof.
  induction fuel as [|fuel IH]; intros i K Hres i' j s1 s2 s Hij H1 H2 Hs.
  - cbn in Hres. destruct (K !! i) eqn:Hi; [done|].
    apply lookup_ge_None in Hi. apply lookup_lt_Some in H1. lia.
  - cbn [infer_outer fst] in Hres. destruct (K !! i) as [h|] eqn:Hi.
    2:{ apply lookup_ge_None in Hi. apply lookup_lt_Some in H1. lia. }
    pose proof (infer_outer_quiet _ _ _ _ Hres eq_refl) as Hfold.
    symmetry in Hfold.
    assert ((foldl (infer_pair h) (K, false) (drop (S i) K)).2 = false) as Hfl
      by by rewrite Hfold.
    apply foldl_quiet in Hfl as [_ Hfl]; [|apply infer_pair_quiet].
    destruct (decide (i' = i)) as [->|Hne].
    + simplify_eq.
      assert (s2 ∈ drop (S i) K) as Hin.
      { apply list_elem_of_lookup. exists (j - S i)%nat. rewrite lookup_drop.
        replace (S i + (j - S i))%nat with j by lia. done. }
      specialize (Hfl s2 Hin). unfold infer_pair in Hfl. rewrite Hs in Hfl.
      cbn [fst] in Hfl. case_decide; [done|].
      exfalso. injection Hfl as Hfl. 
      assert (length (K ++ [s]) = length K) as Hlen by by rewrite Hfl.
      rewrite length_app in Hlen. cbn in Hlen. lia.
    + rewrite Hfold in Hres. eapply (IH (S i) K Hres i' j); eauto. lia.
Qed.

End AtRest.

(** X21.  When [update_knowledge] returns because a round made no change,
    from an engine whose sentences mention no classified cell, the
    collection is at rest: no sentence is without cells, none is decided
    (its count is neither 0 nor the number of its cells), no two entries
    have the same cells, and every sentence that subset elimination derives
    from two entries is an entry. *)
Theorem settled_knowledge_at_rest (fuel : nat) (st st' : t) :
  projected st →
  iterate fuel max_iterations st = Some (st', false) →
  Forall (fun s => Sentence.cells s ≠ ∅ ∧ Sentence.count s ≠ 0
                   ∧ Sentence.count s ≠ Z.of_nat (size (Sentence.cells s)))
         (knowledge st') ∧
  (∀ i j s1 s2, knowledge st' !! i = Some s1 → knowledge st' !! j = Some s2 →
                Sentence.cells s1 = Sentence.cells s2 → i = j) ∧
  (∀ s1 s2 s, s1 ∈ knowledge st' → s2 ∈ knowledge st' →
              infer_from_sentences s1 s2 = Some s → s1 = s2 ∨ s ∈ knowledge st').
Proof.
  intros Hp Hi.
  pose proof (iterate_projected _ _ _ _ _ Hi Hp) as Hp'.
  apply iterate_settled, update_round_at_rest in Hi as (Hq & HK & Hsat).
  assert (Forall (fun s => Sentence.cells s ≠ ∅) (knowledge st')) as Hne.
  { rewrite HK. apply Forall_forall. intros s [Hs _]%list_elem_of_filter.
    intros Hc. rewrite Hc, size_empty in Hs. lia. }
  assert (∀ i j s1 s2, (i < j)%nat → knowledge st' !! i = Some s1 →
            knowledge st' !! j = Some s2 → Sentence.cells s1 ≠ Sentence.cells s2) as Hlt.
  { intros i j s1 s2 Hij H1 H2 Heq.
    assert (Sentence.mk (Sentence.cells s2 ∖ Sentence.cells s1)
                        (Sentence.count s2 - Sentence.count s1) ∈ knowledge st') as Hin.
    { apply (infer_outer_saturated fuel 0 _ Hsat i j s1 s2); [lia|done|done|].
      unfold infer_from_sentences. rewrite decide_True; [done|]. by rewrite Heq. }
    rewrite Forall_forall in Hne. apply (Hne _ Hin). cbn. rewrite Heq. set_solver. }
  split; [|split].
  - apply Forall_forall. intros s Hs.
    rewrite Forall_forall in Hne. pose proof (Hne s Hs) as Hc.
    unfold quiescent in Hq. rewrite Forall_forall in Hq. destruct (Hq s Hs) as [Hm Hsf].
    unfold projected in Hp'. rewrite Forall_forall in Hp'. destruct (Hp' s Hs) as [Hds Hdm].
    split; [done|]. split.
    + intros Hz. unfold Sentence.known_safes in Hsf. rewrite decide_True in Hsf by done.
      set_solver.
    + intros Hfull. unfold Sentence.known_mines in Hm. rewrite decide_True in Hm.
      * set_solver.
      * split; [done|]. rewrite Hfull.
        assert (size (Sentence.cells s) ≠ 0%nat); [|lia].
        intros Hz. apply (size_empty_inv (C:=gset Cell)) in Hz. set_solver.
  - intros i j s1 s2 H1 H2 Heq.
    destruct (Nat.lt_trichotomy i j) as [Hij|[Hij|Hij]]; [|done|].
    + by destruct (Hlt i j s1 s2 Hij H1 H2).
    + by destruct (Hlt j i s2 s1 Hij H2 H1).
  - intros s1 s2 s [i H1]%list_elem_of_lookup [j H2]%list_elem_of_lookup Hs.
    destruct (Nat.lt_trichotomy i j) as [Hij|[Hij|Hij]].
    + right. apply (infer_outer_saturated fuel 0 _ Hsat i j s1 s2); (lia || done).
    + left. subst. congruence.
    + right. apply (infer_outer_saturated fuel 0 _ Hsat j i s2 s1); [lia|done|done|].
      pose proof (Hlt j i s2 s1 Hij H2 H1) as Hdiff.
      unfold infer_from_sentences in *.
      destruct (decide (Sentence.cells s1 ⊆ Sentence.cells s2)) as [H12|H12].
      * rewrite decide_False; [done|]. intros H21. apply Hdiff. set_solver.
      * destruct (decide (Sentence.cells s2 ⊆ Sentence.cells s1)); done.
Qed.

Lemma settled_knowledge_at_rest_witness :
  Forall (fun s => Sentence.cells s ≠ ∅ ∧ Sentence.count s ≠ 0
                   ∧ Sentence.count s ≠ Z.of_nat (size (Sentence.cells s)))
         (knowledge corner_first).
Proof.
  apply (settled_knowledge_at_rest 5 corner_first corner_first).
  - apply (bool_decide_unpack _). vm_compute. reflexivity.
  - vm_compute. reflexivity.
Defined.

(** X22.  With nothing to work on nothing is done: [update_knowledge] on an
    engine without sentences returns it unchanged at its first round; a new
    engine has no safe move to propose, and it has a random move to propose
    unless the grid has no cell. *)
Theorem nothing_to_work_on :
  (∀ fuel h w mv mn sf,
     update_knowledge fuel (mk h w mv mn sf []) = Some (mk h w mv mn sf [])) ∧
  (∀ r h w, (make_safe_move r (init h w)).1 = None) ∧
  (∀ r h w, (make_random_move r (init h w)).1 = None ↔ h ≤ 0 ∨ w ≤ 0).
Proof.
  split; [|split].
  - intros fuel h w mv mn sf. unfold update_knowledge, max_iterations.
    cbn [iterate]. unfold update_round. cbn.
    destruct fuel; cbn; by rewrite elements_empty.
  - intros r h w. unfold make_safe_move. cbn. rewrite decide_True; [done|set_solver].
  - intros r h w. unfold make_random_move. cbn [fst init moves_made mines].
    assert (all_moves (init h w) ∖ ∅ ∖ ∅ = all_moves (init h w)) as -> by set_solver.
    destruct (elements (all_moves (init h w))) as [|c l] eqn:Hl.
    + split; [intros _|done]. apply elements_empty_inv in Hl.
      destruct (decide (h ≤ 0 ∨ w ≤ 0)) as [|Hn]; [done|]. exfalso.
      assert ((0, 0) ∈ all_moves (init h w)) as Hin.
      { apply elem_of_all_moves. unfold in_bounds. cbn. lia. }
      set_solver.
    + rewrite <- Hl. split.
      * intros Hnone. exfalso.
        destruct (choice_is_Some r (elements (all_moves (init h w)))) as [c' Hc'];
          [by rewrite Hl|]. congruence.
      * intros Hhw. exfalso.
        assert (c ∈ all_moves (init h w)) as Hin.
        { apply elem_of_elements. rewrite Hl. left. }
        apply elem_of_all_moves in Hin. unfold in_bounds in Hin. cbn in Hin. lia.
Qed.

(** * The printed board *)

Section Printed.

Lemma length_concat_pairs {A B} (f : A → list B) (l : list A) :
  (∀ x, x ∈ l → length (f x) = 2%nat) →
  length (concat (f <$> l)) = (2 * length l)%nat.
Proof.
  induction l as [|x l IH]; intros Hf; [done|].
  cbn. rewrite length_app, IH, Hf; [lia|left|].
  intros y Hy. apply Hf. by right.
Qed.

Lemma lookup_concat_pairs {A B} (f : A → list B) (l : list A) k x a b :
  (∀ y, y ∈ l → length (f y) = 2%nat) →
  l !! k = Some x → f x = [a; b] →
  concat (f <$> l) !! (2 * k)%nat = Some a ∧
  concat (f <$> l) !! (2 * k + 1)%nat = Some b.
Proof.
  revert k. induction l as [|y l IH]; intros k Hf Hk Hx; [done|].
  cbn [fmap list_fmap concat]. destruct k as [|k].
  - cbn in Hk. simplify_eq. rewrite Hx. done.
  - cbn in Hk.
    assert (length (f y) = 2%nat) as Hy by (apply Hf; left).
    rewrite !lookup_app_r by lia. rewrite Hy.
    replace (2 * S k - 2)%nat with (2 * k)%nat by lia.
    replace (2 * S k + 1 - 2)%nat with (2 * k + 1)%nat by lia.
    apply IH; [|done|done]. intros z Hz. apply Hf. by right.
Qed.

Lemma elem_of_concat {B} (x : B) (ls : list (list B)) :
  x ∈ concat ls → ∃ l, x ∈ l ∧ l ∈ ls.
Proof.
  induction ls as [|l ls IH]; cbn; [by intros ?%elem_of_nil|].
  intros [Hx|Hx]%elem_of_app.
  - exists l. split; [done|left].
  - destruct (IH Hx) as (l' & Hl' & Hin). exists l'. split; [done|by right].
Qed.

Lemma cells_fold g i l : ∀ acc,
  matrix_ok g → 0 ≤ i < Game.height g →
  (∀ j, j ∈ l → 0 ≤ j < Game.width g) →
  foldl (fun acc j =>
           line ← acc;
           b ← Game.board_get g i j;
           Some (line ++ (if b : bool then ["|"; "X"] else ["|"; " "])%char))
        (Some acc) l
  = Some (acc ++ concat ((fun j => if bool_decide ((i, j) ∈ Game.mines g)
                                   then ["|"; "X"]%char else ["|"; " "]%char) <$> l)).
Proof.
  intros acc Hok Hi. revert acc. induction l as [|j l IH]; intros acc Hl.
  - cbn. by rewrite app_nil_r.
  - cbn [foldl mbind option_bind]. rewrite board_get_in_range; [|done|done|apply Hl; left].
    cbn [mbind option_bind]. rewrite IH by (intros j' Hj'; apply Hl; by right).
    cbn [fmap list_fmap concat]. by rewrite <- app_assoc.
Qed.

Lemma row_line_text g i :
  matrix_ok g → 0 ≤ i < Game.height g → Game.row_line g i = Some (row_text g i).
Proof.
  intros Hok Hi. unfold Game.row_line, row_text.
  rewrite (cells_fold g i (seqZ 0 (Game.width g)) [] Hok Hi).
  - done.
  - intros j Hj%elem_of_seqZ. lia.
Qed.

Lemma lines_fold g l : ∀ acc,
  matrix_ok g → (∀ i, i ∈ l → 0 ≤ i < Game.height g) →
  foldl (fun acc i =>
           lines ← acc;
           row ← Game.row_line g i;
           Some (lines ++ [Game.sep_line (Game.width g); row]))
        (Some acc) l
  = Some (acc ++ concat ((fun i => [Game.sep_line (Game.width g); row_text g i]) <$> l)).
Proof.
  intros acc Hok. revert acc. induction l as [|i l IH]; intros acc Hl.
  - cbn. by rewrite app_nil_r.
  - cbn [foldl mbind option_bind]. rewrite row_line_text; [|done|apply Hl; left].
    cbn [mbind option_bind]. rewrite IH by (intros i' Hi'; apply Hl; by right).
    cbn [fmap list_fmap concat]. by rewrite <- app_assoc.
Qed.

Lemma print_text g :
  matrix_ok g →
  Game.print g
  = Some (concat ((fun i => [Game.sep_line (Game.width g); row_text g i])
                  <$> seqZ 0 (Game.height g))
          ++ [Game.sep_line (Game.width g)]).
Proof.
  intros Hok. unfold Game.print.
  rewrite (lines_fold g (seqZ 0 (Game.height g)) [] Hok).
  - done.
  - intros i Hi%elem_of_seqZ. lia.
Qed.

Lemma length_sep_line w : length (Game.sep_line w) = (2 * Z.to_nat w + 1)%nat.
Proof.
  unfold Game.sep_line. rewrite length_app. cbn [length].
  assert (∀ n, length (concat (replicate n ["-"; "-"]%char)) = (2 * n)%nat) as ->; [|lia].
  induction n as [|n IH]; [done|]. cbn [replicate concat]. rewrite length_app, IH.
  cbn. lia.
Qed.

Lemma length_row_text g i : length (row_text g i) = (2 * Z.to_nat (Game.width g) + 1)%nat.
Proof.
  unfold row_text. rewrite length_app, length_concat_pairs, length_seqZ; [cbn; lia|].
  intros j _. by case_bool_decide.
Qed.

End Printed.

(** X23.  On a well-made object [print] does not raise.  It writes
    [2 * height + 1] lines of [2 * width + 1] characters each; the line
    [2 * i + 1] is the row [i], whose character [2 * j] is a bar and whose
    character [2 * j + 1] is [X] when the cell [(i, j)] has a mine and a
    blank when it has none. *)
Theorem print_shows_the_mines (g : Game.t) :
  matrix_ok g →
  ∃ lines, Game.print g = Some lines ∧
    length lines = (2 * Z.to_nat (Game.height g) + 1)%nat ∧
    Forall (fun line => length line = (2 * Z.to_nat (Game.width g) + 1)%nat) lines ∧
    ∀ i j : nat, Z.of_nat i < Game.height g → Z.of_nat j < Game.width g →
      ∃ line, lines !! (2 * i + 1)%nat = Some line ∧
              line !! (2 * j)%nat = Some "|"%char ∧
              line !! (2 * j + 1)%nat
              = Some (if bool_decide ((Z.of_nat i, Z.of_nat j) ∈ Game.mines g)
                      then "X"%char else " "%char).
Proof.
  intros Hok. eexists. split; [by apply print_text|].
  set (chunk := fun i => [Game.sep_line (Game.width g); row_text g i]).
  assert (∀ i, i ∈ seqZ 0 (Game.height g) → length (chunk i) = 2%nat) as Hchunk by done.
  split; [|split].
  - rewrite length_app, length_concat_pairs, length_seqZ by done. cbn. lia.
  - apply Forall_app. split; [|apply Forall_singleton, length_sep_line].
    apply Forall_forall. intros line Hline.
    apply elem_of_concat in Hline as (c & Hline & Hc).
    apply list_elem_of_fmap in Hc as (i & -> & _).
    apply elem_of_cons in Hline as [->|Hline]; [apply length_sep_line|].
    apply list_elem_of_singleton in Hline as ->. apply length_row_text.
  - intros i j Hi Hj. exists (row_text g (Z.of_nat i)).
    assert (seqZ 0 (Game.height g) !! i = Some (Z.of_nat i)) as Hli.
    { rewrite lookup_seqZ. split; lia. }
    destruct (lookup_concat_pairs chunk (seqZ 0 (Game.height g)) i (Z.of_nat i)
                (Game.sep_line (Game.width g)) (row_text g (Z.of_nat i)) Hchunk Hli eq_refl)
      as [_ Hrow].
    split.
    { rewrite lookup_app_l; [done|].
      rewrite length_concat_pairs, length_seqZ by done. lia. }
    set (cell := fun j' : Z =>
           if bool_decide ((Z.of_nat i, j') ∈ Game.mines g)
           then ["|"; "X"]%char else ["|"; " "]%char).
    assert (∀ j', j' ∈ seqZ 0 (Game.width g) → length (cell j') = 2%nat) as Hcell.
    { intros j' _. unfold cell. by case_bool_decide. }
    assert (seqZ 0 (Game.width g) !! j = Some (Z.of_nat j)) as Hlj.
    { rewrite lookup_seqZ. split; lia. }
    assert (cell (Z.of_nat j)
            = ["|"%char; if bool_decide ((Z.of_nat i, Z.of_nat j) ∈ Game.mines g)
                         then "X"%char else " "%char]) as Hcj.
    { unfold cell. by case_bool_decide. }
    destruct (lookup_concat_pairs cell (seqZ 0 (Game.width g)) j (Z.of_nat j) _ _
                Hcell Hlj Hcj) as [Hbar Hmark].
    unfold row_text. fold cell.
    rewrite !lookup_app_l by (rewrite length_concat_pairs, length_seqZ by done; lia).
    done.
Qed.

Lemma print_shows_the_mines_witness :
  ∃ lines, Game.print corner_game = Some lines ∧ length lines = 5%nat.
Proof.
  assert (Game.init 2 2 1 [(0, 1)%nat] = Game.Returned corner_game) as Hi
    by (vm_compute; reflexivity).
  pose proof (proj1 (init_returned 2 2 1 _ _ Hi)) as Hok.
  destruct (print_shows_the_mines corner_game Hok) as (lines & Hp & Hlen & _).
  exists lines. split; [exact Hp|exact Hlen].
Defined.

(** * The derivation loop stops *)

(** C5 (amended).  In a game played on a board the derivation loop of every
    call of [add_knowledge] stops, and so the call returns.  It stops at the
    first round that reports no change, after fewer than 100 rounds that
    each reported one, and the engine it leaves is then a fixed point of the
    round; or it is stopped by the cap, after exactly 100 rounds that each
    reported a change. *)
Theorem derivation_loop_stops (g : Minesweeper.t) (h w : Z) (obs : list (Cell * Z))
    (st : t) (cell : Cell) (count : Z) :
  session (truthful g) (init h w) obs st →
  truthful g st cell count →
  ∃ fuel st' ch,
    iterate fuel max_iterations (record_observation cell count st) = Some (st', ch) ∧
    add_knowledge fuel cell count st = Some st' ∧
    if ch then changing fuel 100 (record_observation cell count st) st'
    else (∃ k st_k, (k < 100)%nat ∧
                    changing fuel k (record_observation cell count st) st_k ∧
                    update_round fuel st_k = Some (st', false)) ∧
         update_round fuel st' = Some (st', false).
Proof.
  intros Hs Hpre.
  pose proof (board_session_sound g h w obs st Hs) as Hst.
  pose proof (record_observation_sound g cell count st Hst Hpre) as Hr.
  destruct (iterate_returns (Minesweeper.mines g) max_iterations
              (record_observation cell count st) Hr) as (fuel & [st' ch] & Hi).
  exists fuel, st', ch. split; [exact Hi|]. split.
  { unfold add_knowledge, update_knowledge. by rewrite Hi. }
  destruct ch.
  - by apply changing_iterate in Hi.
  - split; [by apply changing_iterate in Hi|]. by eapply iterate_settled.
Qed.

Lemma derivation_loop_stops_witness :
  ∃ fuel st' ch,
    iterate fuel max_iterations (record_observation (1, 0) 1 corner_first) = Some (st', ch) ∧
    add_knowledge fuel (1, 0) 1 corner_first = Some st' ∧
    if ch then changing fuel 100 (record_observation (1, 0) 1 corner_first) st'
    else (∃ k st_k, (k < 100)%nat ∧
                    changing fuel k (record_observation (1, 0) 1 corner_first) st_k ∧
                    update_round fuel st_k = Some (st', false)) ∧
         update_round fuel st' = Some (st', false).
Proof.
  apply (derivation_loop_stops corner_board 2 2 [((0, 0), 1)] corner_first (1, 0) 1).
  - apply (replay_session (truthful corner_board) 5). vm_compute. reflexivity.
  - apply (bool_decide_unpack _). vm_compute. reflexivity.
Defined.
